(** * FEMuS applications [Conformal/ex7] and [2021_fall/shaflynn]

    A shallow embedding of the element assembly of the Boussinesq
    application (residual by quadrature, Jacobian by automatic
    differentiation), of its field-split configuration and point-probe
    reduction, and of the Neumann boundary loops of the Poisson
    application, together with the properties proved about them.

    C++ [double] arithmetic is kept abstract (class [Scalar]): every
    statement about "the same values" holds for any interpretation of the
    operators, operation by operation.  Statements about derivatives and
    closed formulas are made in the instance of the real numbers. *)

From Stdlib Require Import List Arith Lia Bool ZArith Reals Lra String.
From stdpp Require Import base gmap.
Import ListNotations.
Local Open Scope nat_scope.

(** * Definitions *)

(** ** Arithmetic of [double] *)

(** The operators the two programs apply to [double] values.  No law is
    assumed of them. *)
Class Scalar (D : Type) := {
  sZ    : Z -> D;            (* an integer literal, [0.], [1.], [3000] *)
  sadd  : D -> D -> D;
  ssub  : D -> D -> D;
  smul  : D -> D -> D;
  sdiv  : D -> D -> D;
  sneg  : D -> D;
  ssqrt : D -> D;
  sneb  : D -> D -> bool     (* operator != *)
}.

(** C++ resolves [a + b], [a * b], ... by the types of the operands
    ([double] or [adept::adouble]); the classes below do the same. *)
Class HAdd (A B C : Type) := hadd : A -> B -> C.
Class HSub (A B C : Type) := hsub : A -> B -> C.
Class HMul (A B C : Type) := hmul : A -> B -> C.
Class HDiv (A B C : Type) := hdiv : A -> B -> C.
Class HNeg (A : Type) := hneg : A -> A.
Global Hint Mode HAdd ! ! - : typeclass_instances.
Global Hint Mode HSub ! ! - : typeclass_instances.
Global Hint Mode HMul ! ! - : typeclass_instances.
Global Hint Mode HDiv ! ! - : typeclass_instances.
Global Hint Mode HNeg ! : typeclass_instances.

Declare Scope cxx_scope.
Delimit Scope cxx_scope with cxx.
Notation "a + b" := (hadd a b) : cxx_scope.
Notation "a - b" := (hsub a b) : cxx_scope.
Notation "a * b" := (hmul a b) : cxx_scope.
Notation "a / b" := (hdiv a b) : cxx_scope.
Notation "- a" := (hneg a) : cxx_scope.

Section ScalarOps.
Context {D : Type} `{Scalar D}.

#[global] Instance add_DD : HAdd D D D := sadd.
#[global] Instance sub_DD : HSub D D D := ssub.
#[global] Instance mul_DD : HMul D D D := smul.
#[global] Instance div_DD : HDiv D D D := sdiv.
#[global] Instance neg_D : HNeg D := sneg.

Definition s0 : D := sZ 0.
Definition s1 : D := sZ 1.
(** A decimal literal [m / p], as [0.5 = 5 / 10]. *)
Definition dec (m p : Z) : D := sdiv (sZ m) (sZ p).
End ScalarOps.

(** The real numbers as the exact model of [double]. *)
#[global] Instance Scalar_R : Scalar R := {
  sZ := IZR;
  sadd := Rplus;
  ssub := Rminus;
  smul := Rmult;
  sdiv := Rdiv;
  sneg := Ropp;
  ssqrt := sqrt;
  sneb := fun x y => if Req_dec_T x y then false else true
}.

(** ** [std::vector] *)

Section Vector.
Context {A : Type}.

(** [v.resize(n)]: the first [n] entries are kept, new ones are [d]. *)
Definition resize (d : A) (n : nat) (v : list A) : list A :=
  firstn n v ++ repeat d (n - length v).

(** [for (i = 0; i < n; i++) body] over a state [S]. *)
Definition for_loop {S : Type} (n : nat) (body : nat -> S -> S) (s : S) : S :=
  fold_left (fun s i => body i s) (seq 0 n) s.

(** [for (i = 0; i < n; i++) v[i] = g(i, v[i])].  An index outside the
    vector is undefined behaviour in C++; here the write is dropped and the
    read gives [d]. *)
Definition vec_update_loop (d : A) (n : nat) (g : nat -> A -> A) (v : list A) : list A :=
  for_loop n (fun i v => <[i := g i (nth i v d)]> v) v.

(** The three loops that fill a local vector block by block: [nT] entries,
    [dm] blocks of [nV] entries, [nP] entries. *)
Definition block_write (nT nV nP dm : nat) (a : nat -> A) (bv : nat -> nat -> A)
    (c : nat -> A) (v : list A) : list A :=
  for_loop nP (fun i v => <[i + nT + dm * nV := c i]> v)
    (for_loop nV (fun i v => for_loop dm (fun k v => <[i + nT + k * nV := bv i k]> v) v)
       (for_loop nT (fun i v => <[i := a i]> v) v)).

(** [std::fill(v.begin(), v.end(), x)] *)
Definition vfill (x : A) (v : list A) : list A := map (fun _ => x) v.
End Vector.

(** ** The differentiation recording (Adept) *)

(** The storage locations of the active unknowns of one element:
    [&solT[i]], [&solV[k][i]] and [&solP[i]].  The residual buffers
    [aResT], [aResV[k]], [aResP] are indexed in the same way. *)
Inductive slot : Type :=
| SlotT (i : nat)
| SlotV (k i : nat)
| SlotP (i : nat).

#[global] Instance slot_eq_dec : EqDecision slot.
Proof. solve_decision. Defined.

Section Adept.
Context {D : Type} `{Scalar D}.

(** Modelled from the spec: [adept::adouble] and [adept::Stack] are not
    part of the sources.  The recording is "an operation log over tagged
    independent (unknown) and dependent (residual) values enabling
    automatic extraction of derivatives": an active value is its [double]
    value together with what the log determines for it, its partial
    derivative with respect to every location that was a leaf when the
    recording was opened.  While the recording is paused only values are
    computed. *)
Record adouble : Type := { value : D; partials : slot -> D }.

(** Modelled from the spec: a [double] converted to [adept::adouble]. *)
Definition aconst (d : D) : adouble :=
  {| value := d; partials := fun _ => s0 |}.

(** Modelled from the spec: the active variable stored at location [s],
    holding [d] when the recording is opened. *)
Definition leaf (rec : bool) (s : slot) (d : D) : adouble :=
  {| value := d;
     partials := if rec then fun s' => if decide (s = s') then s1 else s0
                 else fun _ => s0 |}.

(** Modelled from the spec: the overloaded operators of [adept::adouble],
    by operand types; [rec] tells whether the stack is recording. *)
Definition aadd (rec : bool) (a b : adouble) : adouble :=
  {| value := sadd (value a) (value b);
     partials := if rec then fun s => sadd (partials a s) (partials b s)
                 else fun _ => s0 |}.
Definition asub (rec : bool) (a b : adouble) : adouble :=
  {| value := ssub (value a) (value b);
     partials := if rec then fun s => ssub (partials a s) (partials b s)
                 else fun _ => s0 |}.
Definition amul (rec : bool) (a b : adouble) : adouble :=
  {| value := smul (value a) (value b);
     partials := if rec
                 then fun s => sadd (smul (partials a s) (value b))
                                    (smul (value a) (partials b s))
                 else fun _ => s0 |}.
Definition aneg (rec : bool) (a : adouble) : adouble :=
  {| value := sneg (value a);
     partials := if rec then fun s => sneg (partials a s) else fun _ => s0 |}.
(** [adouble + double], [adouble - double] *)
Definition aaddD (rec : bool) (a : adouble) (d : D) : adouble :=
  {| value := sadd (value a) d;
     partials := if rec then partials a else fun _ => s0 |}.
Definition asubD (rec : bool) (a : adouble) (d : D) : adouble :=
  {| value := ssub (value a) d;
     partials := if rec then partials a else fun _ => s0 |}.
(** [double * adouble], [adouble * double], [adouble / double] *)
Definition amulD_l (rec : bool) (d : D) (a : adouble) : adouble :=
  {| value := smul d (value a);
     partials := if rec then fun s => smul d (partials a s) else fun _ => s0 |}.
Definition amulD_r (rec : bool) (a : adouble) (d : D) : adouble :=
  {| value := smul (value a) d;
     partials := if rec then fun s => smul (partials a s) d else fun _ => s0 |}.
Definition adivD (rec : bool) (a : adouble) (d : D) : adouble :=
  {| value := sdiv (value a) d;
     partials := if rec then fun s => sdiv (partials a s) d else fun _ => s0 |}.

(** Modelled from the spec: the state of [adept::Stack] that the assembly
    uses: whether it records, and the declared independent locations and
    dependent values, in declaration order. *)
Record Stack : Type := {
  recording : bool;
  independents : list slot;
  dependents : list adouble
}.

Definition continue_recording (s : Stack) : Stack :=
  {| recording := true; independents := independents s; dependents := dependents s |}.
Definition pause_recording (s : Stack) : Stack :=
  {| recording := false; independents := independents s; dependents := dependents s |}.
(** [s.independent(&x[0], n)] with [x[i]] stored at [loc i] *)
Definition independent (loc : nat -> slot) (n : nat) (s : Stack) : Stack :=
  {| recording := recording s;
     independents := independents s ++ map loc (seq 0 n);
     dependents := dependents s |}.
(** [s.dependent(&y[0], n)] *)
Definition dependent (y : list adouble) (n : nat) (s : Stack) : Stack :=
  {| recording := recording s;
     independents := independents s;
     dependents := dependents s ++ map (fun i => nth i y (aconst s0)) (seq 0 n) |}.
Definition clear_independents (s : Stack) : Stack :=
  {| recording := recording s; independents := []; dependents := dependents s |}.
Definition clear_dependents (s : Stack) : Stack :=
  {| recording := recording s; independents := independents s; dependents := [] |}.

(** Modelled from the spec: [s.jacobian(out, true)], "the local Jacobian
    block dJ[dep][indep] in row-major order, blocks concatenated in
    declared field order". *)
Definition jacobian (s : Stack) : list D :=
  flat_map (fun y => map (partials y) (independents s)) (dependents s).

(** Writing [out] through the pointer [&v[0]]. *)
Definition store_at_0 (out v : list D) : list D := out ++ skipn (length out) v.
End Adept.
Arguments adouble D : clear implicits.
Arguments Stack D : clear implicits.

(** ** Reading a vector: [v[i]] *)

(** The value the model gives to an out-of-range read, by element type. *)
Class Dflt (A : Type) := dflt : A.
Global Hint Mode Dflt ! : typeclass_instances.
#[global] Instance Dflt_nat : Dflt nat := 0.
#[global] Instance Dflt_list {A} : Dflt (list A) := [].
#[global] Instance Dflt_adouble {D} `{Scalar D} : Dflt (adouble D) := @aconst D _ s0.
#[global] Instance Dflt_D {D} `{Scalar D} : Dflt D | 100 := @s0 D _.

Notation "v [@ i ]" := (nth i v dflt) (at level 1, i at level 99, left associativity, format "v [@ i ]").

(** ** The distributed sparse-system backend *)

Section Backend.
Context {D : Type} `{Scalar D}.

(** Modelled from the spec: [NumericVector] and [SparseMatrix] are not part
    of the sources.  A global vector is its entries by global dof, a global
    matrix its entries by row and column dof. *)
Definition NumericVector : Type := nat -> D.
Definition SparseMatrix : Type := nat -> nat -> D.

(** Modelled from the spec: [zero()] *)
Definition vec_zero : NumericVector := fun _ => s0.
Definition mat_zero : SparseMatrix := fun _ _ => s0.

Definition vec_add_at (g : nat) (x : D) (V : NumericVector) : NumericVector :=
  fun g' => if decide (g' = g) then sadd (V g) x else V g'.
Definition mat_add_at (r c : nat) (x : D) (M : SparseMatrix) : SparseMatrix :=
  fun r' c' => if decide (r' = r /\ c' = c) then sadd (M r c) x else M r' c'.

(** Modelled from the spec: [AddBlocked(values, globalIndices)],
    [V[dofs[i]] += vals[i]] in the order of [i]. *)
Definition add_vector_blocked (vals : list D) (dofs : list nat) (V : NumericVector)
  : NumericVector :=
  for_loop (length dofs) (fun i V => vec_add_at (nth i dofs 0) (nth i vals s0) V) V.

(** Modelled from the spec: [M[rows[i]][cols[j]] += vals[i * |cols| + j]],
    row by row. *)
Definition add_matrix_blocked (vals : list D) (rows cols : list nat) (M : SparseMatrix)
  : SparseMatrix :=
  for_loop (length rows) (fun i M =>
    for_loop (length cols) (fun j M =>
      mat_add_at (nth i rows 0) (nth j cols 0) (nth (i * length cols + j) vals s0) M) M) M.

(** Modelled from the spec: [close()] reconciles the contributions of the
    partitions; seen from one partition it leaves the entries it owns as
    they are. *)
Definition vec_close (V : NumericVector) : NumericVector := V.
Definition mat_close (M : SparseMatrix) : SparseMatrix := M.
End Backend.
Arguments NumericVector D : clear implicits.
Arguments SparseMatrix D : clear implicits.

(** ** [Conformal/ex7]: the Boussinesq assembly *)

Section Boussinesq.
Context {D : Type} `{Scalar D}.

(** *** What the assembly reads from the library *)

(** [Mesh], with the finite-element tables it holds. *)
Record Mesh : Type := {
  GetDimension : nat;
  processor_id : nat;
  n_processors : nat;
  elementOffset : nat -> nat;                       (* _elementOffset[iproc] *)
  GetElementType : nat -> nat;                      (* (iel) *)
  GetElementDofNumber : nat -> nat -> nat;          (* (iel, type) *)
  GetSolutionDof : nat -> nat -> nat -> nat;        (* (i, iel, type) *)
  GetGaussPointNumber : nat -> nat -> nat;          (* _finiteElement[geom][type] *)
  (* _finiteElement[geom][type]->Jacobian(coordX, ig, weight, phi, phi_x, phi_xx):
     the outputs weight, phi, phi_x *)
  Jacobian : nat -> nat -> list (list D) -> nat -> D * list D * list D;
  GetPhi : nat -> nat -> nat -> list D;             (* _finiteElement[geom][type]->GetPhi(ig) *)
  topology_Sol : nat -> nat -> D                    (* _topology->_Sol[k] at dof *)
}.

(** [Solution]: the current and the old copy of each field. *)
Record Solution : Type := {
  Sol : nat -> nat -> D;                            (* _Sol[index] at dof *)
  SolOld : nat -> nat -> D
}.

Record MultiLevelSolution : Type := {
  GetIndex : string -> nat;
  GetSolutionType : nat -> nat
}.

(** [TransientNonlinearImplicitSystem] with its [LinearEquationSolver]. *)
Record PdeSystem : Type := {
  GetSolPdeIndex : string -> nat;
  GetAssembleMatrix : bool;
  GetIntervalTime : D;
  GetSystemDof : nat -> nat -> nat -> nat -> nat    (* (index, pdeIndex, i, iel) *)
}.

(** *** The local vectors of the assembly *)

(** They are declared before the element loop and resized for each
    element, so an element finds in them what the previous one left. *)
Record ElemBuffers : Type := {
  solT : list (adouble D);
  solV : list (list (adouble D));
  solP : list (adouble D);
  solTold : list D;
  solVold : list (list D);
  solPold : list D;
  aResT : list (adouble D);
  aResV : list (list (adouble D));
  aResP : list (adouble D);
  coordX : list (list D);
  sysDof : list nat;
  Res : list D;
  Jac : list D
}.

(** What the pass changes outside its local vectors: the recording, the
    global residual vector and the global matrix. *)
Record AsmState : Type := {
  stack : Stack D;
  RES : NumericVector D;
  KK : SparseMatrix D
}.

Variable msh : Mesh.
Variable sol : Solution.
Variable mlSol : MultiLevelSolution.
Variable mlPdeSys : PdeSystem.

(** The size given to [solT], [solTold] and [aResT] from [nDofsT] and
    [nDofsV]: the source resizes them to [nDofsV]
    (see [AssembleBoussinesqAppoximation_AD] below). *)
Variable sizeT : nat -> nat -> nat.

Definition dim : nat := GetDimension msh.
Definition iproc : nat := processor_id msh.

Definition solTIndex : nat := GetIndex mlSol "T".
Definition solTType : nat := GetSolutionType mlSol solTIndex.

(** [vector<unsigned> solVIndex(dim)], then [solVIndex[0]], [[1]] and, in
    three dimensions, [[2]] are set. *)
Definition solVIndex : list nat :=
  let v := repeat 0 dim in
  let v := <[0 := GetIndex mlSol "U"]> v in
  let v := <[1 := GetIndex mlSol "V"]> v in
  if dim =? 3 then <[2 := GetIndex mlSol "W"]> v else v.
Definition solVType : nat := GetSolutionType mlSol solVIndex[@0].

Definition solPIndex : nat := GetIndex mlSol "P".
Definition solPType : nat := GetSolutionType mlSol solPIndex.

Definition solTPdeIndex : nat := GetSolPdeIndex mlPdeSys "T".
Definition solVPdeIndex : list nat :=
  let v := repeat 0 dim in
  let v := <[0 := GetSolPdeIndex mlPdeSys "U"]> v in
  let v := <[1 := GetSolPdeIndex mlPdeSys "V"]> v in
  if dim =? 3 then <[2 := GetSolPdeIndex mlPdeSys "W"]> v else v.
Definition solPPdeIndex : nat := GetSolPdeIndex mlPdeSys "P".

Definition coordXType : nat := 2.

(** The vectors as they are declared: [solV(dim)], [coordX(dim)], ... hold
    [dim] empty vectors, the others are empty. *)
Definition initial_buffers : ElemBuffers :=
  {| solT := []; solV := repeat [] dim; solP := [];
     solTold := []; solVold := repeat [] dim; solPold := [];
     aResT := []; aResV := repeat [] dim; aResP := [];
     coordX := repeat [] dim;
     sysDof := []; Res := []; Jac := [] |}.

Section Element.
Variable rec : bool.      (* the stack is recording *)
Variable iel : nat.

Definition ielGeom : nat := GetElementType msh iel.
Definition nDofsT : nat := GetElementDofNumber msh iel solTType.
Definition nDofsV : nat := GetElementDofNumber msh iel solVType.
Definition nDofsP : nat := GetElementDofNumber msh iel solPType.
Definition nDofsX : nat := GetElementDofNumber msh iel coordXType.
Definition nDofsTVP : nat := nDofsT + dim * nDofsV + nDofsP.

(** The overloads of the operators on [adept::adouble]. *)
#[local] Instance add_AA : HAdd (adouble D) (adouble D) (adouble D) := aadd rec.
#[local] Instance sub_AA : HSub (adouble D) (adouble D) (adouble D) := asub rec.
#[local] Instance mul_AA : HMul (adouble D) (adouble D) (adouble D) := amul rec.
#[local] Instance neg_A : HNeg (adouble D) := aneg rec.
#[local] Instance add_AD : HAdd (adouble D) D (adouble D) := aaddD rec.
#[local] Instance sub_AD : HSub (adouble D) D (adouble D) := asubD rec.
#[local] Instance mul_DA : HMul D (adouble D) (adouble D) := amulD_l rec.
#[local] Instance mul_AD : HMul (adouble D) D (adouble D) := amulD_r rec.
#[local] Instance div_AD : HDiv (adouble D) D (adouble D) := adivD rec.

(** **** Resizing the local vectors and loading the element *)

(** The loops of the source write several vectors in one pass over [i];
    below each vector has its own loop, with the same writes in the same
    order. *)
Definition load_element (b : ElemBuffers) : ElemBuffers :=
  let sysDof0 := resize 0 nDofsTVP (sysDof b) in
  let solT0 := resize dflt (sizeT nDofsT nDofsV) (solT b) in
  let solTold0 := resize dflt (sizeT nDofsT nDofsV) (solTold b) in
  let solV0 := vec_update_loop dflt dim (fun _ v => resize dflt nDofsV v) (solV b) in
  let solVold0 := vec_update_loop dflt dim (fun _ v => resize dflt nDofsV v) (solVold b) in
  let coordX0 := vec_update_loop dflt dim (fun _ v => resize dflt nDofsX v) (coordX b) in
  let solP0 := resize dflt nDofsP (solP b) in
  let solPold0 := resize dflt nDofsP (solPold b) in
  let aResT0 := vfill (aconst s0) (resize dflt (sizeT nDofsT nDofsV) (aResT b)) in
  let aResV0 :=
    vec_update_loop dflt dim (fun _ v => vfill (aconst s0) (resize dflt nDofsV v)) (aResV b) in
  let aResP0 := vfill (aconst s0) (resize dflt nDofsP (aResP b)) in
  (* for (i < nDofsT) *)
  let solT1 := vec_update_loop dflt nDofsT (fun i _ =>
    leaf rec (SlotT i) (Sol sol solTIndex (GetSolutionDof msh i iel solTType))) solT0 in
  let solTold1 := vec_update_loop dflt nDofsT (fun i _ =>
    SolOld sol solTIndex (GetSolutionDof msh i iel solTType)) solTold0 in
  let sysDof1 := for_loop nDofsT (fun i v =>
    <[i := GetSystemDof mlPdeSys solTIndex solTPdeIndex i iel]> v) sysDof0 in
  (* for (i < nDofsV) for (k < dim) *)
  let solV1 := vec_update_loop dflt dim (fun k row =>
    vec_update_loop dflt nDofsV (fun i _ =>
      leaf rec (SlotV k i) (Sol sol solVIndex[@k] (GetSolutionDof msh i iel solVType))) row)
    solV0 in
  let solVold1 := vec_update_loop dflt dim (fun k row =>
    vec_update_loop dflt nDofsV (fun i _ =>
      SolOld sol solVIndex[@k] (GetSolutionDof msh i iel solVType)) row) solVold0 in
  let sysDof2 := for_loop nDofsV (fun i v => for_loop dim (fun k v =>
    <[i + nDofsT + k * nDofsV := GetSystemDof mlPdeSys solVIndex[@k] solVPdeIndex[@k] i iel]> v)
    v) sysDof1 in
  (* for (i < nDofsP) *)
  let solP1 := vec_update_loop dflt nDofsP (fun i _ =>
    leaf rec (SlotP i) (Sol sol solPIndex (GetSolutionDof msh i iel solPType))) solP0 in
  let solPold1 := vec_update_loop dflt nDofsP (fun i _ =>
    SolOld sol solPIndex (GetSolutionDof msh i iel solPType)) solPold0 in
  let sysDof3 := for_loop nDofsP (fun i v =>
    <[i + nDofsT + dim * nDofsV := GetSystemDof mlPdeSys solPIndex solPPdeIndex i iel]> v)
    sysDof2 in
  (* for (i < nDofsX) for (k < dim) *)
  let coordX1 := vec_update_loop dflt dim (fun k row =>
    vec_update_loop dflt nDofsX (fun i _ =>
      topology_Sol msh k (GetSolutionDof msh i iel coordXType)) row) coordX0 in
  {| solT := solT1; solV := solV1; solP := solP1;
     solTold := solTold1; solVold := solVold1; solPold := solPold1;
     aResT := aResT0; aResV := aResV0; aResP := aResP0;
     coordX := coordX1; sysDof := sysDof3; Res := Res b; Jac := Jac b |}.

    (** **** One quadrature point *)

Definition alpha : D := sZ 1.
Definition beta : D := sZ 1.
Definition Pr : D := dec 15 1000.      (* 0.015 *)
Definition Ra : D := sZ 3000.
Definition half : D := dec 5 10.       (* 0.5 *)
Definition dt : D := GetIntervalTime mlPdeSys.

Section GaussPoint.
Variable b : ElemBuffers.     (* the local vectors of the loaded element *)
Variable ig : nat.

(** [Jacobian] is called for the type of T and then for the type of V;
    [weight] is what the second call leaves in it. *)
Definition phiT : list D := snd (fst (Jacobian msh ielGeom solTType (coordX b) ig)).
Definition phiT_x : list D := snd (Jacobian msh ielGeom solTType (coordX b) ig).
Definition weight : D := fst (fst (Jacobian msh ielGeom solVType (coordX b) ig)).
Definition phiV : list D := snd (fst (Jacobian msh ielGeom solVType (coordX b) ig)).
Definition phiV_x : list D := snd (Jacobian msh ielGeom solVType (coordX b) ig).
Definition phiP : list D := GetPhi msh ielGeom solPType ig.

(** The fields and their gradients at the quadrature point. *)
Definition solT_gss : adouble D :=
  for_loop nDofsT (fun i acc => (acc + phiT[@i] * (solT b)[@i])%cxx) (aconst s0).
Definition solTold_gss : D :=
  for_loop nDofsT (fun i acc => (acc + phiT[@i] * (solTold b)[@i])%cxx) s0.
Definition gradSolT_gss : list (adouble D) :=
  for_loop nDofsT (fun i g =>
    vec_update_loop dflt dim (fun j x =>
      (x + phiT_x[@(i * dim + j)%nat] * (solT b)[@i])%cxx) g)
    (repeat (aconst s0) dim).
Definition gradSolTold_gss : list D :=
  for_loop nDofsT (fun i g =>
    vec_update_loop dflt dim (fun j x =>
      (x + phiT_x[@(i * dim + j)%nat] * (solTold b)[@i])%cxx) g)
    (repeat s0 dim).

Definition solV_gss : list (adouble D) :=
  for_loop nDofsV (fun i g =>
    vec_update_loop dflt dim (fun k x => (x + phiV[@i] * (solV b)[@k][@i])%cxx) g)
    (repeat (aconst s0) dim).
Definition solVold_gss : list D :=
  for_loop nDofsV (fun i g =>
    vec_update_loop dflt dim (fun k x => (x + phiV[@i] * (solVold b)[@k][@i])%cxx) g)
    (repeat s0 dim).
Definition gradSolV_gss : list (list (adouble D)) :=
  for_loop nDofsV (fun i g =>
    for_loop dim (fun j g =>
      vec_update_loop dflt dim (fun k row =>
        <[j := (row[@j] + phiV_x[@(i * dim + j)%nat] * (solV b)[@k][@i])%cxx]> row) g) g)
    (repeat (repeat (aconst s0) dim) dim).
Definition gradSolVold_gss : list (list D) :=
  for_loop nDofsV (fun i g =>
    for_loop dim (fun j g =>
      vec_update_loop dflt dim (fun k row =>
        <[j := (row[@j] + phiV_x[@(i * dim + j)%nat] * (solVold b)[@k][@i])%cxx]> row) g) g)
    (repeat (repeat s0 dim) dim).

Definition solP_gss : adouble D :=
  for_loop nDofsP (fun i acc => (acc + phiP[@i] * (solP b)[@i])%cxx) (aconst s0).
Definition solPold_gss : D :=
  for_loop nDofsP (fun i acc => (acc + phiP[@i] * (solPold b)[@i])%cxx) s0.

(** The [phiT_i] loop. *)
Definition Temp (i : nat) : adouble D :=
  for_loop dim (fun j Temp =>
    let Temp :=
      (Temp + s1 / ssqrt (Ra * Pr) * alpha * phiT_x[@(i * dim + j)%nat] * gradSolT_gss[@j])%cxx in
    (Temp + phiT[@i] * (solV_gss[@j] * gradSolT_gss[@j]))%cxx) (aconst s0).
Definition TempOld (i : nat) : adouble D :=
  for_loop dim (fun j TempOld =>
    let TempOld :=
      (TempOld
       + s1 / ssqrt (Ra * Pr) * alpha * phiT_x[@(i * dim + j)%nat] * gradSolTold_gss[@j])%cxx in
    (TempOld + phiT[@i] * (solVold_gss[@j] * gradSolTold_gss[@j]))%cxx) (aconst s0).
Definition aResT_gauss (aResT : list (adouble D)) : list (adouble D) :=
  vec_update_loop dflt nDofsT (fun i x =>
    (x + (- (solT_gss - solTold_gss) * phiT[@i] / dt
          - half * (Temp i + TempOld i)) * weight)%cxx) aResT.

(** The [phiV_i] loop. *)
(** [NSV(dim, 0.)] after the loops over [j] and [k] (viscous and advective
    terms), *)
Definition NSV_jk (i : nat) : list (adouble D) :=
  for_loop dim (fun j NSV =>
    vec_update_loop dflt dim (fun k x =>
      let x := (x + ssqrt (Pr / Ra) * phiV_x[@(i * dim + j)%nat]
                    * (gradSolV_gss[@k][@j] + gradSolV_gss[@j][@k]))%cxx in
      (x + phiV[@i] * (solV_gss[@j] * gradSolV_gss[@k][@j]))%cxx) NSV)
    (repeat (aconst s0) dim).
(** after the loop over [k] that adds the pressure term, *)
Definition NSV_p (i : nat) : list (adouble D) :=
  vec_update_loop dflt dim (fun k x =>
    (x + - solP_gss * phiV_x[@(i * dim + k)%nat])%cxx) (NSV_jk i).
(** and after [NSV[1] += -beta * solT_gss * phiV[i]]. *)
Definition NSV (i : nat) : list (adouble D) :=
  <[1 := ((NSV_p i)[@1] + - beta * solT_gss * phiV[@i])%cxx]> (NSV_p i).

(** The same for [NSVold(dim, 0.)], on the old values. *)
Definition NSVold_jk (i : nat) : list D :=
  for_loop dim (fun j NSVold =>
    vec_update_loop dflt dim (fun k x =>
      let x := (x + ssqrt (Pr / Ra) * phiV_x[@(i * dim + j)%nat]
                    * (gradSolVold_gss[@k][@j] + gradSolVold_gss[@j][@k]))%cxx in
      (x + phiV[@i] * (solVold_gss[@j] * gradSolVold_gss[@k][@j]))%cxx) NSVold)
    (repeat s0 dim).
Definition NSVold_p (i : nat) : list D :=
  vec_update_loop dflt dim (fun k x =>
    (x + - solPold_gss * phiV_x[@(i * dim + k)%nat])%cxx) (NSVold_jk i).
Definition NSVold (i : nat) : list D :=
  <[1 := ((NSVold_p i)[@1] + - beta * solTold_gss * phiV[@i])%cxx]> (NSVold_p i).
Definition aResV_gauss (aResV : list (list (adouble D))) : list (list (adouble D)) :=
  for_loop nDofsV (fun i aResV =>
    vec_update_loop dflt dim (fun k row =>
      <[i := (row[@i] + (- (solV_gss[@k] - solVold_gss[@k]) * phiV[@i] / dt
                         - half * ((NSV i)[@k] + (NSVold i)[@k])) * weight)%cxx]> row)
      aResV) aResV.

(** The [phiP_i] loop. *)
Definition aResP_gauss (aResP : list (adouble D)) : list (adouble D) :=
  vec_update_loop dflt nDofsP (fun i x =>
    for_loop dim (fun k x => (x + - gradSolV_gss[@k][@k] * phiP[@i] * weight)%cxx) x)
    aResP.
End GaussPoint.

(** **** The quadrature loop *)

Definition set_aRes (b : ElemBuffers) (rT : list (adouble D))
    (rV : list (list (adouble D))) (rP : list (adouble D)) : ElemBuffers :=
  {| solT := solT b; solV := solV b; solP := solP b;
     solTold := solTold b; solVold := solVold b; solPold := solPold b;
     aResT := rT; aResV := rV; aResP := rP;
     coordX := coordX b; sysDof := sysDof b; Res := Res b; Jac := Jac b |}.

Definition gauss_point (ig : nat) (b : ElemBuffers) : ElemBuffers :=
  set_aRes b (aResT_gauss b ig (aResT b)) (aResV_gauss b ig (aResV b))
             (aResP_gauss b ig (aResP b)).

Definition gauss_loop (b : ElemBuffers) : ElemBuffers :=
  for_loop (GetGaussPointNumber msh ielGeom solVType) gauss_point b.

(** **** The local residual and the local Jacobian *)

(** [Res[..] = -aRes..[i].value()], block by block. *)
Definition store_residual (b : ElemBuffers) : list D :=
  let Res0 := resize dflt nDofsTVP (Res b) in
  let Res1 := for_loop nDofsT (fun i v =>
    <[i := (- value (aResT b)[@i])%cxx]> v) Res0 in
  let Res2 := for_loop nDofsV (fun i v => for_loop dim (fun k v =>
    <[i + nDofsT + k * nDofsV := (- value (aResV b)[@k][@i])%cxx]> v) v) Res1 in
  for_loop nDofsP (fun i v =>
    <[i + nDofsT + dim * nDofsV := (- value (aResP b)[@i])%cxx]> v) Res2.

Definition declare_dependents (b : ElemBuffers) (s : Stack D) : Stack D :=
  let s := dependent (aResT b) nDofsT s in
  let s := for_loop dim (fun k s => dependent (aResV b)[@k] nDofsV s) s in
  dependent (aResP b) nDofsP s.

Definition declare_independents (s : Stack D) : Stack D :=
  let s := independent SlotT nDofsT s in
  let s := for_loop dim (fun k s => independent (SlotV k) nDofsV s) s in
  independent SlotP nDofsP s.

Definition set_Res_Jac (b : ElemBuffers) (res jac : list D) : ElemBuffers :=
  {| solT := solT b; solV := solV b; solP := solP b;
     solTold := solTold b; solVold := solVold b; solPold := solPold b;
     aResT := aResT b; aResV := aResV b; aResP := aResP b;
     coordX := coordX b; sysDof := sysDof b; Res := res; Jac := jac |}.
End Element.

(** *** The body of the element loop *)

(** [s.new_recording()] opens the log for the element after its unknowns
    are loaded: they are its leaves, as [load_element] builds them, and the
    residuals, filled with zero, do not depend on them yet. *)
Definition assemble_element (assembleMatrix : bool) (iel : nat)
    (st : ElemBuffers * AsmState) : ElemBuffers * AsmState :=
  let '(b, g) := st in
  let rec := recording (stack g) in
  let b := load_element rec iel b in
  let b := gauss_loop rec iel b in
  let res := store_residual iel b in
  let RES' := add_vector_blocked res (sysDof b) (RES g) in
  if assembleMatrix then
    let jac0 := resize dflt (nDofsTVP iel * nDofsTVP iel) (Jac b) in
    let s := declare_dependents iel b (stack g) in
    let s := declare_independents iel s in
    let jac := store_at_0 (jacobian s) jac0 in
    let KK' := add_matrix_blocked jac (sysDof b) (sysDof b) (KK g) in
    let s := clear_dependents (clear_independents s) in
    (set_Res_Jac b res jac, {| stack := s; RES := RES'; KK := KK' |})
  else
    (set_Res_Jac b res (Jac b), {| stack := stack g; RES := RES'; KK := KK g |}).

(** *** The assembly pass *)

(** The elements the partition owns:
    [for (iel = _elementOffset[iproc]; iel < _elementOffset[iproc + 1]; iel++)]. *)
Definition owned_elements : list nat :=
  seq (elementOffset msh iproc) (elementOffset msh (iproc + 1) - elementOffset msh iproc).

Definition Assemble (g : AsmState) : AsmState :=
  let assembleMatrix := GetAssembleMatrix mlPdeSys in
  let s := if assembleMatrix then continue_recording (stack g)
           else pause_recording (stack g) in
  let KK0 := if assembleMatrix then mat_zero else KK g in
  let g := {| stack := s; RES := RES g; KK := KK0 |} in
  let '(_, g) := fold_left (fun st iel => assemble_element assembleMatrix iel st)
                           owned_elements (initial_buffers, g) in
  {| stack := stack g;
     RES := vec_close (RES g);
     KK := if assembleMatrix then mat_close (KK g) else KK g |}.
End Boussinesq.
Arguments Mesh D : clear implicits.
Arguments Solution D : clear implicits.
Arguments PdeSystem D : clear implicits.
Arguments ElemBuffers D : clear implicits.
Arguments AsmState D : clear implicits.

(** The assembly of the source: [solT], [solTold] and [aResT] are resized to
    [nDofsV]. *)
Definition AssembleBoussinesqAppoximation_AD {D} `{Scalar D}
    (msh : Mesh D) (sol : Solution D) (mlSol : MultiLevelSolution) (mlPdeSys : PdeSystem D)
    : AsmState D -> AsmState D :=
  Assemble msh sol mlSol mlPdeSys (fun nDofsT nDofsV => nDofsV).


(** ** [Conformal/ex7]: the field-split tree built in [main] *)

Module FieldSplit.
Local Open Scope string_scope.

Inductive SolverType : Type := PREONLY | RICHARDSON | GMRES.
Inductive PreconditionerType : Type := ILU_PRECOND | ASM_PRECOND | FIELDSPLIT_PRECOND.
Inductive FEFamily : Type := LAGRANGE | DISCONTINUOUS_POLYNOMIAL.
Inductive FEOrder : Type := ZERO | FIRST | SERENDIPITY | SECOND.

(** Modelled from the spec: [FieldSplitTree.hpp] is not part of the
    sources.  "leaf = {field-index set, solution-type tags, preconditioner
    kind, optional block size / Schur-variable count}; internal node =
    {ordered child trees, outer iterative-scheme kind}". *)
#[warnings="-register-all"] Inductive FieldSplitTree : Type :=
| FS_leaf (solver : SolverType) (precond : PreconditionerType)
          (fields : list nat) (solutionType : list (FEFamily * FEOrder))
          (name : string) (asmBlockSize asmSchurVariables : option nat)
| FS_node (solver : SolverType) (precond : PreconditionerType)
          (children : list FieldSplitTree) (name : string).

(** The two constructors of the class and the two setters [main] calls. *)
Definition CreateLeaf solver precond fields solutionType name : FieldSplitTree :=
  FS_leaf solver precond fields solutionType name None None.
Definition CreateNode solver precond children name : FieldSplitTree :=
  FS_node solver precond children name.
Definition SetAsmBlockSize (n : nat) (t : FieldSplitTree) : FieldSplitTree :=
  match t with
  | FS_leaf s p f ty nm _ sv => FS_leaf s p f ty nm (Some n) sv
  | FS_node _ _ _ _ => t
  end.
Definition SetAsmNumeberOfSchurVariables (n : nat) (t : FieldSplitTree) : FieldSplitTree :=
  match t with
  | FS_leaf s p f ty nm bs _ => FS_leaf s p f ty nm bs (Some n)
  | FS_node _ _ _ _ => t
  end.

(** The field indices a tree spans: those of a leaf, the union over the
    children of a node. *)
Fixpoint fields_of (t : FieldSplitTree) : gset nat :=
  match t with
  | FS_leaf _ _ fields _ _ _ _ => list_to_set fields
  | FS_node _ _ children _ => ⋃ (map fields_of children)
  end.

Fixpoint pairwise_disjoint (l : list (gset nat)) : Prop :=
  match l with
  | [] => True
  | x :: l' => Forall (fun y => x ## y) l' /\ pairwise_disjoint l'
  end.

(** At every node the children span pairwise disjoint sets. *)
Fixpoint siblings_disjoint (t : FieldSplitTree) : Prop :=
  match t with
  | FS_leaf _ _ _ _ _ _ _ => True
  | FS_node _ _ children _ =>
      pairwise_disjoint (map fields_of children)
      /\ fold_right (fun c acc => siblings_disjoint c /\ acc) True children
  end.

(** Modelled from the spec: the unknowns of a system, in the order in which
    [AddSolutionToSystemPDE] added them; [GetSolPdeIndex] is the position
    of a name (the number of unknowns for a name that was not added, for
    which the library stops the program). *)
Definition AddSolutionToSystemPDE (name : string) (system : list string) : list string :=
  system ++ [name].
Fixpoint GetSolPdeIndex (system : list string) (name : string) : nat :=
  match system with
  | [] => 0
  | n :: rest => if String.eqb n name then 0 else S (GetSolPdeIndex rest name)
  end.
Definition unknowns (system : list string) : gset nat :=
  list_to_set (seq 0 (length system)).

(** [mlSol.AddSolution(name, family, order, 2)] of [main]. *)
Definition GetSolutionType (name : string) : FEFamily * FEOrder :=
  if String.eqb name "T" then (LAGRANGE, SERENDIPITY)
  else if String.eqb name "P" then (DISCONTINUOUS_POLYNOMIAL, FIRST)
  else (LAGRANGE, SECOND).

(** [main], from [add_system("NS")] to the tree given to
    [SetFieldSplitTree]; [dim] is the dimension of the mesh read. *)
Section Main.
Variable dim : nat.

Definition system : list string :=
  let system := [] in
  let system := AddSolutionToSystemPDE "U" system in
  let system := AddSolutionToSystemPDE "V" system in
  let system := AddSolutionToSystemPDE "P" system in
  let system := if (dim =? 3)%nat then AddSolutionToSystemPDE "W" system else system in
  AddSolutionToSystemPDE "T" system.

Definition fieldUVP : list nat :=
  [GetSolPdeIndex system "U"; GetSolPdeIndex system "V"; GetSolPdeIndex system "P"].
Definition solutionTypeUVP : list (FEFamily * FEOrder) :=
  [GetSolutionType "U"; GetSolutionType "V"; GetSolutionType "P"].
Definition FS_NS : FieldSplitTree :=
  SetAsmNumeberOfSchurVariables 1
    (SetAsmBlockSize 4
       (CreateLeaf PREONLY ASM_PRECOND fieldUVP solutionTypeUVP "Navier-Stokes")).

Definition fieldT : list nat := [GetSolPdeIndex system "T"].
Definition solutionTypeT : list (FEFamily * FEOrder) := [GetSolutionType "T"].
Definition FS_T : FieldSplitTree :=
  SetAsmNumeberOfSchurVariables 1
    (SetAsmBlockSize 4
       (CreateLeaf PREONLY ASM_PRECOND fieldT solutionTypeT "Temperature")).

Definition FS2 : list FieldSplitTree := [] ++ [FS_NS] ++ [FS_T].
Definition FS_NST : FieldSplitTree :=
  CreateNode RICHARDSON FIELDSPLIT_PRECOND FS2 "Benard".
End Main.
End FieldSplit.

(** ** [Conformal/ex7]: the reductions of [GetKineandPointVlaue] *)

Module PointProbe.
Local Open Scope R_scope.

(** Modelled from the spec: [out_vec] has one entry per partition;
    after [set(iproc, x)] on every partition and [close()] it holds the
    values of all partitions, and [max()], [min()], [l1_norm()] are taken
    over all its entries. *)
Definition vec_max (v : list R) : R :=
  match v with [] => 0 | x :: v' => fold_left Rmax v' x end.
Definition vec_min (v : list R) : R :=
  match v with [] => 0 | x :: v' => fold_left Rmin v' x end.
Definition l1_norm (v : list R) : R := fold_left (fun acc x => acc + Rabs x) v 0.

(** [ptCoord1 = out_vec->max(); ptCoord2 = out_vec->min();
     if (fabs(ptCoord1) > 1.0e-6) pt = ptCoord1;
     if (fabs(ptCoord2) > 1.0e-6) pt = ptCoord2;] *)
Definition select (pt : R) (out_vec : list R) : R :=
  let ptCoord1 := vec_max out_vec in
  let ptCoord2 := vec_min out_vec in
  let pt := if Rgt_dec (Rabs ptCoord1) (1 / 1000000) then ptCoord1 else pt in
  if Rgt_dec (Rabs ptCoord2) (1 / 1000000) then ptCoord2 else pt.

(** What partition [iproc] returns, the element loop of every partition
    having left [kineticEnergy], [ptUCoord] and [ptVCoord] in the three
    lists (one entry per partition). *)
Definition GetKineandPointVlaue (kineticEnergy ptUCoord ptVCoord : list R) (iproc : nat)
  : R * list R :=
  (l1_norm kineticEnergy,
   [select (nth iproc ptUCoord 0) ptUCoord; select (nth iproc ptVCoord 0) ptVCoord]).
End PointProbe.

(** ** [2021_fall/shaflynn]: Poisson problem with Neumann boundary loops *)

Module Poisson.
Section Assembly.
Context {D : Type} `{Scalar D}.

(** *** What the assembly reads from the library *)

Record Mesh : Type := {
  GetDimension : nat;
  processor_id : nat;
  elementOffset : nat -> nat;
  GetElementDofNumber : nat -> nat -> nat;            (* (iel, type) *)
  GetSolutionDof : nat -> nat -> nat -> nat;          (* (i, iel, type) *)
  GetElementFaceNumber : nat -> nat;                  (* (iel) *)
  GetFaceElementIndex : nat -> nat -> Z;              (* el->GetFaceElementIndex(iel, jface) *)
  GetElementFaceDofNumber : nat -> nat -> nat -> nat; (* (iel, jface, type) *)
  GetLocalFaceVertexIndex : nat -> nat -> nat -> nat; (* (iel, jface, i) *)
  GetElementFaceType : nat -> nat -> nat              (* (iel, jface) *)
}.

(** [CurrentElem<double>]: the coordinates of the dofs of an element or of
    one of its faces, the centre of a face, the geometric type. *)
Record CurrentElem : Type := {
  coords_at_dofs_3d : nat -> nat -> list (list D);            (* (iel, xType) *)
  geom_type : nat -> nat;                                     (* (iel) *)
  coords_at_dofs_bdry_3d : nat -> nat -> nat -> list (list D);(* (iel, jface, xType) *)
  elem_center_bdry_3d : list (list D) -> list D
}.

(** The quadrature rules and the finite-element evaluations that
    [MultiLevelProblem] holds, by geometric type. *)
Record FiniteElements : Type := {
  GetGaussPointsNumber : nat -> nat;                          (* GetQuadratureRule(geom) *)
  GetGaussWeights : nat -> nat -> D;                          (* GetGaussWeightsPointer()[ig] *)
  (* elem_all[geom][type]->JacJacInv(coords, ig, Jac, JacI, detJac, space_dim):
     the outputs Jac, JacI, detJac *)
  JacJacInv : nat -> nat -> list (list D) -> nat -> list (list D) * list (list D) * D;
  (* elem_all[geom][type]->shape_funcs_current_elem(ig, JacI, phi, phi_x, none, space_dim):
     the outputs phi, phi_x *)
  shape_funcs_current_elem : nat -> nat -> nat -> list (list D) -> list D * list D
}.

(** The function [AttachSetBoundaryConditionFunction] registered:
    [(x, name, face_name, time)] gives [dirichlet] and [value]. *)
Definition BdcFunction : Type := list D -> string -> nat -> D -> bool * D.

(** [SetBoundaryCondition] of the application, for a mesh of dimension
    [mesh_dim]. *)
Definition SetBoundaryCondition (mesh_dim : nat) : BdcFunction :=
  fun x name face_name time =>
    let dirichlet := false in
    let value := s0 in
    if mesh_dim =? 2 then
      if face_name =? 1 then (true, s0)
      else if face_name =? 2 then (true, s0)
      else if face_name =? 3 then (true, s0)
      else (dirichlet, value)
    else (dirichlet, value).

Variable msh : Mesh.
Variable geom_element : CurrentElem.
Variable fe : FiniteElements.
Variable bdc : BdcFunction.            (* ml_sol->GetBdcFunctionMLProb() *)
Variable solname_u : string.
Variable solFEType_u : nat.

(** *** The Neumann loop in one dimension *)

Definition neumann_loop_1d (iel xType : nat) (Res : list D) : list D :=
  for_loop (GetElementFaceNumber msh iel) (fun jface Res =>
    let xx_face_elem_center :=
      elem_center_bdry_3d geom_element (coords_at_dofs_bdry_3d geom_element iel jface xType) in
    let boundary_index := GetFaceElementIndex msh iel jface in
    if (boundary_index <? 0)%Z then
      let face := Z.to_nat (- (boundary_index + 1)) in
      let is_dirichlet := fst (bdc xx_face_elem_center solname_u face s0) in
      let grad_u_dot_n := snd (bdc xx_face_elem_center solname_u face s0) in
      if negb is_dirichlet && sneb grad_u_dot_n s0 then
        let n_dofs_face := GetElementFaceDofNumber msh iel jface solFEType_u in
        for_loop n_dofs_face (fun i Res =>
          let i_vol := GetLocalFaceVertexIndex msh iel jface i in
          <[i_vol := (Res[@i_vol] + grad_u_dot_n)%cxx]> Res) Res
      else Res
    else Res) Res.

(** *** The Neumann loop in two and three dimensions *)

Definition neumann_loop_2d3d (iel solType_coords : nat) (Res : list D) : list D :=
  for_loop (GetElementFaceNumber msh iel) (fun jface Res =>
    let coords_bdry := coords_at_dofs_bdry_3d geom_element iel jface solType_coords in
    let ielGeom_bdry := GetElementFaceType msh iel jface in
    let xx_face_elem_center := elem_center_bdry_3d geom_element coords_bdry in
    let boundary_index := GetFaceElementIndex msh iel jface in
    if (boundary_index <? 0)%Z then
      let face := Z.to_nat (- (boundary_index + 1)) in
      let is_dirichlet := fst (bdc xx_face_elem_center solname_u face s0) in
      let grad_u_dot_n := snd (bdc xx_face_elem_center solname_u face s0) in
      if negb is_dirichlet then
        let n_gauss_bdry := GetGaussPointsNumber fe ielGeom_bdry in
        for_loop n_gauss_bdry (fun ig_bdry Res =>
          let JJ := JacJacInv fe ielGeom_bdry solType_coords coords_bdry ig_bdry in
          let JacI_iqp_bdry := snd (fst JJ) in
          let detJac_iqp_bdry := snd JJ in
          let weight_iqp_bdry :=
            (detJac_iqp_bdry * GetGaussWeights fe ielGeom_bdry ig_bdry)%cxx in
          let phi_u_bdry :=
            fst (shape_funcs_current_elem fe ielGeom_bdry solFEType_u ig_bdry JacI_iqp_bdry) in
          let n_dofs_face := GetElementFaceDofNumber msh iel jface solFEType_u in
          for_loop n_dofs_face (fun i_bdry Res =>
            let i_vol := GetLocalFaceVertexIndex msh iel jface i_bdry in
            <[i_vol := (Res[@i_vol] + weight_iqp_bdry * grad_u_dot_n * phi_u_bdry[@i_bdry])%cxx]>
              Res) Res) Res
      else Res
    else Res) Res.

(** *** The assembly pass [AssembleProblemDirNeu] *)

Variable sol_Sol : nat -> nat -> D.                        (* sol->_Sol[index] at dof *)
Variable GetIndex : string -> nat.                         (* ml_sol->GetIndex *)
Variable GetSolPdeIndex : string -> nat.                   (* mlPdeSys->GetSolPdeIndex *)
Variable GetSystemDof : nat -> nat -> nat -> nat -> nat.   (* pdeSys->GetSystemDof *)
Variable assembleMatrix : bool.                            (* mlPdeSys->GetAssembleMatrix() *)

Definition dim : nat := GetDimension msh.
Definition iproc : nat := processor_id msh.
Definition xType : nat := 2.                               (* BIQUADR_FE *)
Definition space_dim : nat := 3.
Definition solIndex_u : nat := GetIndex solname_u.
Definition solPdeIndex_u : nat := GetSolPdeIndex solname_u.

(** The local vectors, declared before the element loop. *)
Record ElemBuffers : Type := {
  sol_u : list D;
  l2GMap_u : list nat;
  l2GMap_AllVars : list nat;
  Res : list D;
  Jac : list D
}.

Definition initial_buffers : ElemBuffers :=
  {| sol_u := []; l2GMap_u := []; l2GMap_AllVars := []; Res := []; Jac := [] |}.

Section Element.
Variable iel : nat.

Definition ielGeom : nat := geom_type geom_element iel.
Definition nDof_u : nat := GetElementDofNumber msh iel solFEType_u.

(** One quadrature point of the volume integral, on [Res] and [Jac]. *)
Definition volume_point (sol_u : list D) (i_qp : nat) (RJ : list D * list D)
  : list D * list D :=
  let nDof_AllVars := nDof_u in
  let nDof_max := nDof_u in
  let JJ := JacJacInv fe ielGeom xType (coords_at_dofs_3d geom_element iel xType) i_qp in
  let JacI_qp := snd (fst JJ) in
  let detJac_qp := snd JJ in
  let jacXweight_qp := (detJac_qp * GetGaussWeights fe ielGeom i_qp)%cxx in
  let phi_u := fst (shape_funcs_current_elem fe ielGeom solFEType_u i_qp JacI_qp) in
  let phi_u_x := snd (shape_funcs_current_elem fe ielGeom solFEType_u i_qp JacI_qp) in
  let sol_u_x_gss :=
    for_loop nDof_u (fun i g =>
      vec_update_loop dflt space_dim (fun d x =>
        (x + sol_u[@i] * phi_u_x[@(i * space_dim + d)%nat])%cxx) g)
      (repeat s0 space_dim) in
  for_loop nDof_max (fun i RJ =>
    let laplace_res_du_u_i :=
      if i <? nDof_u then
        for_loop space_dim (fun kdim acc =>
          (acc + phi_u_x[@(i * space_dim + kdim)%nat] * sol_u_x_gss[@kdim])%cxx) s0
      else s0 in
    let Res :=
      if i <? nDof_u then
        <[i := ((fst RJ)[@i]
                + jacXweight_qp * (phi_u[@i] * sZ 100 - laplace_res_du_u_i))%cxx]> (fst RJ)
      else fst RJ in
    let Jac :=
      if assembleMatrix then
        for_loop nDof_max (fun j Jac =>
          let laplace_mat_du_u_i_j :=
            if (i <? nDof_u) && (j <? nDof_u) then
              for_loop space_dim (fun kdim acc =>
                (acc + phi_u_x[@(i * space_dim + kdim)%nat]
                       * phi_u_x[@(j * space_dim + kdim)%nat])%cxx) s0
            else s0 in
          if (i <? nDof_u) && (j <? nDof_u) then
            <[i * nDof_AllVars + j :=
                (Jac[@(i * nDof_AllVars + j)%nat] + jacXweight_qp * laplace_mat_du_u_i_j)%cxx]> Jac
          else Jac) (snd RJ)
      else snd RJ in
    (Res, Jac)) RJ.

(** The body of the element loop. *)
Definition assemble_element (st : ElemBuffers * (NumericVector D * SparseMatrix D))
  : ElemBuffers * (NumericVector D * SparseMatrix D) :=
  let b := fst st in
  let RES := fst (snd st) in
  let JAC := snd (snd st) in
  let sol_u0 := resize dflt nDof_u (sol_u b) in
  let l2GMap_u0 := resize dflt nDof_u (l2GMap_u b) in
  let sol_u1 := vec_update_loop dflt (length sol_u0) (fun i _ =>
    sol_Sol solIndex_u (GetSolutionDof msh i iel solFEType_u)) sol_u0 in
  let l2GMap_u1 := vec_update_loop dflt (length sol_u0) (fun i _ =>
    GetSystemDof solIndex_u solPdeIndex_u i iel) l2GMap_u0 in
  let nDof_AllVars := nDof_u in
  let Res0 := vfill s0 (resize dflt nDof_AllVars (Res b)) in
  let Jac0 := vfill s0 (resize dflt (nDof_AllVars * nDof_AllVars) (Jac b)) in
  let l2GMap_AllVars1 := resize dflt 0 (l2GMap_AllVars b) ++ l2GMap_u1 in
  let Res1 := if dim =? 1 then neumann_loop_1d iel xType Res0 else Res0 in
  let Res2 := if (dim =? 2) || (dim =? 3) then neumann_loop_2d3d iel xType Res1 else Res1 in
  let RJ := for_loop (GetGaussPointsNumber fe ielGeom) (volume_point sol_u1) (Res2, Jac0) in
  let RES' := add_vector_blocked (fst RJ) l2GMap_AllVars1 RES in
  let JAC' := if assembleMatrix
              then add_matrix_blocked (snd RJ) l2GMap_AllVars1 l2GMap_AllVars1 JAC
              else JAC in
  ({| sol_u := sol_u1; l2GMap_u := l2GMap_u1; l2GMap_AllVars := l2GMap_AllVars1;
      Res := fst RJ; Jac := snd RJ |}, (RES', JAC')).
End Element.

Definition owned_elements : list nat :=
  seq (elementOffset msh iproc) (elementOffset msh (iproc + 1) - elementOffset msh iproc).

(** [RES->zero(); if (assembleMatrix) JAC->zero();], the element loop,
    [RES->close(); if (assembleMatrix) JAC->close();]. *)
Definition AssembleProblemDirNeu (g : NumericVector D * SparseMatrix D)
  : NumericVector D * SparseMatrix D :=
  let RES := vec_zero in
  let JAC := if assembleMatrix then mat_zero else snd g in
  let st := fold_left (fun st iel => assemble_element iel st) owned_elements
                      (initial_buffers, (RES, JAC)) in
  (vec_close (fst (snd st)),
   if assembleMatrix then mat_close (snd (snd st)) else snd (snd st)).
End Assembly.
Arguments CurrentElem D : clear implicits.
Arguments FiniteElements D : clear implicits.
Arguments BdcFunction D : clear implicits.
Arguments ElemBuffers D : clear implicits.
End Poisson.

(** ** Families of runs *)

(** The assembly is compared across runs (with the recording on and paused,
    with two sizes of the temperature vectors, with one unknown varied): a
    family of runs is indexed by [T], and a property of the active values is
    a predicate [P] on families of active values.  What all runs share
    (shape functions, weights, old values) is a constant family. *)
Section Families.
Context {D : Type} `{Scalar D}.
Variable T : Type.

(** The [double] has the same value in all runs. *)
Definition CD {X : Type} (d : T -> X) : Prop := forall t t', d t = d t'.

Section FamilyOfVectors.
Context {A : Type}.
Variable Q : (T -> A) -> Prop.
Variable d : A.

(** An index below [n] is in range in all runs or in none. *)
Definition UR (n : nat) (l : T -> list A) : Prop :=
  forall i, i < n -> forall t t', i < length (l t) -> i < length (l t').

(** The first [n] entries of the vectors are related by [Q]. *)
Definition FL (n : nat) (l : T -> list A) : Prop :=
  UR n l /\ forall i, i < n -> Q (fun t => nth i (l t) d).
End FamilyOfVectors.

(** [P] does not tell apart families that are equal run by run, and holds
    of a [double] that is the same in all runs. *)
Class Respects (P : (T -> adouble D) -> Prop) : Prop := {
  P_ext : forall f g, (forall t, f t = g t) -> P f -> P g;
  P_const : forall d, CD d -> P (fun t => aconst (d t))
}.

(** [P] is kept by the operators of [adept::adouble], whatever the constant
    [double] operands. *)
Class Closed (rec : T -> bool) (P : (T -> adouble D) -> Prop) : Prop := {
  closed_respects :: Respects P;
  P_add : forall f g, P f -> P g -> P (fun t => aadd (rec t) (f t) (g t));
  P_sub : forall f g, P f -> P g -> P (fun t => asub (rec t) (f t) (g t));
  P_mul : forall f g, P f -> P g -> P (fun t => amul (rec t) (f t) (g t));
  P_neg : forall f, P f -> P (fun t => aneg (rec t) (f t));
  P_addD : forall f d, P f -> CD d -> P (fun t => aaddD (rec t) (f t) (d t));
  P_subD : forall f d, P f -> CD d -> P (fun t => asubD (rec t) (f t) (d t));
  P_mulD_l : forall d f, CD d -> P f -> P (fun t => amulD_l (rec t) (d t) (f t));
  P_mulD_r : forall f d, P f -> CD d -> P (fun t => amulD_r (rec t) (f t) (d t));
  P_divD : forall f d, P f -> CD d -> P (fun t => adivD (rec t) (f t) (d t))
}.

(** The local vectors of one element in a family of runs, as the quadrature
    loop finds and leaves them: the coordinates and the old values are
    shared, the unknowns and the residuals are related by [P]. *)
Record Related (msh : Mesh D) (mlSol : MultiLevelSolution) (iel : nat)
    (P : (T -> adouble D) -> Prop) (b : T -> ElemBuffers D) : Prop := {
  rel_coordX : CD (fun t => coordX (b t));
  rel_solT : FL P dflt (nDofsT msh mlSol iel) (fun t => solT (b t));
  rel_solV : FL (FL P dflt (nDofsV msh mlSol iel)) dflt (dim msh) (fun t => solV (b t));
  rel_solP : FL P dflt (nDofsP msh mlSol iel) (fun t => solP (b t));
  rel_solTold : FL CD dflt (nDofsT msh mlSol iel) (fun t => solTold (b t));
  rel_solVold : FL (FL CD dflt (nDofsV msh mlSol iel)) dflt (dim msh) (fun t => solVold (b t));
  rel_solPold : FL CD dflt (nDofsP msh mlSol iel) (fun t => solPold (b t));
  rel_aResT : FL P dflt (nDofsT msh mlSol iel) (fun t => aResT (b t));
  rel_aResV : FL (FL P dflt (nDofsV msh mlSol iel)) dflt (dim msh) (fun t => aResV (b t));
  rel_aResP : FL P dflt (nDofsP msh mlSol iel) (fun t => aResP (b t))
}.
End Families.

(** ** The layout of the local unknowns *)

Section Layout.
Context {D : Type} `{Scalar D}.
Variable msh : Mesh D.
Variable mlSol : MultiLevelSolution.
Variable mlPdeSys : PdeSystem D.
Variable iel : nat.

(** The locations of the unknowns of the element in field order: T, then
    each velocity component, then P. *)
Definition local_slots : list slot :=
  map SlotT (seq 0 (nDofsT msh mlSol iel))
  ++ flat_map (fun k => map (SlotV k) (seq 0 (nDofsV msh mlSol iel))) (seq 0 (dim msh))
  ++ map SlotP (seq 0 (nDofsP msh mlSol iel)).

(** The location at position [r] of that order. *)
Definition slot_of_index (r : nat) : slot :=
  if r <? nDofsT msh mlSol iel then SlotT r
  else if r <? nDofsT msh mlSol iel + dim msh * nDofsV msh mlSol iel
  then SlotV ((r - nDofsT msh mlSol iel) / nDofsV msh mlSol iel)
             ((r - nDofsT msh mlSol iel) mod nDofsV msh mlSol iel)
  else SlotP (r - nDofsT msh mlSol iel - dim msh * nDofsV msh mlSol iel).

(** The global dof of the system for a location. *)
Definition sysdof_of_slot (s : slot) : nat :=
  match s with
  | SlotT i => GetSystemDof mlPdeSys (solTIndex mlSol) (solTPdeIndex mlPdeSys) i iel
  | SlotV k i =>
      GetSystemDof mlPdeSys (solVIndex msh mlSol)[@k] (solVPdeIndex msh mlPdeSys)[@k] i iel
  | SlotP i => GetSystemDof mlPdeSys (solPIndex mlSol) (solPPdeIndex mlPdeSys) i iel
  end.

(** The residual and the unknown stored for a location. *)
Definition residual_at (b : ElemBuffers D) (s : slot) : adouble D :=
  match s with
  | SlotT i => (aResT b)[@i]
  | SlotV k i => (aResV b)[@k][@i]
  | SlotP i => (aResP b)[@i]
  end.
Definition unknown_at (b : ElemBuffers D) (s : slot) : adouble D :=
  match s with
  | SlotT i => (solT b)[@i]
  | SlotV k i => (solV b)[@k][@i]
  | SlotP i => (solP b)[@i]
  end.

(** The local vectors with the value [x] given to the unknown at [s]. *)
Definition with_value (x : D) (a : adouble D) : adouble D :=
  {| value := x; partials := partials a |}.
Definition set_unknown (s : slot) (x : D) (b : ElemBuffers D) : ElemBuffers D :=
  let solT' := match s with
               | SlotT i => <[i := with_value x (solT b)[@i]]> (solT b)
               | _ => solT b
               end in
  let solV' := match s with
               | SlotV k i => <[k := <[i := with_value x (solV b)[@k][@i]]> (solV b)[@k]]> (solV b)
               | _ => solV b
               end in
  let solP' := match s with
               | SlotP i => <[i := with_value x (solP b)[@i]]> (solP b)
               | _ => solP b
               end in
  {| solT := solT'; solV := solV'; solP := solP';
     solTold := solTold b; solVold := solVold b; solPold := solPold b;
     aResT := aResT b; aResV := aResV b; aResP := aResP b;
     coordX := coordX b; sysDof := sysDof b; Res := Res b; Jac := Jac b |}.

(** A location within the local vectors as they are sized. *)
Definition in_vectors (b : ElemBuffers D) (s : slot) : Prop :=
  match s with
  | SlotT i => i < length (solT b)
  | SlotV k i => k < length (solV b) /\ i < length (nth k (solV b) [])
  | SlotP i => i < length (solP b)
  end.

#[global] Instance in_vectors_dec (b : ElemBuffers D) (s : slot) : Decision (in_vectors b s).
Proof. destruct s; cbn [in_vectors]; apply _. Defined.

(** The locations of the unknowns of the element. *)
Definition local_slot (s : slot) : Prop :=
  match s with
  | SlotT i => i < nDofsT msh mlSol iel
  | SlotV k i => k < dim msh /\ i < nDofsV msh mlSol iel
  | SlotP i => i < nDofsP msh mlSol iel
  end.

(** The vectors of vectors have the [dim] rows they are declared with. *)
Definition wf_buffers (b : ElemBuffers D) : Prop :=
  length (solV b) = dim msh /\ length (solVold b) = dim msh
  /\ length (aResV b) = dim msh /\ length (coordX b) = dim msh.

(** The value of the solution that the element loads at a location. *)
Definition loaded_value (sol : Solution D) (s : slot) : D :=
  match s with
  | SlotT i => Sol sol (solTIndex mlSol) (GetSolutionDof msh i iel (solTType mlSol))
  | SlotV k i =>
      Sol sol (solVIndex msh mlSol)[@k] (GetSolutionDof msh i iel (solVType msh mlSol))
  | SlotP i => Sol sol (solPIndex mlSol) (GetSolutionDof msh i iel (solPType mlSol))
  end.

(** The recording as an element finds it: on, nothing declared. *)
Definition fresh_stack (rec : bool) : Stack D :=
  {| recording := rec; independents := []; dependents := [] |}.
End Layout.

(** The local vectors after the quadrature loop of element [iel], in the run
    [t] of a family of runs. *)
Definition after_gauss {D} `{Scalar D} (T : Type) (rec : T -> bool)
    (msh : Mesh D) (sol : Solution D) (mlSol : MultiLevelSolution) (mlPdeSys : PdeSystem D)
    (iel : nat) (sizeT : T -> nat -> nat -> nat) (b0 : T -> ElemBuffers D) (t : T)
    : ElemBuffers D :=
  gauss_loop msh mlSol mlPdeSys (rec t) iel
    (load_element msh sol mlSol mlPdeSys (sizeT t) (rec t) iel (b0 t)).

(** The system with the flag [_assembleMatrix] set to [b]. *)
Definition SetAssembleMatrix {D} (b : bool) (mlPdeSys : PdeSystem D) : PdeSystem D :=
  {| GetSolPdeIndex := GetSolPdeIndex mlPdeSys;
     GetAssembleMatrix := b;
     GetIntervalTime := GetIntervalTime mlPdeSys;
     GetSystemDof := GetSystemDof mlPdeSys |}.

(** ** Properties of families of active values *)

(** The active value has the same [double] value with the recording on
    ([true]) and paused ([false]). *)
Definition same_value {D} (f : bool -> adouble D) : Prop :=
  value (f true) = value (f false).

(** The active value has the same value and the same partial derivatives in
    the two runs. *)
Definition same_adouble {D} (f : bool -> adouble D) : Prop :=
  value (f true) = value (f false)
  /\ forall s, partials (f true) s = partials (f false) s.

(** ** What two passes keep related, element after element *)

(** The recording on in the first pass and paused in the second: the same
    global residual. *)
Definition same_residual_inv {D} `{Scalar D} (msh : Mesh D)
    (s1 s2 : ElemBuffers D * AsmState D) : Prop :=
  wf_buffers msh (fst s1) /\ wf_buffers msh (fst s2)
  /\ recording (stack (snd s1)) = true /\ recording (stack (snd s2)) = false
  /\ forall dof, RES (snd s1) dof = RES (snd s2) dof.

(** ** Sums and a small mesh for the examples *)

(** [f 0 + f 1 + ... + f (n - 1)], added in the order of a loop. *)
Fixpoint big_sum (n : nat) (f : nat -> R) : R :=
  match n with
  | 0 => 0%R
  | S k => (big_sum k f + f k)%R
  end.

(** The sum of the entries of a list. *)
Definition Rsum (l : list R) : R := fold_right Rplus 0%R l.

(** The families of the runs of one element in which one unknown takes every
    real value: the value of an active quantity is differentiable in that
    unknown, and the recording holds its derivative. *)
Definition derivative_recorded (v : slot) (f : R -> adouble R) : Prop :=
  forall x, derivable_pt_lim (fun y => value (f y)) x (partials (f x) v).

Module Tiny.
Local Open Scope string_scope.

(** One quadrilateral element in two dimensions with one dof for each field
    and one quadrature point of weight 1: the shape function is 1 and has a
    null gradient. *)
Definition msh : Mesh R :=
  {| GetDimension := 2;
     processor_id := 0;
     n_processors := 2;
     elementOffset := fun p => p;
     GetElementType := fun _ => 0;
     GetElementDofNumber := fun _ _ => 1;
     GetSolutionDof := fun i _ _ => i;
     GetGaussPointNumber := fun _ _ => 1;
     Jacobian := fun _ _ _ _ => (1%R, [1%R], [0%R; 0%R]);
     GetPhi := fun _ _ _ => [1%R];
     topology_Sol := fun _ _ => 0%R |}.

(** The null solution at the two time levels. *)
Definition sol : Solution R :=
  {| Sol := fun _ _ => 0%R; SolOld := fun _ _ => 0%R |}.

Definition mlSol : MultiLevelSolution :=
  {| GetIndex := FieldSplit.GetSolPdeIndex ["T"; "U"; "V"; "P"];
     GetSolutionType := fun _ => 2 |}.

(** The system of [main] in two dimensions, with time step 1; the dof of
    the only node of a field is the index of the field in the system. *)
Definition pde : PdeSystem R :=
  {| GetSolPdeIndex := FieldSplit.GetSolPdeIndex (FieldSplit.system 2);
     GetAssembleMatrix := true;
     GetIntervalTime := 1%R;
     GetSystemDof := fun _ pdeIndex _ _ => pdeIndex |}.

(** A global system that holds 1 everywhere when the pass starts. *)
Definition stale : AsmState R :=
  {| stack := fresh_stack false;
     RES := fun _ => 1%R;
     KK := fun _ _ => 1%R |}.

(** A global system that holds 0 everywhere, the recording on. *)
Definition clean : AsmState R :=
  {| stack := fresh_stack true;
     RES := vec_zero;
     KK := mat_zero |}.
End Tiny.

Module TinyPoisson.
Local Open Scope string_scope.

(** One element with one face on the boundary (face name 4), which has two
    dofs, the dofs 0 and 1 of the element. *)
Definition msh (mesh_dim : nat) : Poisson.Mesh :=
  {| Poisson.GetDimension := mesh_dim;
     Poisson.processor_id := 0;
     Poisson.elementOffset := fun p => p;
     Poisson.GetElementDofNumber := fun _ _ => 2;
     Poisson.GetSolutionDof := fun i _ _ => i;
     Poisson.GetElementFaceNumber := fun _ => 1;
     Poisson.GetFaceElementIndex := fun _ _ => (-5)%Z;
     Poisson.GetElementFaceDofNumber := fun _ _ _ => 2;
     Poisson.GetLocalFaceVertexIndex := fun _ _ i => i;
     Poisson.GetElementFaceType := fun _ _ => 0 |}.

Definition geom_element : Poisson.CurrentElem R :=
  {| Poisson.coords_at_dofs_3d := fun _ _ => [];
     Poisson.geom_type := fun _ => 0;
     Poisson.coords_at_dofs_bdry_3d := fun _ _ _ => [];
     Poisson.elem_center_bdry_3d := fun _ => [] |}.

(** One quadrature point of weight 1, determinant 1, shape functions 1. *)
Definition fe : Poisson.FiniteElements R :=
  {| Poisson.GetGaussPointsNumber := fun _ => 1;
     Poisson.GetGaussWeights := fun _ _ => 1%R;
     Poisson.JacJacInv := fun _ _ _ _ => ([], [], 1%R);
     Poisson.shape_funcs_current_elem := fun _ _ _ _ => ([1%R; 1%R], []) |}.

(** A boundary function with the Neumann datum 2 on every face. *)
Definition neumann_2 : Poisson.BdcFunction R := fun _ _ _ _ => (false, 2%R).
End TinyPoisson.
(** ** [Conformal/ex7]: the boundary conditions and the arguments of [main] *)

Section Ex7Boundary.
Local Open Scope R_scope.
Local Open Scope string_scope.

(** [SetBoundaryCondition]: [dirichlet] and [value] for the solution
    [SolName] on the face [facename] at [time]; the position [x] is not
    read. *)
Definition SetBoundaryCondition (x : list R) (SolName : string) (facename : Z) (time : R)
  : bool * R :=
  let dirichlet := true in
  let value := 0 in
  if String.eqb SolName "T" then
    if (facename =? 1)%Z then (dirichlet, 5 / 10 * (1 - exp (- 10 * time)))
    else if (facename =? 2)%Z then (dirichlet, - (5 / 10) * (1 - exp (- 10 * time)))
    else (false, value)
  else if String.eqb SolName "P" then (false, value)
  else (dirichlet, value).

(** [InitalValueT]: [sin(4.0 * x[0])]. *)
Definition InitalValueT (x : list R) : R := sin (4 * nth 0 x 0).
End Ex7Boundary.

(** [enum PrecType], with the values the compiler gives it. *)
Inductive PrecType : Type := FS_VTp | FS_TVp | ASM_VTp | ASM_TVp | ILU_VTp | ILU_TVp.

Definition PrecType_value (p : PrecType) : nat :=
  match p with
  | FS_VTp => 1 | FS_TVp => 2 | ASM_VTp => 3 | ASM_TVp => 4 | ILU_VTp => 5 | ILU_TVp => 6
  end.

(** The name that [main] compares its first argument with. *)
Definition PrecType_name (p : PrecType) : string :=
  match p with
  | FS_VTp => "FS_VT" | FS_TVp => "FS_TV" | ASM_VTp => "ASM_VT" | ASM_TVp => "ASM_TV"
  | ILU_VTp => "ILU_VT" | ILU_TVp => "ILU_TV"
  end.

(** The first lines of [main]: [precType] from the arguments ([args[0]] is
    the name of the program), [None] where [main] calls [abort()]. *)
Definition main_precType (args : list string) : option nat :=
  let precType := 0 in
  if 2 <=? length args then
    let a := nth 1 args EmptyString in
    let precType :=
      if String.eqb "FS_VT" a then PrecType_value FS_VTp
      else if String.eqb "FS_TV" a then PrecType_value FS_TVp
      else if String.eqb "ASM_VT" a then PrecType_value ASM_VTp
      else if String.eqb "ASM_TV" a then PrecType_value ASM_TVp
      else if String.eqb "ILU_VT" a then PrecType_value ILU_VTp
      else if String.eqb "ILU_TV" a then PrecType_value ILU_TVp
      else precType in
    if precType =? 0 then None else Some precType
  else Some (PrecType_value FS_VTp).

(** ** [Conformal/ex7]: the element loop of [GetKineandPointVlaue] *)

Module ProbeLoop.
Section Loop.
Local Open Scope R_scope.
Variable msh : Mesh R.
Variable sol : Solution R.
Variable mlSol : MultiLevelSolution.

(** The local variables that the element loop changes. *)
Record Locals : Type := {
  solV : list (list R);
  coordX : list (list R);
  kineticEnergy : R;
  recordCoord : nat;
  ptUCoord : R;
  ptVCoord : R
}.

(** [solV(dim)], [coordX(dim)], [kineticEnergy = 0.0], [recordCoord = 0],
    [ptUCoord = 0.0], [ptVCoord = 0.0]. *)
Definition initial : Locals :=
  {| solV := repeat [] (dim msh); coordX := repeat [] (dim msh);
     kineticEnergy := 0; recordCoord := 0; ptUCoord := 0; ptVCoord := 0 |}.

(** [fabs(coordX[0][i] + 1.875) < 1.0e-6 && fabs(coordX[1][i] + 0.375) < 1.0e-6] *)
Definition at_probe (x y : R) : bool :=
  (if Rlt_dec (Rabs (x + 1875 / 1000)) (1 / 1000000) then true else false)
  && (if Rlt_dec (Rabs (y + 375 / 1000)) (1 / 1000000) then true else false).

Section Element.
Variable iel : nat.

Definition nDofsV : nat := GetElementDofNumber msh iel (solVType msh mlSol).
Definition nDofsX : nat := GetElementDofNumber msh iel coordXType.

(** The velocity and the coordinates of the nodes of the element. *)
Definition load_solV (v : list (list R)) : list (list R) :=
  let v := vec_update_loop dflt (dim msh) (fun _ row => resize dflt nDofsV row) v in
  vec_update_loop dflt (dim msh) (fun k row =>
    vec_update_loop dflt nDofsV (fun i _ =>
      Sol sol (solVIndex msh mlSol)[@k] (GetSolutionDof msh i iel (solVType msh mlSol))) row) v.
Definition load_coordX (v : list (list R)) : list (list R) :=
  let v := vec_update_loop dflt (dim msh) (fun _ row => resize dflt nDofsX row) v in
  vec_update_loop dflt (dim msh) (fun k row =>
    vec_update_loop dflt nDofsX (fun i _ =>
      topology_Sol msh k (GetSolutionDof msh i iel coordXType)) row) v.

(** The scan of the nodes for the probed point, on
    [(recordCoord, ptUCoord, ptVCoord)]. *)
Definition scan (solV coordX : list (list R)) (r : nat * R * R) : nat * R * R :=
  if fst (fst r) =? 0 then
    for_loop nDofsX (fun i r =>
      if at_probe coordX[@0][@i] coordX[@1][@i]
      then (1%nat, solV[@0][@i], solV[@1][@i])
      else r) r
  else r.

(** The velocity at the quadrature point [ig] and the weight.
    ([gradSolV_gss] is computed there too, and not read.) *)
Definition solV_gss (solV coordX : list (list R)) (ig : nat) : list R :=
  let phiV := snd (fst (Jacobian msh (GetElementType msh iel) (solVType msh mlSol) coordX ig)) in
  for_loop nDofsV (fun i g =>
    vec_update_loop dflt (dim msh) (fun k x => x + phiV[@i] * solV[@k][@i]) g)
    (repeat 0 (dim msh)).
Definition weight (coordX : list (list R)) (ig : nat) : R :=
  fst (fst (Jacobian msh (GetElementType msh iel) (solVType msh mlSol) coordX ig)).

(** The quadrature loop on [kineticEnergy]. *)
Definition gauss_loop (solV coordX : list (list R)) (kineticEnergy : R) : R :=
  for_loop (GetGaussPointNumber msh (GetElementType msh iel) (solVType msh mlSol))
    (fun ig kineticEnergy =>
       for_loop (dim msh) (fun k kineticEnergy =>
         kineticEnergy
         + (solV_gss solV coordX ig)[@k] * (solV_gss solV coordX ig)[@k] * weight coordX ig)
         kineticEnergy)
    kineticEnergy.

(** The body of the element loop. *)
Definition element (s : Locals) : Locals :=
  let solV1 := load_solV (solV s) in
  let coordX1 := load_coordX (coordX s) in
  let r := scan solV1 coordX1 (recordCoord s, ptUCoord s, ptVCoord s) in
  {| solV := solV1; coordX := coordX1;
     kineticEnergy := gauss_loop solV1 coordX1 (kineticEnergy s);
     recordCoord := fst (fst r); ptUCoord := snd (fst r); ptVCoord := snd r |}.
End Element.

(** The element loop of the partition. *)
Definition element_loop : Locals :=
  fold_left (fun s iel => element iel s) (owned_elements msh) initial.
End Loop.

(** [GetKineandPointVlaue] on the partition [iproc], the partitions being
    given by their meshes and solutions: the element loop of each, then the
    reductions. *)
Definition GetKineandPointVlaue (parts : list (Mesh R * Solution R))
    (mlSol : MultiLevelSolution) (iproc : nat) : R * list R :=
  PointProbe.GetKineandPointVlaue
    (map (fun p => kineticEnergy (element_loop (fst p) (snd p) mlSol)) parts)
    (map (fun p => ptUCoord (element_loop (fst p) (snd p) mlSol)) parts)
    (map (fun p => ptVCoord (element_loop (fst p) (snd p) mlSol)) parts)
    iproc.
End ProbeLoop.

(** * Properties *)

(** ** Vectors and loops *)

Section VectorFacts.
Context {A : Type}.

Lemma length_resize (d : A) n v : length (resize d n v) = n.
Proof.
  unfold resize. rewrite length_app, length_firstn, repeat_length. lia.
Qed.

Lemma nth_resize (d : A) n v i : i < n -> nth i (resize d n v) d = nth i v d.
Proof.
  intros Hi. unfold resize.
  destruct (Nat.lt_ge_cases i (length v)) as [Hl | Hl].
  - rewrite app_nth1 by (rewrite length_firstn; lia).
    now rewrite nth_firstn, (proj2 (Nat.ltb_lt _ _) Hi).
  - rewrite app_nth2 by (rewrite length_firstn; lia).
    rewrite nth_repeat. symmetry. now apply nth_overflow.
Qed.

Lemma for_loop_0 {S} (body : nat -> S -> S) s : for_loop 0 body s = s.
Proof. reflexivity. Qed.

Lemma for_loop_S {S} n (body : nat -> S -> S) s :
  for_loop (Datatypes.S n) body s = body n (for_loop n body s).
Proof. unfold for_loop. now rewrite seq_S, fold_left_app. Qed.

(** Loop invariants: a property kept by every iteration holds at the end. *)
Lemma for_loop_ind {S} (I : S -> Prop) n (body : nat -> S -> S) s :
  I s -> (forall i x, i < n -> I x -> I (body i x)) -> I (for_loop n body s).
Proof.
  intros H0 Hstep. induction n as [|n IH].
  - exact H0.
  - rewrite for_loop_S. apply Hstep; [lia|]. apply IH. intros; apply Hstep; auto.
Qed.

Lemma nth_insert (d : A) (v : list A) i j x :
  nth i (<[j := x]> v) d = if decide (i = j /\ j < length v) then x else nth i v d.
Proof.
  rewrite !nth_lookup. destruct (decide (i = j /\ j < length v)) as [[-> Hj] | Hn].
  - now rewrite list_lookup_insert_eq.
  - destruct (decide (i = j)) as [-> | Hij].
    + rewrite list_insert_ge by lia. reflexivity.
    + now rewrite list_lookup_insert_ne.
Qed.

Lemma length_vec_update_loop (d : A) n g v : length (vec_update_loop d n g v) = length v.
Proof.
  unfold vec_update_loop. apply for_loop_ind; [reflexivity|].
  intros i x _ Hx. now rewrite length_insert.
Qed.

Lemma nth_vec_update_loop (d : A) n g v i :
  nth i (vec_update_loop d n g v) d
  = if decide (i < n /\ i < length v) then g i (nth i v d) else nth i v d.
Proof.
  unfold vec_update_loop. induction n as [|n IH].
  - rewrite for_loop_0. destruct (decide _) as [[? ?]|]; [lia | reflexivity].
  - rewrite for_loop_S, nth_insert.
    fold (vec_update_loop d n g v). rewrite length_vec_update_loop.
    unfold vec_update_loop.
    destruct (decide (i = n /\ n < length v)) as [[-> Hn] | Hn].
    + rewrite IH. repeat destruct (decide _); try reflexivity; lia.
    + rewrite IH. repeat destruct (decide _); try reflexivity; lia.
Qed.
End VectorFacts.

(** ** Families of vectors *)

Section FamilyFacts.
Variable T : Type.
Variable t0 : T.

(** A property of families that holds before a loop and is kept by each
    iteration holds after it. *)
Lemma for_loop_fam {S} (I : (T -> S) -> Prop) n (body : T -> nat -> S -> S) (s : T -> S) :
  (forall f g, (forall t, f t = g t) -> I f -> I g) ->
  I s ->
  (forall i x, i < n -> I x -> I (fun t => body t i (x t))) ->
  I (fun t => for_loop n (body t) (s t)).
Proof.
  intros Hext H0 Hstep. induction n as [|n IH].
  - exact H0.
  - apply Hext with (f := fun t => body t n (for_loop n (body t) (s t))).
    + intros t. now rewrite for_loop_S.
    + apply Hstep; [lia|]. apply IH. intros; apply Hstep; auto.
Qed.

Lemma CD_ext {X} (f g : T -> X) : (forall t, f t = g t) -> CD T f -> CD T g.
Proof. intros E Hf t t'. rewrite <- !E. apply Hf. Qed.

Lemma CD_const {X} (x : X) : CD T (fun _ => x).
Proof. intros t t'. reflexivity. Qed.

Lemma CD_app {X Y} (f : T -> X -> Y) (x : T -> X) :
  CD T f -> CD T x -> CD T (fun t => f t (x t)).
Proof. intros Hf Hx t t'. now rewrite (Hf t t'), (Hx t t'). Qed.

Section FL.
Context {A : Type}.
Variable Q : (T -> A) -> Prop.
Variable d : A.
Hypothesis Q_ext : forall f g, (forall t, f t = g t) -> Q f -> Q g.
Hypothesis Q_d : Q (fun _ => d).

Lemma FL_ext n (l l' : T -> list A) :
  (forall t, l t = l' t) -> FL T Q d n l -> FL T Q d n l'.
Proof.
  intros E [Hu Hq]. split.
  - intros i Hi t t'. rewrite <- !E. now apply Hu.
  - intros i Hi. apply Q_ext with (f := fun t => nth i (l t) d); [|now apply Hq].
    intros t. now rewrite E.
Qed.

Lemma FL_nil n : FL T Q d n (fun _ => []).
Proof.
  split.
  - intros i _ t t' Hl. exact Hl.
  - intros i _. apply Q_ext with (f := fun _ => d); [|exact Q_d].
    intros _. now destruct i.
Qed.

Lemma FL_mono n m l : m <= n -> FL T Q d n l -> FL T Q d m l.
Proof.
  intros Hm [Hu Hq]. split.
  - intros i Hi. apply Hu. lia.
  - intros i Hi. apply Hq. lia.
Qed.

(** In all runs or in none. *)
Lemma UR_cases n (l : T -> list A) i :
  UR T n l -> i < n -> (forall t, i < length (l t)) \/ (forall t, length (l t) <= i).
Proof.
  intros Hu Hi. destruct (Nat.lt_ge_cases i (length (l t0))) as [Hl | Hl].
  - left. intros t. now apply (Hu i Hi t0 t).
  - right. intros t. destruct (Nat.lt_ge_cases i (length (l t))) as [Hl' | Hl']; [|exact Hl'].
    pose proof (Hu i Hi t t0 Hl'). lia.
Qed.

Lemma FL_insert n (l : T -> list A) j (x : T -> A) :
  FL T Q d n l -> j < n -> Q x -> FL T Q d n (fun t => <[j := x t]> (l t)).
Proof.
  intros [Hu Hq] Hj Hx. split.
  - intros i Hi t t'. rewrite !length_insert. now apply Hu.
  - intros i Hi. destruct (Nat.eq_dec i j) as [-> | Hij].
    + destruct (UR_cases n l j Hu Hj) as [Hin | Hout].
      * apply Q_ext with (f := x); [|exact Hx].
        intros t. rewrite nth_insert. destruct (decide _) as [_ | Hn]; [reflexivity|].
        exfalso. apply Hn. split; [reflexivity | apply Hin].
      * apply Q_ext with (f := fun t => nth j (l t) d); [|now apply Hq].
        intros t. rewrite nth_insert. destruct (decide _) as [[_ Hn] | _]; [|reflexivity].
        pose proof (Hout t). lia.
    + apply Q_ext with (f := fun t => nth i (l t) d); [|now apply Hq].
      intros t. rewrite nth_insert. destruct (decide _) as [[Hn _] | _]; [|reflexivity].
      contradiction.
Qed.

Lemma FL_vec_update_loop n m (l : T -> list A) (g : T -> nat -> A -> A) :
  FL T Q d n l -> m <= n ->
  (forall i x, i < m -> Q x -> Q (fun t => g t i (x t))) ->
  FL T Q d n (fun t => vec_update_loop d m (g t) (l t)).
Proof.
  intros [Hu Hq] Hm Hg. split.
  - intros i Hi t t'. rewrite !length_vec_update_loop. now apply Hu.
  - intros i Hi. destruct (Nat.lt_ge_cases i m) as [Him | Him].
    + destruct (UR_cases n l i Hu Hi) as [Hin | Hout].
      * apply Q_ext with (f := fun t => g t i (nth i (l t) d)); [|apply Hg; auto].
        intros t. rewrite nth_vec_update_loop. destruct (decide _) as [_ | Hn]; [reflexivity|].
        exfalso. apply Hn. split; [exact Him | apply Hin].
      * apply Q_ext with (f := fun t => nth i (l t) d); [|now apply Hq].
        intros t. rewrite nth_vec_update_loop. destruct (decide _) as [[_ Hn] | _]; [|reflexivity].
        pose proof (Hout t). lia.
    + apply Q_ext with (f := fun t => nth i (l t) d); [|now apply Hq].
      intros t. rewrite nth_vec_update_loop. destruct (decide _) as [[Hn _] | _]; [|reflexivity].
      lia.
Qed.

Lemma FL_repeat n (x : T -> A) : Q x -> FL T Q d n (fun t => repeat (x t) n).
Proof.
  intros Hx. split.
  - intros i Hi t t'. now rewrite !repeat_length.
  - intros i Hi. apply Q_ext with (f := x); [|exact Hx].
    intros t. rewrite nth_repeat_lt by exact Hi. reflexivity.
Qed.

Lemma FL_nth n l i : FL T Q d n l -> i < n -> Q (fun t => nth i (l t) d).
Proof. intros [_ Hq] Hi. now apply Hq. Qed.
End FL.
End FamilyFacts.

(** ** The quadrature loop in a family of runs *)

Section ScalarFamilies.
Context {D : Type} `{Scalar D}.
Variable T : Type.

Lemma CD_sadd (f g : T -> D) : CD T f -> CD T g -> CD T (fun t => sadd (f t) (g t)).
Proof. intros Hf Hg t t'. now rewrite (Hf t t'), (Hg t t'). Qed.
Lemma CD_ssub (f g : T -> D) : CD T f -> CD T g -> CD T (fun t => ssub (f t) (g t)).
Proof. intros Hf Hg t t'. now rewrite (Hf t t'), (Hg t t'). Qed.
Lemma CD_smul (f g : T -> D) : CD T f -> CD T g -> CD T (fun t => smul (f t) (g t)).
Proof. intros Hf Hg t t'. now rewrite (Hf t t'), (Hg t t'). Qed.
Lemma CD_sdiv (f g : T -> D) : CD T f -> CD T g -> CD T (fun t => sdiv (f t) (g t)).
Proof. intros Hf Hg t t'. now rewrite (Hf t t'), (Hg t t'). Qed.
Lemma CD_sneg (f : T -> D) : CD T f -> CD T (fun t => sneg (f t)).
Proof. intros Hf t t'. now rewrite (Hf t t'). Qed.
Lemma CD_nth {X} (l : T -> list X) i (d : X) : CD T l -> CD T (fun t => nth i (l t) d).
Proof. intros Hl t t'. now rewrite (Hl t t'). Qed.

Lemma FL_nth2 {A} (Q : (T -> A) -> Prop) (d : A) m n (ll : T -> list (list A)) k i :
  FL T (FL T Q d n) [] m ll -> k < m -> i < n ->
  Q (fun t => nth i (nth k (ll t) []) d).
Proof. intros [_ Hq] Hk Hi. destruct (Hq k Hk) as [_ Hq']. now apply Hq'. Qed.
End ScalarFamilies.

(** The operators as the assembly writes them, unfolded to those of
    [Scalar] and of [adept::adouble]. *)
Ltac unfold_ops :=
  cbv [hadd hsub hmul hdiv hneg add_DD sub_DD mul_DD div_DD neg_D
       add_AA sub_AA mul_AA neg_A add_AD sub_AD mul_DA mul_AD div_AD] in *.

Section KernelFamily.
Context {D : Type} `{Scalar D}.
Variable T : Type.
Variable t0 : T.
Variable rec : T -> bool.
Variable P : (T -> adouble D) -> Prop.
Context {HP : Closed T rec P}.
Variable msh : Mesh D.
Variable mlSol : MultiLevelSolution.
Variable mlPdeSys : PdeSystem D.
Variable iel : nat.
Variable b : T -> ElemBuffers D.
Hypothesis Hb : Related T msh mlSol iel P b.
Variable ig : nat.

Lemma P_dflt : P (fun _ => dflt).
Proof. apply (P_const T (fun _ => s0)). apply CD_const. Qed.

Lemma phiT_fam : CD T (fun t => phiT msh mlSol iel (b t) ig).
Proof. intros t t'. unfold phiT. now rewrite (rel_coordX _ _ _ _ _ _ Hb t t'). Qed.
Lemma phiT_x_fam : CD T (fun t => phiT_x msh mlSol iel (b t) ig).
Proof. intros t t'. unfold phiT_x. now rewrite (rel_coordX _ _ _ _ _ _ Hb t t'). Qed.
Lemma phiV_fam : CD T (fun t => phiV msh mlSol iel (b t) ig).
Proof. intros t t'. unfold phiV. now rewrite (rel_coordX _ _ _ _ _ _ Hb t t'). Qed.
Lemma phiV_x_fam : CD T (fun t => phiV_x msh mlSol iel (b t) ig).
Proof. intros t t'. unfold phiV_x. now rewrite (rel_coordX _ _ _ _ _ _ Hb t t'). Qed.
Lemma weight_fam : CD T (fun t => weight msh mlSol iel (b t) ig).
Proof. intros t t'. unfold weight. now rewrite (rel_coordX _ _ _ _ _ _ Hb t t'). Qed.

Lemma phiP_fam : CD T (fun t : T => phiP msh mlSol iel ig).
Proof. apply CD_const. Qed.

Lemma xP f g : (forall t, f t = g t) -> P f -> P g.
Proof. exact (P_ext T f g). Qed.
Lemma xPconst d : CD T d -> P (fun t => aconst (d t)).
Proof. exact (P_const T d). Qed.
Lemma xFLP n l l' : (forall t, l t = l' t) -> FL T P dflt n l -> FL T P dflt n l'.
Proof. apply FL_ext, xP. Qed.
Lemma xFLCD n (l l' : T -> list D) :
  (forall t, l t = l' t) -> FL T (CD T) dflt n l -> FL T (CD T) dflt n l'.
Proof. apply FL_ext, CD_ext. Qed.
Lemma xFLFLP m n l l' :
  (forall t, l t = l' t) -> FL T (FL T P dflt n) dflt m l -> FL T (FL T P dflt n) dflt m l'.
Proof. apply FL_ext, xFLP. Qed.
Lemma xFLFLCD m n (l l' : T -> list (list D)) :
  (forall t, l t = l' t) ->
  FL T (FL T (CD T) dflt n) dflt m l -> FL T (FL T (CD T) dflt n) dflt m l'.
Proof. apply FL_ext, xFLCD. Qed.
Lemma nilFLP n : FL T P dflt n (fun _ => dflt).
Proof. apply FL_nil; [apply xP | apply P_dflt]. Qed.
Lemma nilFLCD n : FL T (CD T) dflt n (fun _ => (dflt : list D)).
Proof. apply FL_nil; [apply CD_ext | apply CD_const]. Qed.

(** One step of a proof that an expression of the assembly is related in
    all runs: by the operator at its head, by the vector it is read from,
    or because it is the same in all runs. *)
Ltac fam_step :=
  first
    [ assumption
    | apply CD_const
    | apply CD_sadd | apply CD_ssub | apply CD_smul | apply CD_sdiv | apply CD_sneg
    | apply P_add | apply P_sub | apply P_mul | apply P_neg
    | apply P_addD | apply P_subD | apply P_mulD_l | apply P_mulD_r | apply P_divD
    | apply xPconst
    | apply CD_nth; assumption
    | eapply FL_nth2; [eassumption | assumption || lia | assumption || lia]
    | eapply FL_nth; [eassumption | assumption || lia] ].
Ltac fam := unfold_ops; repeat fam_step.

(** The loops over a vector of active values, of [double]s, and over
    vectors of vectors of them. *)
Ltac loop_P := apply for_loop_fam; [apply xP | | intros ? ? ? ?].
Ltac loop_CD := apply for_loop_fam; [apply CD_ext | | intros ? ? ? ?].
Ltac loop_FL :=
  apply for_loop_fam;
  [ first [ apply xFLP | apply xFLCD | apply xFLFLP | apply xFLFLCD ]
  | | intros ? ? ? ? ].
Ltac update_P :=
  apply (FL_vec_update_loop T t0 P dflt xP); [ assumption | lia | intros ? ? ? ? ].
Ltac update_CD :=
  apply (FL_vec_update_loop T t0 (CD T) dflt (@CD_ext T D));
  [ assumption | lia | intros ? ? ? ? ].
Ltac update_FL_P :=
  apply (FL_vec_update_loop T t0 (FL T P dflt _) dflt (xFLP _));
  [ assumption | lia | intros ? ? ? ? ].
Ltac update_FL_CD :=
  apply (FL_vec_update_loop T t0 (FL T (CD T) dflt _) dflt (xFLCD _));
  [ assumption | lia | intros ? ? ? ? ].
Ltac insert_P :=
  apply (FL_insert T t0 P dflt xP); [ assumption | assumption || lia | ].
Ltac insert_CD :=
  apply (FL_insert T t0 (CD T) dflt (@CD_ext T D)); [ assumption | assumption || lia | ].
Ltac repeat_P := apply (FL_repeat T P dflt xP); apply (xPconst (fun _ => s0)), CD_const.
Ltac repeat_CD := apply (FL_repeat T (CD T) dflt (@CD_ext T D)); apply CD_const.

Lemma solT_gss_fam : P (fun t => solT_gss msh mlSol (rec t) iel (b t) ig).
Proof.
  destruct Hb. pose proof phiT_fam.
  unfold solT_gss. loop_P; fam.
Qed.

Lemma solTold_gss_fam : CD T (fun t => solTold_gss msh mlSol iel (b t) ig).
Proof.
  destruct Hb. pose proof phiT_fam.
  unfold solTold_gss. loop_CD; fam.
Qed.

Lemma gradSolT_gss_fam :
  FL T P dflt (dim msh) (fun t => gradSolT_gss msh mlSol (rec t) iel (b t) ig).
Proof.
  destruct Hb. pose proof phiT_x_fam.
  unfold gradSolT_gss. loop_FL; [repeat_P|]. update_P. fam.
Qed.

Lemma gradSolTold_gss_fam :
  FL T (CD T) dflt (dim msh) (fun t => gradSolTold_gss msh mlSol iel (b t) ig).
Proof.
  destruct Hb. pose proof phiT_x_fam.
  unfold gradSolTold_gss. loop_FL; [repeat_CD|]. update_CD. fam.
Qed.

Lemma solV_gss_fam :
  FL T P dflt (dim msh) (fun t => solV_gss msh mlSol (rec t) iel (b t) ig).
Proof.
  destruct Hb. pose proof phiV_fam.
  unfold solV_gss. loop_FL; [repeat_P|]. update_P. fam.
Qed.

Lemma solVold_gss_fam :
  FL T (CD T) dflt (dim msh) (fun t => solVold_gss msh mlSol iel (b t) ig).
Proof.
  destruct Hb. pose proof phiV_fam.
  unfold solVold_gss. loop_FL; [repeat_CD|]. update_CD. fam.
Qed.

Lemma gradSolV_gss_fam :
  FL T (FL T P dflt (dim msh)) dflt (dim msh)
     (fun t => gradSolV_gss msh mlSol (rec t) iel (b t) ig).
Proof.
  destruct Hb. pose proof phiV_x_fam.
  unfold gradSolV_gss. loop_FL.
  - apply (FL_repeat T _ dflt (xFLP _)). repeat_P.
  - loop_FL; [assumption|]. update_FL_P. insert_P. fam.
Qed.

Lemma gradSolVold_gss_fam :
  FL T (FL T (CD T) dflt (dim msh)) dflt (dim msh)
     (fun t => gradSolVold_gss msh mlSol iel (b t) ig).
Proof.
  destruct Hb. pose proof phiV_x_fam.
  unfold gradSolVold_gss. loop_FL.
  - apply (FL_repeat T _ dflt (xFLCD _)). repeat_CD.
  - loop_FL; [assumption|]. update_FL_CD. insert_CD. fam.
Qed.

Lemma solP_gss_fam : P (fun t => solP_gss msh mlSol (rec t) iel (b t) ig).
Proof.
  destruct Hb. pose proof phiP_fam.
  unfold solP_gss. loop_P; fam.
Qed.

Lemma solPold_gss_fam : CD T (fun t => solPold_gss msh mlSol iel (b t) ig).
Proof.
  destruct Hb. pose proof phiP_fam.
  unfold solPold_gss. loop_CD; fam.
Qed.
(** What is known of the element at the quadrature point. *)
Ltac at_gauss_point :=
  pose proof phiT_fam; pose proof phiT_x_fam; pose proof phiV_fam; pose proof phiV_x_fam;
  pose proof weight_fam; pose proof phiP_fam;
  pose proof solT_gss_fam; pose proof solTold_gss_fam;
  pose proof gradSolT_gss_fam; pose proof gradSolTold_gss_fam;
  pose proof solV_gss_fam; pose proof solVold_gss_fam;
  pose proof gradSolV_gss_fam; pose proof gradSolVold_gss_fam;
  pose proof solP_gss_fam; pose proof solPold_gss_fam;
  destruct Hb.

Lemma Temp_fam i : P (fun t => Temp msh mlSol (rec t) iel (b t) ig i).
Proof. at_gauss_point. unfold Temp. loop_P; fam. Qed.

Lemma TempOld_fam i : P (fun t => TempOld msh mlSol (rec t) iel (b t) ig i).
Proof. at_gauss_point. unfold TempOld. loop_P; fam. Qed.

Lemma aResT_gauss_fam (r : T -> list (adouble D)) :
  FL T P dflt (nDofsT msh mlSol iel) r ->
  FL T P dflt (nDofsT msh mlSol iel)
     (fun t => aResT_gauss msh mlSol mlPdeSys (rec t) iel (b t) ig (r t)).
Proof.
  intros Hr. at_gauss_point.
  unfold aResT_gauss. update_P.
  pose proof (Temp_fam i). pose proof (TempOld_fam i). fam.
Qed.

Lemma NSV_jk_fam i :
  FL T P dflt (dim msh) (fun t => NSV_jk msh mlSol (rec t) iel (b t) ig i).
Proof. at_gauss_point. unfold NSV_jk. loop_FL; [repeat_P|]. update_P. fam. Qed.

Lemma NSV_p_fam i :
  FL T P dflt (dim msh) (fun t => NSV_p msh mlSol (rec t) iel (b t) ig i).
Proof.
  pose proof (NSV_jk_fam i). at_gauss_point. unfold NSV_p. update_P. fam.
Qed.

Lemma length_NSV_p (rc : bool) (bb : ElemBuffers D) i :
  length (NSV_p msh mlSol rc iel bb ig i) = dim msh.
Proof.
  unfold NSV_p, NSV_jk. rewrite length_vec_update_loop.
  apply for_loop_ind; [apply repeat_length|].
  intros j x _ Hx. now rewrite length_vec_update_loop.
Qed.

Lemma NSV_fam i : FL T P dflt (dim msh) (fun t => NSV msh mlSol (rec t) iel (b t) ig i).
Proof.
  pose proof (NSV_p_fam i) as HN. at_gauss_point. unfold NSV.
  destruct (Nat.lt_ge_cases 1 (dim msh)) as [Hd | Hd].
  - insert_P. fam.
  - eapply xFLP; [|exact HN]. intros t. cbv beta.
    rewrite list_insert_ge; [reflexivity|]. rewrite length_NSV_p. lia.
Qed.

Lemma NSVold_jk_fam i :
  FL T (CD T) dflt (dim msh) (fun t => NSVold_jk msh mlSol iel (b t) ig i).
Proof. at_gauss_point. unfold NSVold_jk. loop_FL; [repeat_CD|]. update_CD. fam. Qed.

Lemma NSVold_p_fam i :
  FL T (CD T) dflt (dim msh) (fun t => NSVold_p msh mlSol iel (b t) ig i).
Proof.
  pose proof (NSVold_jk_fam i). at_gauss_point. unfold NSVold_p. update_CD. fam.
Qed.

Lemma length_NSVold_p (bb : ElemBuffers D) i :
  length (NSVold_p msh mlSol iel bb ig i) = dim msh.
Proof.
  unfold NSVold_p, NSVold_jk. rewrite length_vec_update_loop.
  apply for_loop_ind; [apply repeat_length|].
  intros j x _ Hx. now rewrite length_vec_update_loop.
Qed.

Lemma NSVold_fam i :
  FL T (CD T) dflt (dim msh) (fun t => NSVold msh mlSol iel (b t) ig i).
Proof.
  pose proof (NSVold_p_fam i) as HN. at_gauss_point. unfold NSVold.
  destruct (Nat.lt_ge_cases 1 (dim msh)) as [Hd | Hd].
  - insert_CD. fam.
  - eapply xFLCD; [|exact HN]. intros t. cbv beta.
    rewrite list_insert_ge; [reflexivity|]. rewrite length_NSVold_p. lia.
Qed.

Lemma aResV_gauss_fam (r : T -> list (list (adouble D))) :
  FL T (FL T P dflt (nDofsV msh mlSol iel)) dflt (dim msh) r ->
  FL T (FL T P dflt (nDofsV msh mlSol iel)) dflt (dim msh)
     (fun t => aResV_gauss msh mlSol mlPdeSys (rec t) iel (b t) ig (r t)).
Proof.
  intros Hr. at_gauss_point.
  unfold aResV_gauss. loop_FL; [assumption|]. update_FL_P. insert_P.
  pose proof (NSV_fam i). pose proof (NSVold_fam i). fam.
Qed.

Lemma aResP_gauss_fam (r : T -> list (adouble D)) :
  FL T P dflt (nDofsP msh mlSol iel) r ->
  FL T P dflt (nDofsP msh mlSol iel)
     (fun t => aResP_gauss msh mlSol (rec t) iel (b t) ig (r t)).
Proof.
  intros Hr. at_gauss_point.
  unfold aResP_gauss. update_P. loop_P; fam.
Qed.

Lemma gauss_point_fam :
  Related T msh mlSol iel P (fun t => gauss_point msh mlSol mlPdeSys (rec t) iel ig (b t)).
Proof.
  pose proof (aResT_gauss_fam _ (rel_aResT _ _ _ _ _ _ Hb)).
  pose proof (aResV_gauss_fam _ (rel_aResV _ _ _ _ _ _ Hb)).
  pose proof (aResP_gauss_fam _ (rel_aResP _ _ _ _ _ _ Hb)).
  destruct Hb. constructor; assumption.
Qed.
End KernelFamily.

Section LoopFamily.
Context {D : Type} `{Scalar D}.
Variable T : Type.
Variable t0 : T.
Variable rec : T -> bool.
Variable P : (T -> adouble D) -> Prop.
Context {HP : Closed T rec P}.
Variable msh : Mesh D.
Variable mlSol : MultiLevelSolution.
Variable mlPdeSys : PdeSystem D.
Variable iel : nat.

Lemma Related_ext (b b' : T -> ElemBuffers D) :
  (forall t, b t = b' t) ->
  Related T msh mlSol iel P b -> Related T msh mlSol iel P b'.
Proof.
  intros E Hb. destruct Hb.
  constructor.
  - eapply CD_ext;
    [intros t; cbv beta; rewrite <- E; reflexivity | eassumption].
  - eapply (FL_ext T P dflt (P_ext T (P:=P)));
    [intros t; cbv beta; rewrite <- E; reflexivity | eassumption].
  - eapply (FL_ext T _ dflt (FL_ext T P dflt (P_ext T (P:=P)) _));
    [intros t; cbv beta; rewrite <- E; reflexivity | eassumption].
  - eapply (FL_ext T P dflt (P_ext T (P:=P)));
    [intros t; cbv beta; rewrite <- E; reflexivity | eassumption].
  - eapply (FL_ext T (CD T) dflt (@CD_ext T D));
    [intros t; cbv beta; rewrite <- E; reflexivity | eassumption].
  - eapply (FL_ext T _ dflt (FL_ext T (CD T) dflt (@CD_ext T D) _));
    [intros t; cbv beta; rewrite <- E; reflexivity | eassumption].
  - eapply (FL_ext T (CD T) dflt (@CD_ext T D));
    [intros t; cbv beta; rewrite <- E; reflexivity | eassumption].
  - eapply (FL_ext T P dflt (P_ext T (P:=P)));
    [intros t; cbv beta; rewrite <- E; reflexivity | eassumption].
  - eapply (FL_ext T _ dflt (FL_ext T P dflt (P_ext T (P:=P)) _));
    [intros t; cbv beta; rewrite <- E; reflexivity | eassumption].
  - eapply (FL_ext T P dflt (P_ext T (P:=P)));
    [intros t; cbv beta; rewrite <- E; reflexivity | eassumption].
Qed.

(** The quadrature loop keeps the local vectors related. *)
Lemma gauss_loop_fam (b : T -> ElemBuffers D) :
  Related T msh mlSol iel P b ->
  Related T msh mlSol iel P (fun t => gauss_loop msh mlSol mlPdeSys (rec t) iel (b t)).
Proof.
  intros Hb. unfold gauss_loop.
  apply (for_loop_fam T (Related T msh mlSol iel P)).
  - apply Related_ext.
  - exact Hb.
  - intros ig x _ Hx. now apply (gauss_point_fam T t0 rec P msh mlSol mlPdeSys iel x Hx ig).
Qed.
End LoopFamily.

(** ** The block layout of the local vectors *)

Section WriteLoops.
Context {A : Type}.
Variable d : A.

Lemma length_for_loop_writes (W : nat -> list A -> list A) n v :
  (forall i v, length (W i v) = length v) -> length (for_loop n W v) = length v.
Proof.
  intros HW. apply for_loop_ind; [reflexivity|]. intros i x _ Hx. now rewrite HW.
Qed.

(** A position that no iteration writes keeps its entry. *)
Lemma for_loop_not_written (W : nat -> list A -> list A) n v r :
  (forall i v, i < n -> nth r (W i v) d = nth r v d) ->
  nth r (for_loop n W v) d = nth r v d.
Proof.
  intros HW. induction n as [|n IH]; [reflexivity|].
  rewrite for_loop_S, HW by lia. apply IH. intros; apply HW; lia.
Qed.

(** A position that exactly one iteration writes holds what it wrote. *)
Lemma for_loop_written (W : nat -> list A -> list A) n v r i0 x :
  i0 < n ->
  (forall i v, length (W i v) = length v) ->
  (forall v, r < length v -> nth r (W i0 v) d = x) ->
  (forall i v, i < n -> i <> i0 -> nth r (W i v) d = nth r v d) ->
  r < length v ->
  nth r (for_loop n W v) d = x.
Proof.
  intros Hi0 HL Hw Hn Hr. induction n as [|n IH]; [lia|].
  rewrite for_loop_S. destruct (Nat.eq_dec i0 n) as [-> | Hne].
  - apply Hw. now rewrite length_for_loop_writes.
  - rewrite Hn by lia. apply IH; [lia|]. intros; apply Hn; lia.
Qed.

Lemma length_block_write nT nV nP dm a bv c (v : list A) :
  length (block_write nT nV nP dm a bv c v) = length v.
Proof.
  unfold block_write.
  rewrite !length_for_loop_writes; try reflexivity.
  - intros; apply length_insert.
  - intros. apply length_for_loop_writes. intros; apply length_insert.
  - intros; apply length_insert.
Qed.

Lemma nth_block_write nT nV nP dm a bv c (v : list A) r :
  length v = nT + dm * nV + nP -> r < nT + dm * nV + nP ->
  nth r (block_write nT nV nP dm a bv c v) d
  = if r <? nT then a r
    else if r <? nT + dm * nV then bv ((r - nT) mod nV) ((r - nT) / nV)
    else c (r - nT - dm * nV).
Proof.
  intros Hl Hr. unfold block_write.
  assert (HLi : forall i (v : list A),
      length (for_loop dm (fun k v => <[i + nT + k * nV := bv i k]> v) v) = length v).
  { intros. apply length_for_loop_writes. intros; apply length_insert. }
  destruct (r <? nT) eqn:E1; [apply Nat.ltb_lt in E1 | apply Nat.ltb_ge in E1].
  - (* the T block *)
    rewrite for_loop_not_written.
    2:{ intros i w _. rewrite nth_insert. destruct (decide _) as [[? ?]|]; [lia | reflexivity]. }
    rewrite for_loop_not_written.
    2:{ intros i w _. apply for_loop_not_written. intros k w' _.
        rewrite nth_insert. destruct (decide _) as [[? ?]|]; [lia | reflexivity]. }
    apply for_loop_written with (i0 := r); try assumption; try lia.
    + intros; apply length_insert.
    + intros w Hw. rewrite nth_insert. destruct (decide _) as [|Hn]; [reflexivity|].
      exfalso; apply Hn; split; [reflexivity | exact Hw].
    + intros i w _ Hne. rewrite nth_insert.
      destruct (decide _) as [[? ?]|]; [congruence | reflexivity].
  - destruct (r <? nT + dm * nV) eqn:E2; [apply Nat.ltb_lt in E2 | apply Nat.ltb_ge in E2].
    + (* a V block *)
      assert (HnV : 0 < nV) by (destruct nV; [rewrite Nat.mul_0_r in E2; lia | lia]).
      pose proof (Nat.div_mod_eq (r - nT) nV) as Hdm.
      pose proof (Nat.mod_upper_bound (r - nT) nV ltac:(lia)) as Hmod.
      assert (Hq : (r - nT) / nV < dm).
      { apply Nat.Div0.div_lt_upper_bound. lia. }
      rewrite for_loop_not_written.
      2:{ intros i w _. rewrite nth_insert. destruct (decide _) as [[? ?]|]; [lia | reflexivity]. }
      apply for_loop_written with (i0 := (r - nT) mod nV); try assumption.
      * intros w Hw.
        apply for_loop_written with (i0 := (r - nT) / nV); try assumption.
        -- intros; apply length_insert.
        -- intros w' Hw'. rewrite nth_insert. destruct (decide _) as [|Hn]; [reflexivity|].
           exfalso; apply Hn; split; [lia | lia].
        -- intros k w' Hk Hne. rewrite nth_insert.
           destruct (decide _) as [[Hc ?]|]; [|reflexivity].
           exfalso. apply Hne.
           assert (Hk' : k * nV = (r - nT) / nV * nV) by lia.
           apply Nat.mul_cancel_r in Hk'; lia.
      * intros i w Hi Hne. apply for_loop_not_written. intros k w' Hk.
        rewrite nth_insert. destruct (decide _) as [[Hc ?]|]; [|reflexivity].
        exfalso. apply Hne.
        assert (Hc' : r - nT = k * nV + i) by lia.
        rewrite Hc'. rewrite Nat.add_comm, Nat.Div0.mod_add. symmetry. now apply Nat.mod_small.
      * rewrite length_for_loop_writes; [lia|]. intros; apply length_insert.
    + (* the P block *)
      apply for_loop_written with (i0 := r - nT - dm * nV); try lia.
      * intros; apply length_insert.
      * intros w Hw. rewrite nth_insert. destruct (decide _) as [|Hn]; [reflexivity|].
        exfalso; apply Hn; split; [lia | lia].
      * intros i w _ Hne. rewrite nth_insert.
        destruct (decide _) as [[? ?]|]; [lia | reflexivity].
      * rewrite !length_for_loop_writes; try lia.
        -- intros; apply length_insert.
        -- intros; apply HLi.
Qed.
End WriteLoops.

Lemma nth_flat_map_uniform {A B} (f : A -> list B) n (l : list A) r c (d : B) (da : A) :
  (forall y, In y l -> length (f y) = n) -> r < length l -> c < n ->
  nth (r * n + c) (flat_map f l) d = nth c (f (nth r l da)) d.
Proof.
  revert r. induction l as [|y l IH]; intros r Hf Hr Hc; [simpl in Hr; lia|].
  simpl flat_map. destruct r as [|r].
  - simpl. rewrite app_nth1; [reflexivity|]. rewrite Hf; [lia | now left].
  - rewrite app_nth2 by (rewrite Hf; [lia | now left]).
    rewrite Hf by now left.
    replace (S r * n + c - n) with (r * n + c) by lia.
    simpl nth. apply IH; [|simpl in Hr; lia | exact Hc].
    intros z Hz. apply Hf. now right.
Qed.

Lemma length_flat_map_uniform {A B} (f : A -> list B) n (l : list A) :
  (forall y, In y l -> length (f y) = n) -> length (flat_map f l) = length l * n.
Proof.
  induction l as [|y l IH]; intros Hf; [reflexivity|].
  simpl. rewrite length_app, Hf by now left. rewrite IH; [lia|].
  intros z Hz. apply Hf. now right.
Qed.

(** ** The local residual, the dof map and the Jacobian of one element *)

Section ElementLayout.
Context {D : Type} `{Scalar D}.
Variable msh : Mesh D.
Variable sol : Solution D.
Variable mlSol : MultiLevelSolution.
Variable mlPdeSys : PdeSystem D.
Variable sizeT : nat -> nat -> nat.
Variable iel : nat.

Abbreviation nT := (nDofsT msh mlSol iel).
Abbreviation nV := (nDofsV msh mlSol iel).
Abbreviation nP := (nDofsP msh mlSol iel).
Abbreviation n := (nDofsTVP msh mlSol iel).

Lemma nth_map_seq {B} (f : nat -> B) m i (d : B) : i < m -> nth i (map f (seq 0 m)) d = f i.
Proof.
  intros Hi. rewrite (nth_indep _ d (f 0)) by now rewrite length_map, length_seq.
  rewrite map_nth, seq_nth; [reflexivity | exact Hi].
Qed.

Lemma length_local_slots : length (local_slots msh mlSol iel) = n.
Proof.
  unfold local_slots, nDofsTVP.
  rewrite !length_app, !length_map, !length_seq.
  rewrite (length_flat_map_uniform _ nV).
  - rewrite length_seq. lia.
  - intros k _. now rewrite length_map, length_seq.
Qed.

Lemma nth_local_slots r (ds : slot) :
  r < n -> nth r (local_slots msh mlSol iel) ds = slot_of_index msh mlSol iel r.
Proof.
  intros Hr. unfold local_slots, slot_of_index, nDofsTVP in *.
  destruct (r <? nT) eqn:E1; [apply Nat.ltb_lt in E1 | apply Nat.ltb_ge in E1].
  - rewrite app_nth1 by now rewrite length_map, length_seq.
    now apply nth_map_seq.
  - rewrite app_nth2 by now rewrite length_map, length_seq.
    rewrite length_map, length_seq.
    assert (HlB : length (flat_map (fun k => map (SlotV k) (seq 0 nV)) (seq 0 (dim msh)))
                  = dim msh * nV).
    { rewrite (length_flat_map_uniform _ nV); [now rewrite length_seq|].
      intros k _. now rewrite length_map, length_seq. }
    destruct (r <? nT + dim msh * nV) eqn:E2;
      [apply Nat.ltb_lt in E2 | apply Nat.ltb_ge in E2].
    + rewrite app_nth1 by lia.
      assert (HnV : 0 < nV) by (destruct nV; [rewrite Nat.mul_0_r in E2; lia | lia]).
      pose proof (Nat.div_mod_eq (r - nT) nV) as Hdm.
      pose proof (Nat.mod_upper_bound (r - nT) nV ltac:(lia)) as Hmod.
      assert (Hq : (r - nT) / nV < dim msh) by (apply Nat.Div0.div_lt_upper_bound; lia).
      replace (r - nT) with ((r - nT) / nV * nV + (r - nT) mod nV) at 1 by lia.
      rewrite (nth_flat_map_uniform _ nV _ _ _ _ 0); try assumption.
      * rewrite seq_nth by assumption. now apply nth_map_seq.
      * intros k _. now rewrite length_map, length_seq.
      * now rewrite length_seq.
    + rewrite app_nth2 by lia. rewrite HlB.
      apply nth_map_seq. lia.
Qed.

(** The dof map of the loaded element follows the field order. *)
Lemma sysDof_load rec b :
  sysDof (load_element msh sol mlSol mlPdeSys sizeT rec iel b)
  = map (sysdof_of_slot msh mlSol mlPdeSys iel) (local_slots msh mlSol iel).
Proof.
  apply (nth_ext _ _ 0 0).
  - rewrite length_map, length_local_slots. cbn [load_element sysDof].
    pose proof (length_block_write nT nV nP (dim msh)
      (fun i => GetSystemDof mlPdeSys (solTIndex mlSol) (solTPdeIndex mlPdeSys) i iel)
      (fun i k => GetSystemDof mlPdeSys (solVIndex msh mlSol)[@k]
                    (solVPdeIndex msh mlPdeSys)[@k] i iel)
      (fun i => GetSystemDof mlPdeSys (solPIndex mlSol) (solPPdeIndex mlPdeSys) i iel)
      (resize 0 n (sysDof b))) as Hl.
    unfold block_write in Hl. rewrite Hl. apply length_resize.
  - intros r Hr.
    assert (Hrn : r < n).
    { cbn [load_element sysDof] in Hr.
      pose proof (length_block_write nT nV nP (dim msh)
        (fun i => GetSystemDof mlPdeSys (solTIndex mlSol) (solTPdeIndex mlPdeSys) i iel)
        (fun i k => GetSystemDof mlPdeSys (solVIndex msh mlSol)[@k]
                      (solVPdeIndex msh mlPdeSys)[@k] i iel)
        (fun i => GetSystemDof mlPdeSys (solPIndex mlSol) (solPPdeIndex mlPdeSys) i iel)
        (resize 0 n (sysDof b))) as Hl.
      unfold block_write in Hl. rewrite Hl, length_resize in Hr. exact Hr. }
    rewrite (nth_indep (map (sysdof_of_slot msh mlSol mlPdeSys iel) (local_slots msh mlSol iel))
               0 (sysdof_of_slot msh mlSol mlPdeSys iel (SlotT 0)))
      by now rewrite length_map, length_local_slots.
    rewrite map_nth, nth_local_slots by exact Hrn.
    cbn [load_element sysDof].
    pose proof (nth_block_write 0 nT nV nP (dim msh)
      (fun i => GetSystemDof mlPdeSys (solTIndex mlSol) (solTPdeIndex mlPdeSys) i iel)
      (fun i k => GetSystemDof mlPdeSys (solVIndex msh mlSol)[@k]
                    (solVPdeIndex msh mlPdeSys)[@k] i iel)
      (fun i => GetSystemDof mlPdeSys (solPIndex mlSol) (solPPdeIndex mlPdeSys) i iel)
      (resize 0 n (sysDof b)) r (length_resize _ _ _) Hrn) as Hnth.
    unfold block_write in Hnth. rewrite Hnth.
    unfold slot_of_index, sysdof_of_slot.
    destruct (r <? nT); [reflexivity|].
    destruct (r <? nT + dim msh * nV); reflexivity.
Qed.

Lemma length_store_residual b : length (store_residual msh mlSol iel b) = n.
Proof.
  unfold store_residual.
  pose proof (length_block_write nT nV nP (dim msh)
    (fun i => (- value (aResT b)[@i])%cxx)
    (fun i k => (- value (aResV b)[@k][@i])%cxx)
    (fun i => (- value (aResP b)[@i])%cxx)
    (resize dflt n (Res b))) as Hl.
  unfold block_write in Hl. rewrite Hl. apply length_resize.
Qed.

(** The local residual is minus the recorded residual, in field order. *)
Lemma nth_store_residual b r :
  r < n ->
  nth r (store_residual msh mlSol iel b) dflt
  = sneg (value (residual_at b (slot_of_index msh mlSol iel r))).
Proof.
  intros Hr. unfold store_residual.
  pose proof (nth_block_write dflt nT nV nP (dim msh)
    (fun i => (- value (aResT b)[@i])%cxx)
    (fun i k => (- value (aResV b)[@k][@i])%cxx)
    (fun i => (- value (aResP b)[@i])%cxx)
    (resize dflt n (Res b)) r (length_resize _ _ _) Hr) as Hnth.
  unfold block_write in Hnth. rewrite Hnth.
  unfold slot_of_index, residual_at.
  destruct (r <? nT); [reflexivity|].
  destruct (r <? nT + dim msh * nV); reflexivity.
Qed.
End ElementLayout.

Section Declarations.
Context {D : Type} `{Scalar D}.
Variable msh : Mesh D.
Variable mlSol : MultiLevelSolution.
Variable iel : nat.

Lemma flat_map_seq_S {B} (f : nat -> list B) m :
  flat_map f (seq 0 (S m)) = flat_map f (seq 0 m) ++ f m.
Proof. rewrite seq_S, flat_map_app. simpl. now rewrite app_nil_r. Qed.

(** The independents are declared in field order. *)
Lemma independents_declared (s : Stack D) :
  independents (declare_independents msh mlSol iel s)
  = independents s ++ local_slots msh mlSol iel.
Proof.
  unfold declare_independents, local_slots. cbn [independent independents].
  assert (HV : forall m (st : Stack D),
    independents (for_loop m (fun k s => independent (SlotV k) (nDofsV msh mlSol iel) s) st)
    = independents st
      ++ flat_map (fun k => map (SlotV k) (seq 0 (nDofsV msh mlSol iel))) (seq 0 m)).
  { intros m st. induction m as [|m IH].
    - rewrite for_loop_0. simpl. now rewrite app_nil_r.
    - rewrite for_loop_S. cbn [independent independents].
      rewrite IH, flat_map_seq_S. symmetry. apply List.app_assoc. }
  rewrite HV. cbn [independent independents]. now rewrite <- !List.app_assoc.
Qed.

Lemma dependents_declare_independents (s : Stack D) :
  dependents (declare_independents msh mlSol iel s) = dependents s.
Proof.
  unfold declare_independents. cbn [independent dependents].
  apply (for_loop_ind (fun s' => dependents s' = dependents s)); [reflexivity|].
  intros k x _ Hx. exact Hx.
Qed.

Lemma independents_declare_dependents b (s : Stack D) :
  independents (declare_dependents msh mlSol iel b s) = independents s.
Proof.
  unfold declare_dependents. cbn [dependent independents].
  apply (for_loop_ind (fun s' => independents s' = independents s)); [reflexivity|].
  intros k x _ Hx. exact Hx.
Qed.

(** The dependents are declared in the same order: the residuals stored
    for the locations of the unknowns. *)
Lemma dependents_declared b (s : Stack D) :
  dependents (declare_dependents msh mlSol iel b s)
  = dependents s ++ map (residual_at b) (local_slots msh mlSol iel).
Proof.
  unfold declare_dependents, local_slots. cbn [dependent dependents].
  assert (HV : forall m (st : Stack D),
    dependents (for_loop m (fun k s => dependent (aResV b)[@k] (nDofsV msh mlSol iel) s) st)
    = dependents st
      ++ map (residual_at b)
           (flat_map (fun k => map (SlotV k) (seq 0 (nDofsV msh mlSol iel))) (seq 0 m))).
  { intros m st. induction m as [|m IH].
    - rewrite for_loop_0. simpl. now rewrite app_nil_r.
    - rewrite for_loop_S. cbn [dependent dependents].
      rewrite IH, flat_map_seq_S, map_app, <- List.app_assoc. do 2 f_equal.
      rewrite map_map. reflexivity. }
  rewrite HV. cbn [dependent dependents]. rewrite !map_app, !map_map, <- !List.app_assoc. reflexivity.
Qed.

Lemma nth_jacobian (s : Stack D) r c (d : D) (dy : adouble D) (ds : slot) :
  r < length (dependents s) -> c < length (independents s) ->
  nth (r * length (independents s) + c) (jacobian s) d
  = partials (nth r (dependents s) dy) (nth c (independents s) ds).
Proof.
  intros Hr Hc. unfold jacobian.
  rewrite (nth_flat_map_uniform _ (length (independents s)) _ _ _ _ dy); try assumption.
  - rewrite (nth_indep _ d (partials (nth r (dependents s) dy) ds)) by now rewrite length_map.
    apply map_nth.
  - intros y _. apply length_map.
Qed.

Lemma length_jacobian (s : Stack D) :
  length (jacobian s) = length (dependents s) * length (independents s).
Proof.
  unfold jacobian. apply length_flat_map_uniform. intros y _. apply length_map.
Qed.

Lemma store_at_0_all (out v : list D) : length v <= length out -> store_at_0 out v = out.
Proof.
  intros Hl. unfold store_at_0. rewrite skipn_all2 by exact Hl. apply app_nil_r.
Qed.
End Declarations.

(** ** Loading an element in a family of runs *)

Lemma vec_update_loop_tabulate {A} (d : A) m (f : nat -> A) (v : list A) :
  length v = m -> vec_update_loop d m (fun i _ => f i) v = map f (seq 0 m).
Proof.
  intros Hl. apply (nth_ext _ _ d d).
  - now rewrite length_vec_update_loop, length_map, length_seq.
  - intros i Hi. rewrite length_vec_update_loop in Hi.
    rewrite nth_vec_update_loop. destruct (decide _) as [_ | Hn]; [|lia].
    symmetry. apply nth_map_seq. lia.
Qed.

Lemma nth_vfill {A} (x : A) (v : list A) i : nth i (vfill x v) x = x.
Proof.
  unfold vfill. revert i. induction v as [|y v IH]; intros [|i]; simpl; auto.
Qed.

Section FillFamily.
Variable T : Type.
Variable t0 : T.
Context {A : Type}.
Variable Q : (T -> A) -> Prop.
Variable d : A.
Hypothesis Q_ext : forall f g, (forall t, f t = g t) -> Q f -> Q g.
Hypothesis Q_d : Q (fun _ => d).

(** A loop that sets the first [n] entries, whatever they were. *)
Lemma FL_fill n (l : T -> list A) (g : T -> nat -> A) :
  UR T n l -> (forall i, i < n -> Q (fun t => g t i)) ->
  FL T Q d n (fun t => vec_update_loop d n (fun i _ => g t i) (l t)).
Proof.
  intros Hu Hg. split.
  - intros i Hi t t'. rewrite !length_vec_update_loop. now apply Hu.
  - intros i Hi. destruct (UR_cases T t0 n l i Hu Hi) as [Hin | Hout].
    + apply Q_ext with (f := fun t => g t i); [|now apply Hg].
      intros t. rewrite nth_vec_update_loop. destruct (decide _) as [_ | Hn]; [reflexivity|].
      exfalso. apply Hn. split; [exact Hi | apply Hin].
    + apply Q_ext with (f := fun _ => d); [|exact Q_d].
      intros t. rewrite nth_vec_update_loop. destruct (decide _) as [[_ Hn] | _].
      * pose proof (Hout t). lia.
      * symmetry. now apply nth_overflow.
Qed.
End FillFamily.

Section LoadFamily.
Context {D : Type} `{Scalar D}.
Variable T : Type.
Variable t0 : T.
Variable rec : T -> bool.
Variable P : (T -> adouble D) -> Prop.
Context {HP : Closed T rec P}.
Variable msh : Mesh D.
Variable sol : Solution D.
Variable mlSol : MultiLevelSolution.
Variable mlPdeSys : PdeSystem D.
Variable iel : nat.
Variable sizeT : T -> nat -> nat -> nat.
Variable b0 : T -> ElemBuffers D.

Abbreviation nT := (nDofsT msh mlSol iel).
Abbreviation nV := (nDofsV msh mlSol iel).
Abbreviation nP := (nDofsP msh mlSol iel).

Hypothesis Hwf : forall t, wf_buffers msh (b0 t).
Hypothesis Hsz : forall i, i < nT -> forall t t', i < sizeT t nT nV -> i < sizeT t' nT nV.
Hypothesis P_leaf : forall s d, P (fun t => leaf (rec t) s d).

Let Pext : forall f g, (forall t, f t = g t) -> P f -> P g := P_ext T (P := P).
Let Pd : P (fun _ => dflt) := P_const T (fun _ => s0) (CD_const T s0).

Lemma rows_fill_fam {A} (Q : (T -> A) -> Prop) (d : A) (m : nat)
    (rows : T -> list (list A)) (g : T -> nat -> nat -> A) (pre : list A -> list A) :
  (forall f g, (forall t, f t = g t) -> Q f -> Q g) ->
  Q (fun _ => d) ->
  (forall t, length (rows t) = dim msh) ->
  (forall v, length (pre v) = m) ->
  (forall k i, k < dim msh -> i < m -> Q (fun t => g t k i)) ->
  FL T (FL T Q d m) [] (dim msh)
     (fun t => vec_update_loop [] (dim msh) (fun k row =>
                 vec_update_loop d m (fun i _ => g t k i) row)
                 (vec_update_loop [] (dim msh) (fun _ v => pre v) (rows t))).
Proof.
  intros Qext Qd Hl Hpre Hg. split.
  - intros k Hk t t' _. rewrite !length_vec_update_loop, Hl. exact Hk.
  - intros k Hk.
    apply (FL_ext T Q d Qext m) with
      (l := fun t => vec_update_loop d m (fun i _ => g t k i) (pre (nth k (rows t) []))).
    + intros t. rewrite nth_vec_update_loop.
      rewrite length_vec_update_loop, Hl.
      destruct (decide _) as [_ | Hn]; [|lia].
      rewrite nth_vec_update_loop, Hl. destruct (decide _) as [_ | Hn]; [reflexivity | lia].
    + apply (FL_fill T t0 Q d Qext Qd).
      * intros i Hi t t' _. now rewrite Hpre.
      * intros i Hi. now apply Hg.
Qed.

(** The loaded element: shared coordinates and old values, unknowns that are
    leaves of the recording, residuals that are zero. *)
Lemma load_element_fam :
  Related T msh mlSol iel P
    (fun t => load_element msh sol mlSol mlPdeSys (sizeT t) (rec t) iel (b0 t)).
Proof.
  constructor; cbn [load_element solT solV solP solTold solVold solPold aResT aResV aResP coordX].
  - (* coordX *)
    intros t t'. apply (nth_ext _ _ [] []).
    + rewrite !length_vec_update_loop. destruct (Hwf t) as (_ & _ & _ & ->).
      now destruct (Hwf t') as (_ & _ & _ & ->).
    + intros k Hk. rewrite !length_vec_update_loop in Hk.
      destruct (Hwf t) as (_ & _ & _ & Hc). destruct (Hwf t') as (_ & _ & _ & Hc').
      rewrite !nth_vec_update_loop, !length_vec_update_loop.
      repeat (destruct (decide _) as [_ | Hn]; [|lia]).
      rewrite !vec_update_loop_tabulate by apply length_resize. reflexivity.
  - (* solT *)
    apply (FL_fill T t0 P dflt Pext Pd).
    + intros i Hi t t'. rewrite !length_resize. now apply Hsz.
    + intros i Hi. apply P_leaf.
  - (* solV *)
    apply (rows_fill_fam (A := adouble D) P dflt nV (fun t => solV (b0 t))
             (fun t k i => leaf (rec t) (SlotV k i)
                (Sol sol (solVIndex msh mlSol)[@k] (GetSolutionDof msh i iel (solVType msh mlSol))))
             (resize dflt nV)); auto.
    + intros t. now destruct (Hwf t) as (-> & _).
    + intros v. apply length_resize.
  - (* solP *)
    apply (FL_fill T t0 P dflt Pext Pd).
    + intros i Hi t t'. now rewrite !length_resize.
    + intros i Hi. apply P_leaf.
  - (* solTold *)
    apply (FL_fill T t0 (CD T) dflt (@CD_ext T D) (CD_const T dflt)).
    + intros i Hi t t'. rewrite !length_resize. now apply Hsz.
    + intros i Hi. apply CD_const.
  - (* solVold *)
    apply (rows_fill_fam (A := D) (CD T) dflt nV (fun t => solVold (b0 t))
             (fun t k i =>
                SolOld sol (solVIndex msh mlSol)[@k] (GetSolutionDof msh i iel (solVType msh mlSol)))
             (resize dflt nV)).
    + apply CD_ext.
    + apply CD_const.
    + intros t. now destruct (Hwf t) as (_ & -> & _).
    + intros v. apply length_resize.
    + intros k i _ _. apply CD_const.
  - (* solPold *)
    apply (FL_fill T t0 (CD T) dflt (@CD_ext T D) (CD_const T dflt)).
    + intros i Hi t t'. now rewrite !length_resize.
    + intros i Hi. apply CD_const.
  - (* aResT *)
    split.
    + intros i Hi t t'. unfold vfill. rewrite !length_map, !length_resize. now apply Hsz.
    + intros i Hi. apply Pext with (f := fun _ => dflt); [|exact Pd].
      intros t. symmetry. apply (nth_vfill (aconst s0)).
  - (* aResV *)
    split.
    + intros k Hk t t' _. rewrite !length_vec_update_loop.
      now destruct (Hwf t') as (_ & _ & -> & _).
    + intros k Hk. split.
      * intros i Hi t t' _. rewrite !nth_vec_update_loop.
        destruct (Hwf t') as (_ & _ & Hc & _).
        destruct (decide _) as [_ | Hn]; [|lia].
        unfold vfill. now rewrite length_map, length_resize.
      * intros i Hi. apply Pext with (f := fun _ => dflt); [|exact Pd].
        intros t. rewrite nth_vec_update_loop.
        destruct (Hwf t) as (_ & _ & Hc & _).
        destruct (decide _) as [_ | Hn]; [|lia].
        symmetry. apply (nth_vfill (aconst s0)).
  - (* aResP *)
    split.
    + intros i Hi t t'. unfold vfill. now rewrite !length_map, !length_resize.
    + intros i Hi. apply Pext with (f := fun _ => dflt); [|exact Pd].
      intros t. symmetry. apply (nth_vfill (aconst s0)).
Qed.
End LoadFamily.

(** ** One element in a family of runs *)

Section WellFormed.
Context {D : Type} `{Scalar D}.
Variable msh : Mesh D.
Variable sol : Solution D.
Variable mlSol : MultiLevelSolution.
Variable mlPdeSys : PdeSystem D.
Variable sizeT : nat -> nat -> nat.

Lemma wf_initial_buffers : wf_buffers msh (initial_buffers msh).
Proof. unfold wf_buffers, initial_buffers; cbn. now rewrite !repeat_length. Qed.

Lemma wf_load_element rec iel b :
  wf_buffers msh b -> wf_buffers msh (load_element msh sol mlSol mlPdeSys sizeT rec iel b).
Proof.
  intros (H1 & H2 & H3 & H4). unfold wf_buffers. cbn [load_element solV solVold aResV coordX].
  now rewrite !length_vec_update_loop.
Qed.

Lemma gauss_loop_unchanged rec iel b :
  let b' := gauss_loop msh mlSol mlPdeSys rec iel b in
  solT b' = solT b /\ solV b' = solV b /\ solP b' = solP b
  /\ solTold b' = solTold b /\ solVold b' = solVold b /\ solPold b' = solPold b
  /\ coordX b' = coordX b /\ sysDof b' = sysDof b /\ Res b' = Res b /\ Jac b' = Jac b
  /\ length (aResV b') = length (aResV b).
Proof.
  unfold gauss_loop. apply for_loop_ind.
  - repeat split.
  - intros ig x _ (H1 & H2 & H3 & H4 & H5 & H6 & H7 & H8 & H9 & H10 & H11).
    cbn [gauss_point set_aRes solT solV solP solTold solVold solPold coordX sysDof Res Jac aResV].
    repeat split; try assumption.
    rewrite <- H11. unfold aResV_gauss.
    apply for_loop_ind; [reflexivity|].
    intros i y _ Hy. now rewrite length_vec_update_loop.
Qed.

Lemma wf_gauss_loop rec iel b :
  wf_buffers msh b -> wf_buffers msh (gauss_loop msh mlSol mlPdeSys rec iel b).
Proof.
  intros (H1 & H2 & H3 & H4).
  destruct (gauss_loop_unchanged rec iel b)
    as (_ & E2 & _ & _ & E5 & _ & E7 & _ & _ & _ & E11).
  unfold wf_buffers. now rewrite E2, E5, E7, E11.
Qed.

Lemma wf_assemble_element assembleMatrix iel b g :
  wf_buffers msh b ->
  wf_buffers msh (fst (assemble_element msh sol mlSol mlPdeSys sizeT assembleMatrix iel (b, g))).
Proof.
  intros Hb. unfold assemble_element.
  pose proof (wf_gauss_loop (recording (stack g)) iel _
                (wf_load_element (recording (stack g)) iel b Hb)) as Hw.
  destruct assembleMatrix; exact Hw.
Qed.
End WellFormed.

Section ElementFamily.
Context {D : Type} `{Scalar D}.
Variable T : Type.
Variable t0 : T.
Variable rec : T -> bool.
Variable P : (T -> adouble D) -> Prop.
Context {HP : Closed T rec P}.
Variable msh : Mesh D.
Variable sol : Solution D.
Variable mlSol : MultiLevelSolution.
Variable mlPdeSys : PdeSystem D.
Variable iel : nat.

Abbreviation nT := (nDofsT msh mlSol iel).
Abbreviation nV := (nDofsV msh mlSol iel).
Abbreviation nP := (nDofsP msh mlSol iel).
Abbreviation n := (nDofsTVP msh mlSol iel).

(** The residuals of related local vectors are related, location by
    location. *)
Lemma residual_at_fam (b : T -> ElemBuffers D) r :
  Related T msh mlSol iel P b -> r < n ->
  P (fun t => residual_at (b t) (slot_of_index msh mlSol iel r)).
Proof.
  intros Hb Hr. destruct Hb. unfold slot_of_index, nDofsTVP in *.
  destruct (r <? nT) eqn:E1; [apply Nat.ltb_lt in E1 | apply Nat.ltb_ge in E1].
  - cbn [residual_at]. eapply FL_nth; [eassumption | exact E1].
  - destruct (r <? nT + dim msh * nV) eqn:E2;
      [apply Nat.ltb_lt in E2 | apply Nat.ltb_ge in E2].
    + cbn [residual_at].
      assert (HnV : 0 < nV) by (destruct nV; [rewrite Nat.mul_0_r in E2; lia | lia]).
      eapply FL_nth2; [eassumption | | ].
      * apply Nat.Div0.div_lt_upper_bound. lia.
      * apply Nat.mod_upper_bound. lia.
    + cbn [residual_at]. eapply FL_nth; [eassumption | lia].
Qed.

Variable sizeT : T -> nat -> nat -> nat.
Variable b0 : T -> ElemBuffers D.
Hypothesis Hwf : forall t, wf_buffers msh (b0 t).
Hypothesis Hsz : forall i, i < nT -> forall t t', i < sizeT t nT nV -> i < sizeT t' nT nV.
Hypothesis P_leaf : forall s d, P (fun t => leaf (rec t) s d).

Abbreviation ag := (after_gauss T rec msh sol mlSol mlPdeSys iel sizeT b0).


Lemma after_gauss_fam : Related T msh mlSol iel P ag.
Proof.
  unfold after_gauss.
  apply (gauss_loop_fam T t0 rec P msh mlSol mlPdeSys iel).
  now apply (load_element_fam T t0 rec P msh sol mlSol mlPdeSys iel sizeT b0).
Qed.

Lemma sysDof_after_gauss t :
  sysDof (ag t)
  = map (sysdof_of_slot msh mlSol mlPdeSys iel) (local_slots msh mlSol iel).
Proof.
  unfold after_gauss.
  destruct (gauss_loop_unchanged msh mlSol mlPdeSys (rec t) iel
              (load_element msh sol mlSol mlPdeSys (sizeT t) (rec t) iel (b0 t)))
    as (_ & _ & _ & _ & _ & _ & _ & E & _).
  rewrite E. apply sysDof_load.
Qed.

(** When related active values have the same value in all runs, the local
    residual is the same in all runs. *)
Lemma store_residual_fam :
  (forall f, P f -> CD T (fun t => value (f t))) ->
  CD T (fun t => store_residual msh mlSol iel (ag t)).
Proof.
  intros Hval t t'. apply (nth_ext _ _ dflt dflt).
  - now rewrite !length_store_residual.
  - intros r Hr. rewrite length_store_residual in Hr.
    rewrite !nth_store_residual by exact Hr. f_equal.
    apply (Hval _ (residual_at_fam ag r after_gauss_fam Hr)).
Qed.
End ElementFamily.

(** ** The residual with the matrix enabled and disabled *)

Lemma fold_left_rel {S1 S2 X} (R : S1 -> S2 -> Prop) (f1 : S1 -> X -> S1)
    (f2 : S2 -> X -> S2) (l : list X) s1 s2 :
  R s1 s2 ->
  (forall x s1 s2, In x l -> R s1 s2 -> R (f1 s1 x) (f2 s2 x)) ->
  R (fold_left f1 l s1) (fold_left f2 l s2).
Proof.
  revert s1 s2. induction l as [|x l IH]; intros s1 s2 H0 Hstep; [exact H0|].
  simpl. apply IH.
  - apply Hstep; [now left | exact H0].
  - intros y t1 t2 Hy. apply Hstep. now right.
Qed.

Section BackendFacts.
Context {D : Type} `{Scalar D}.

Lemma add_vector_blocked_ext (vals : list D) dofs (V V' : NumericVector D) :
  (forall g, V g = V' g) ->
  forall g, add_vector_blocked vals dofs V g = add_vector_blocked vals dofs V' g.
Proof.
  intros E. unfold add_vector_blocked.
  apply (for_loop_fam bool (fun f : bool -> NumericVector D => forall g, f true g = f false g)
           (length dofs)
           (fun _ i V => vec_add_at (nth i dofs 0) (nth i vals s0) V)
           (fun t => if t then V else V')).
  - intros f g Hfg Hf x. rewrite <- !Hfg. apply Hf.
  - exact E.
  - intros i x _ Hx g. unfold vec_add_at. now rewrite !Hx.
Qed.

End BackendFacts.

Section SameValue.
Context {D : Type} `{Scalar D}.

#[local] Instance same_value_closed : Closed bool (fun t => t) (same_value (D := D)).
Proof.
  unfold same_value. repeat split; cbn.
  - intros f g E Hf. now rewrite <- !E.
  - intros d Hd. apply Hd.
  - intros f g Hf Hg. now rewrite Hf, Hg.
  - intros f g Hf Hg. now rewrite Hf, Hg.
  - intros f g Hf Hg. now rewrite Hf, Hg.
  - intros f Hf. now rewrite Hf.
  - intros f d Hf Hd. now rewrite Hf, (Hd true false).
  - intros f d Hf Hd. now rewrite Hf, (Hd true false).
  - intros d f Hd Hf. now rewrite Hf, (Hd true false).
  - intros f d Hf Hd. now rewrite Hf, (Hd true false).
  - intros f d Hf Hd. now rewrite Hf, (Hd true false).
Qed.

Variable msh : Mesh D.
Variable sol : Solution D.
Variable mlSol : MultiLevelSolution.
Variable mlPdeSys : PdeSystem D.
Variable sizeT : nat -> nat -> nat.

Lemma recording_declare_dependents iel b (s : Stack D) :
  recording (declare_dependents msh mlSol iel b s) = recording s.
Proof.
  unfold declare_dependents. cbn [dependent recording].
  apply (for_loop_ind (fun s' => recording s' = recording s)); [reflexivity|].
  intros k x _ Hx. exact Hx.
Qed.

Lemma recording_declare_independents iel (s : Stack D) :
  recording (declare_independents msh mlSol iel s) = recording s.
Proof.
  unfold declare_independents. cbn [independent recording].
  apply (for_loop_ind (fun s' => recording s' = recording s)); [reflexivity|].
  intros k x _ Hx. exact Hx.
Qed.

Lemma recording_assemble_element pde am iel b g :
  recording (stack (snd (assemble_element msh sol mlSol pde sizeT am iel (b, g))))
  = recording (stack g).
Proof.
  unfold assemble_element. destruct am; [|reflexivity].
  cbn [snd stack clear_dependents clear_independents recording].
  now rewrite recording_declare_independents, recording_declare_dependents.
Qed.

(** One element leaves the same local residual and the same dof map with
    the recording on and paused, whatever the local vectors held before. *)
Lemma element_same_residual iel b1 b2 :
  wf_buffers msh b1 -> wf_buffers msh b2 ->
  let q1 := gauss_loop msh mlSol mlPdeSys true iel
              (load_element msh sol mlSol mlPdeSys sizeT true iel b1) in
  let q2 := gauss_loop msh mlSol mlPdeSys false iel
              (load_element msh sol mlSol mlPdeSys sizeT false iel b2) in
  store_residual msh mlSol iel q1 = store_residual msh mlSol iel q2
  /\ sysDof q1 = sysDof q2.
Proof.
  intros Hw1 Hw2. cbv zeta.
  pose (bb := fun t : bool => if t then b1 else b2).
  assert (Hwf : forall t, wf_buffers msh (bb t)) by (intros []; assumption).
  split.
  - assert (E : CD bool (fun t => store_residual msh mlSol iel
                (after_gauss bool (fun t => t) msh sol mlSol mlPdeSys iel
                   (fun _ => sizeT) bb t))).
    { apply (store_residual_fam bool true (fun t => t) same_value msh sol mlSol mlPdeSys iel
               (fun _ => sizeT) bb Hwf).
      + intros i _ t t' Hi. exact Hi.
      + intros s d. reflexivity.
      + intros f Hf [] []; congruence. }
    exact (E true false).
  - pose proof (sysDof_after_gauss bool (fun t => t) msh sol mlSol mlPdeSys iel
                  (fun _ => sizeT) bb) as E.
    exact (eq_trans (E true) (eq_sym (E false))).
Qed.
End SameValue.

Section ResidualOnly.
Context {D : Type} `{Scalar D}.
Variable msh : Mesh D.
Variable sol : Solution D.
Variable mlSol : MultiLevelSolution.
Variable mlPdeSys : PdeSystem D.
Variable sizeT : nat -> nat -> nat.

(** The flag is read by the pass only: the element reads the time step and
    the dof map of the system, which the flag does not change. *)
Lemma assemble_element_SetAssembleMatrix a am iel st :
  assemble_element msh sol mlSol (SetAssembleMatrix a mlPdeSys) sizeT am iel st
  = assemble_element msh sol mlSol mlPdeSys sizeT am iel st.
Proof. reflexivity. Qed.

Lemma assemble_element_same_residual iel s1 s2 :
  same_residual_inv msh s1 s2 ->
  same_residual_inv msh (assemble_element msh sol mlSol mlPdeSys sizeT true iel s1)
                    (assemble_element msh sol mlSol mlPdeSys sizeT false iel s2).
Proof.
  destruct s1 as [b1 g1], s2 as [b2 g2].
  intros (Hw1 & Hw2 & Hr1 & Hr2 & HRES). cbn [fst snd] in *.
  split; [|split; [|split; [|split]]].
  - now apply wf_assemble_element.
  - now apply wf_assemble_element.
  - now rewrite recording_assemble_element.
  - now rewrite recording_assemble_element.
  - intros dof. unfold assemble_element. rewrite Hr1, Hr2. cbn [snd RES].
    destruct (element_same_residual msh sol mlSol mlPdeSys sizeT iel b1 b2 Hw1 Hw2)
      as [Eres Edof].
    cbv zeta in Eres, Edof. rewrite Eres, Edof.
    now apply add_vector_blocked_ext.
Qed.

Lemma Assemble_same_residual g dof :
  RES (Assemble msh sol mlSol (SetAssembleMatrix true mlPdeSys) sizeT g) dof
  = RES (Assemble msh sol mlSol (SetAssembleMatrix false mlPdeSys) sizeT g) dof.
Proof.
  unfold Assemble. cbn [GetAssembleMatrix SetAssembleMatrix].
  match goal with
  | |- RES (let '(_, g1) := ?F1 in _) _ = RES (let '(_, g2) := ?F2 in _) _ =>
      assert (Hinv : same_residual_inv msh F1 F2)
  end.
  { apply fold_left_rel.
    - split; [|split; [|split; [|split]]]; cbn [fst snd stack RES];
        try apply wf_initial_buffers; reflexivity.
    - intros iel s1 s2 _ Hs. rewrite !assemble_element_SetAssembleMatrix.
      now apply assemble_element_same_residual. }
  destruct (fold_left _ _ _) as [b1 g1].
  destruct (fold_left _ _ _) as [b2 g2].
  destruct Hinv as (_ & _ & _ & _ & HRES). cbn [RES vec_close]. apply HRES.
Qed.
End ResidualOnly.

(** C2: an assembly pass with the matrix disabled (recording paused, no
    Jacobian extraction, no matrix scatter) and one with the matrix enabled,
    from the same mesh, solution and global state, leave the same value in
    every entry of the global residual vector, whatever the arithmetic of
    [double] is. *)
Theorem residual_only_pass_gives_same_residual {D} `{Scalar D}
    (msh : Mesh D) (sol : Solution D) (mlSol : MultiLevelSolution) (mlPdeSys : PdeSystem D)
    (g : AsmState D) (dof : nat) :
  RES (AssembleBoussinesqAppoximation_AD msh sol mlSol (SetAssembleMatrix false mlPdeSys) g) dof
  = RES (AssembleBoussinesqAppoximation_AD msh sol mlSol (SetAssembleMatrix true mlPdeSys) g) dof.
Proof.
  unfold AssembleBoussinesqAppoximation_AD. symmetry. apply Assemble_same_residual.
Qed.

(** ** The size of the temperature vectors *)

Lemma flat_map_map_ext {X Y Z} (f : Y -> list Z) (h1 h2 : X -> Y) (l : list X) :
  (forall x, In x l -> f (h1 x) = f (h2 x)) ->
  flat_map f (map h1 l) = flat_map f (map h2 l).
Proof.
  induction l as [|x l IH]; intros Hf; [reflexivity|].
  simpl. rewrite Hf by now left. f_equal. apply IH. intros y Hy. apply Hf. now right.
Qed.

Section SameAdouble.
Context {D : Type} `{Scalar D}.
Variable rc : bool.

#[local] Instance same_adouble_closed : Closed bool (fun _ => rc) (same_adouble (D := D)).
Proof.
  unfold same_adouble. split; [split|..].
  1: { intros f g E [Hv Hp]. rewrite <- !E. now split. }
  1: { intros d Hd. cbn. rewrite (Hd true false). now split. }
  all: intros;
    repeat match goal with
           | Hc : _ /\ _ |- _ => destruct Hc
           | Hc : CD bool _ |- _ => specialize (Hc true false)
           end;
    split; [cbn; congruence | intros s; destruct rc; cbn; [|reflexivity]];
    repeat match goal with
           | Hc : forall s, partials _ s = partials _ s |- _ => rewrite Hc; clear Hc
           end;
    congruence.
Qed.

Variable msh : Mesh D.
Variable sol : Solution D.
Variable mlSol : MultiLevelSolution.
Variable mlPdeSys : PdeSystem D.
Variable iel : nat.
Hypothesis HTV : nDofsT msh mlSol iel <= nDofsV msh mlSol iel.

Abbreviation sizeV := (fun nDofsT nDofsV : nat => nDofsV).
Abbreviation sizeN := (fun nDofsT nDofsV : nat => nDofsT).
Abbreviation sizes := (fun t : bool => if t then sizeV else sizeN).

Section Element.
Variable b1 b2 : ElemBuffers D.
Hypothesis Hw1 : wf_buffers msh b1.
Hypothesis Hw2 : wf_buffers msh b2.

Abbreviation bb := (fun t : bool => if t then b1 else b2).
Abbreviation q1 :=
  (gauss_loop msh mlSol mlPdeSys rc iel (load_element msh sol mlSol mlPdeSys sizeV rc iel b1)).
Abbreviation q2 :=
  (gauss_loop msh mlSol mlPdeSys rc iel (load_element msh sol mlSol mlPdeSys sizeN rc iel b2)).





End Element.
End SameAdouble.

Section TemperatureVectorSize.
Context {D : Type} `{Scalar D}.
Variable msh : Mesh D.
Variable sol : Solution D.
Variable mlSol : MultiLevelSolution.
Variable mlPdeSys : PdeSystem D.


End TemperatureVectorSize.


(** ** The layout of the local Jacobian and its scatter *)

Section Scatter.
Context {D : Type} `{Scalar D}.


(** Where the dofs of the list are distinct, each receives its value. *)
Lemma add_vector_blocked_entry (vals : list D) dofs (V : NumericVector D) i :
  List.NoDup dofs -> i < length dofs ->
  add_vector_blocked vals dofs V (nth i dofs 0) = sadd (V (nth i dofs 0)) (nth i vals s0).
Proof.
  intros Hnd Hi. unfold add_vector_blocked.
  assert (Hm : forall m, m <= length dofs ->
    let V' := for_loop m (fun i V => vec_add_at (nth i dofs 0) (nth i vals s0) V) V in
    (forall j, m <= j < length dofs -> V' (nth j dofs 0) = V (nth j dofs 0))
    /\ (forall j, j < m -> V' (nth j dofs 0) = sadd (V (nth j dofs 0)) (nth j vals s0))).
  { induction m as [|m IH]; intros Hm; cbv zeta.
    - split; [reflexivity | intros j Hj; lia].
    - destruct IH as [IH1 IH2]; [lia|]. cbv zeta in IH1, IH2.
      rewrite for_loop_S. split; intros j Hj; unfold vec_add_at at 1.
      + destruct (decide (nth j dofs 0 = nth m dofs 0)) as [E | _].
        * apply NoDup_nth in E; [lia | exact Hnd | lia | lia].
        * apply IH1. lia.
      + destruct (decide (nth j dofs 0 = nth m dofs 0)) as [E | Hn].
        * apply NoDup_nth in E; [subst j | exact Hnd | lia | lia].
          f_equal. apply IH1. lia.
        * apply IH2.
          destruct (Nat.eq_dec j m) as [-> | Hne]; [now exfalso; apply Hn | lia]. }
  destruct (Hm (length dofs) (le_n _)) as [_ Hm2]. now apply Hm2.
Qed.

(** One row of the scatter of a block. *)
Lemma mat_row_loop (vals : nat -> D) (R0 : nat) cols m (M : SparseMatrix D) :
  List.NoDup cols -> m <= length cols ->
  let M' := for_loop m (fun j M => mat_add_at R0 (nth j cols 0) (vals j) M) M in
  (forall R C, R <> R0 -> M' R C = M R C)
  /\ (forall C, (forall j, j < m -> nth j cols 0 <> C) -> M' R0 C = M R0 C)
  /\ (forall j, j < m -> M' R0 (nth j cols 0) = sadd (M R0 (nth j cols 0)) (vals j)).
Proof.
  intros Hnd. induction m as [|m IH]; intros Hm; cbv zeta.
  - repeat split; try reflexivity. intros j Hj. lia.
  - destruct IH as (IH1 & IH2 & IH3); [lia|]. cbv zeta in IH1, IH2, IH3.
    rewrite for_loop_S. repeat split.
    + intros R C HR. unfold mat_add_at at 1.
      destruct (decide (R = R0 /\ C = nth m cols 0)) as [[E _] | _]; [contradiction|].
      now apply IH1.
    + intros C HC. unfold mat_add_at at 1.
      destruct (decide (R0 = R0 /\ C = nth m cols 0)) as [[_ E] | _].
      * exfalso. apply (HC m); [lia | now rewrite E].
      * apply IH2. intros j Hj. apply HC. lia.
    + intros j Hj. unfold mat_add_at at 1.
      destruct (decide (R0 = R0 /\ nth j cols 0 = nth m cols 0)) as [[_ E] | Hn].
      * apply NoDup_nth in E; [subst j | exact Hnd | lia | lia].
        f_equal. apply IH2. intros j Hj' E.
        apply NoDup_nth in E; [lia | exact Hnd | lia | lia].
      * apply IH3. destruct (Nat.eq_dec j m) as [-> | Hne]; [|lia].
        exfalso. apply Hn. now split.
Qed.

(** Where the dofs of the rows and those of the columns are distinct, the
    entry [(i, j)] of the block is added at row [rows[i]], column
    [cols[j]]. *)
Lemma add_matrix_blocked_entry (vals : list D) rows cols (M : SparseMatrix D) i j :
  List.NoDup rows -> List.NoDup cols -> i < length rows -> j < length cols ->
  add_matrix_blocked vals rows cols M (nth i rows 0) (nth j cols 0)
  = sadd (M (nth i rows 0) (nth j cols 0)) (nth (i * length cols + j) vals s0).
Proof.
  intros Hr Hc Hi Hj. unfold add_matrix_blocked.
  set (row := fun i M => for_loop (length cols) (fun j M =>
      mat_add_at (nth i rows 0) (nth j cols 0) (nth (i * length cols + j) vals s0) M) M).
  assert (Hm : forall m, m <= length rows ->
    let M' := for_loop m row M in
    (forall i' C, m <= i' < length rows -> M' (nth i' rows 0) C = M (nth i' rows 0) C)
    /\ (forall i', i' < m -> forall j', j' < length cols ->
          M' (nth i' rows 0) (nth j' cols 0)
          = sadd (M (nth i' rows 0) (nth j' cols 0)) (nth (i' * length cols + j') vals s0))).
  { induction m as [|m IH]; intros Hm; cbv zeta.
    - split; [reflexivity | intros i' Hi'; lia].
    - destruct IH as [IH1 IH2]; [lia|]. cbv zeta in IH1, IH2.
      rewrite for_loop_S. set (Mm := for_loop m row M) in *.
      destruct (mat_row_loop (fun j => nth (m * length cols + j) vals s0) (nth m rows 0)
                  cols (length cols) Mm Hc (le_n _)) as (R1 & R2 & R3).
      cbv zeta in R1, R2, R3. unfold row. cbv beta. split.
      + intros i' C Hi'. rewrite R1; [apply IH1; lia|].
        intros E. apply NoDup_nth in E; [lia | exact Hr | lia | lia].
      + intros i' Hi' j' Hj'. destruct (Nat.eq_dec i' m) as [-> | Hne].
        * rewrite R3 by exact Hj'. f_equal. apply IH1. lia.
        * rewrite R1; [apply IH2; [lia | exact Hj']|].
          intros E. apply NoDup_nth in E; [lia | exact Hr | lia | lia]. }
  destruct (Hm (length rows) (le_n _)) as [_ Hm2]. now apply Hm2.
Qed.
End Scatter.

Section JacobianLayout.
Context {D : Type} `{Scalar D}.
Variable msh : Mesh D.
Variable sol : Solution D.
Variable mlSol : MultiLevelSolution.
Variable mlPdeSys : PdeSystem D.
Variable sizeT : nat -> nat -> nat.
Variable iel : nat.

Abbreviation n := (nDofsTVP msh mlSol iel).
Abbreviation slots := (local_slots msh mlSol iel).

(** The recording of an element that started with nothing declared. *)
Lemma declared_lists (q : ElemBuffers D) (s : Stack D) :
  independents s = [] -> dependents s = [] ->
  let s' := declare_independents msh mlSol iel (declare_dependents msh mlSol iel q s) in
  dependents s' = map (residual_at q) slots /\ independents s' = slots.
Proof.
  intros Hi Hd. cbv zeta.
  rewrite dependents_declare_independents, dependents_declared, independents_declared,
    independents_declare_dependents, Hi, Hd. now split.
Qed.

(** Its Jacobian is row-major, rows and columns in the order of the local
    unknowns. *)
Lemma jacobian_entry (q : ElemBuffers D) (s : Stack D) r c :
  independents s = [] -> dependents s = [] -> r < n -> c < n ->
  nth (r * n + c)
      (jacobian (declare_independents msh mlSol iel (declare_dependents msh mlSol iel q s)))
      dflt
  = partials (residual_at q (slot_of_index msh mlSol iel r)) (slot_of_index msh mlSol iel c).
Proof.
  intros Hi Hd Hr Hc.
  destruct (declared_lists q s Hi Hd) as [Ed Ei]. cbv zeta in Ed, Ei.
  pose proof (nth_jacobian
    (declare_independents msh mlSol iel (declare_dependents msh mlSol iel q s))
    r c dflt dflt (SlotT 0)) as E.
  rewrite Ei, Ed, length_map, length_local_slots in E.
  rewrite E by assumption.
  rewrite (nth_local_slots msh mlSol iel c) by exact Hc.
  replace (nth r (map (residual_at q) slots) dflt)
    with (residual_at q (nth r slots (SlotT 0))).
  - now rewrite (nth_local_slots msh mlSol iel r) by exact Hr.
  - symmetry. rewrite nth_indep with (d' := residual_at q (SlotT 0))
      by (rewrite length_map, length_local_slots; exact Hr).
    apply map_nth.
Qed.

(** What the element stores in [Jac]. *)
Lemma Jac_assemble_element (b : ElemBuffers D) (g : AsmState D) :
  independents (stack g) = [] -> dependents (stack g) = [] ->
  let rec := recording (stack g) in
  let q := gauss_loop msh mlSol mlPdeSys rec iel
             (load_element msh sol mlSol mlPdeSys sizeT rec iel b) in
  Jac (fst (assemble_element msh sol mlSol mlPdeSys sizeT true iel (b, g)))
  = jacobian (declare_independents msh mlSol iel
                (declare_dependents msh mlSol iel q (stack g))).
Proof.
  intros Hi Hd. cbv zeta. unfold assemble_element. cbn [fst set_Res_Jac Jac].
  apply store_at_0_all.
  destruct (declared_lists
    (gauss_loop msh mlSol mlPdeSys (recording (stack g)) iel
       (load_element msh sol mlSol mlPdeSys sizeT (recording (stack g)) iel b))
    (stack g) Hi Hd) as [Ed Ei]. cbv zeta in Ed, Ei.
  rewrite length_resize, length_jacobian, Ed, Ei, length_map, length_local_slots. lia.
Qed.
End JacobianLayout.

(** C6: for an element that finds nothing declared in the recording, the
    dependents are the residuals and the independents the unknowns of the
    element, both in the order T, velocity components, P in which [sysDof]
    lists the global dofs; the Jacobian stored in [Jac] is row-major in that
    order, entry [r * n + c] holding the derivative of residual [r] by
    unknown [c]; and where the dofs of [sysDof] are distinct that entry is
    added to the global matrix at row [sysDof[r]], column [sysDof[c]]. *)
Theorem declaration_order_matches_jacobian_layout {D} `{Scalar D}
    (msh : Mesh D) (sol : Solution D) (mlSol : MultiLevelSolution) (mlPdeSys : PdeSystem D)
    (iel : nat) (b : ElemBuffers D) (g : AsmState D) :
  independents (stack g) = [] -> dependents (stack g) = [] ->
  let sizeV := fun nDofsT nDofsV : nat => nDofsV in
  let rec := recording (stack g) in
  let q := gauss_loop msh mlSol mlPdeSys rec iel
             (load_element msh sol mlSol mlPdeSys sizeV rec iel b) in
  let s := declare_independents msh mlSol iel
             (declare_dependents msh mlSol iel q (stack g)) in
  let st := assemble_element msh sol mlSol mlPdeSys sizeV true iel (b, g) in
  let n := nDofsTVP msh mlSol iel in
  dependents s = map (residual_at q) (local_slots msh mlSol iel)
  /\ independents s = local_slots msh mlSol iel
  /\ sysDof q = map (sysdof_of_slot msh mlSol mlPdeSys iel) (local_slots msh mlSol iel)
  /\ Jac (fst st) = jacobian s
  /\ (forall r c, r < n -> c < n ->
        nth (r * n + c) (Jac (fst st)) dflt
        = partials (residual_at q (slot_of_index msh mlSol iel r))
                   (slot_of_index msh mlSol iel c))
  /\ (List.NoDup (sysDof q) -> forall r c, r < n -> c < n ->
        KK (snd st) (nth r (sysDof q) 0) (nth c (sysDof q) 0)
        = sadd (KK g (nth r (sysDof q) 0) (nth c (sysDof q) 0))
               (nth (r * n + c) (Jac (fst st)) dflt)).
Proof.
  intros Hi Hd. cbv zeta.
  set (rec := recording (stack g)).
  set (q := gauss_loop msh mlSol mlPdeSys rec iel
              (load_element msh sol mlSol mlPdeSys (fun _ nV => nV) rec iel b)).
  pose proof (Jac_assemble_element msh sol mlSol mlPdeSys (fun _ nV => nV) iel b g Hi Hd)
    as EJ. cbv zeta in EJ. fold rec in EJ. fold q in EJ.
  destruct (declared_lists msh mlSol iel q (stack g) Hi Hd) as [Ed Ei]. cbv zeta in Ed, Ei.
  assert (Edof : sysDof q
                 = map (sysdof_of_slot msh mlSol mlPdeSys iel) (local_slots msh mlSol iel)).
  { exact (sysDof_after_gauss unit (fun _ => rec) msh sol mlSol mlPdeSys iel
             (fun _ nT nV => nV) (fun _ => b) tt). }
  split; [exact Ed|]. split; [exact Ei|]. split; [exact Edof|]. split; [exact EJ|].
  split.
  - intros r c Hr Hc. rewrite EJ. now apply jacobian_entry.
  - intros Hnd r c Hr Hc.
    assert (Hlen : length (sysDof q) = nDofsTVP msh mlSol iel)
      by (rewrite Edof, length_map; apply length_local_slots).
    unfold assemble_element at 1. cbn [snd KK]. fold rec. fold q.
    rewrite add_matrix_blocked_entry by first [exact Hnd | rewrite Hlen; assumption].
    rewrite Hlen. reflexivity.
Qed.

Lemma declaration_order_matches_jacobian_layout_witness :
  let g := Tiny.clean in
  let q := gauss_loop Tiny.msh Tiny.mlSol Tiny.pde true 0
             (load_element Tiny.msh Tiny.sol Tiny.mlSol Tiny.pde (fun _ nV => nV) true 0
                (initial_buffers Tiny.msh)) in
  let st := assemble_element Tiny.msh Tiny.sol Tiny.mlSol Tiny.pde (fun _ nV => nV) true 0
              (initial_buffers Tiny.msh, g) in
  sysDof q = [3; 0; 1; 2]
  /\ forall r c, r < 4 -> c < 4 ->
       nth (r * 4 + c) (Jac (fst st)) 0%R
       = partials (residual_at q (slot_of_index Tiny.msh Tiny.mlSol 0 r))
                  (slot_of_index Tiny.msh Tiny.mlSol 0 c).
Proof.
  cbv zeta.
  destruct (declaration_order_matches_jacobian_layout Tiny.msh Tiny.sol Tiny.mlSol Tiny.pde 0
              (initial_buffers Tiny.msh) Tiny.clean eq_refl eq_refl)
    as (_ & _ & Edof & _ & EJ & _).
  split.
  - etransitivity; [exact Edof | reflexivity].
  - exact EJ.
Defined.
(** ** The contribution of one quadrature point *)

Section RowsUpdate.
Context {A : Type}.
Variable d : A.

End RowsUpdate.

Section GaussPointContribution.
Variable msh : Mesh R.
Variable mlSol : MultiLevelSolution.
Variable mlPdeSys : PdeSystem R.
Variable rec : bool.
Variable iel : nat.
Variable b : ElemBuffers R.
Variable ig : nat.
Local Open Scope R_scope.


End GaussPointContribution.


(** ** The local Jacobian and the derivative of the local residual *)

Lemma derivable_pt_lim_ext (f g : R -> R) (x l l' : R) :
  (forall y, f y = g y) -> l = l' -> derivable_pt_lim f x l -> derivable_pt_lim g x l'.
Proof.
  intros E <- Hf eps Heps. destruct (Hf eps Heps) as [delta Hd].
  exists delta. intros h Hh Hlt. rewrite <- !E. now apply Hd.
Qed.

Lemma derivable_pt_lim_CD (d : R -> R) (x : R) : CD R d -> derivable_pt_lim d x 0%R.
Proof.
  intros Hd. apply (derivable_pt_lim_ext (fun _ => d x) d x 0%R 0%R);
    [intros y; apply Hd | reflexivity | apply derivable_pt_lim_const].
Qed.

Section DerivativeRecorded.
Variable v : slot.

(** The operators of an active value record its derivative, by the rules of
    the sum, the product and the multiple. *)
#[local] Instance derivative_recorded_closed :
  Closed R (fun _ => true) (derivative_recorded v).
Proof.
  unfold derivative_recorded. split; [split|..].
  - intros f g E Hf x. rewrite <- E.
    apply (derivable_pt_lim_ext (fun y => value (f y)) (fun y => value (g y)) x
             (partials (f x) v) (partials (f x) v));
      [intros y; now rewrite E | reflexivity | apply Hf].
  - intros d Hd x. cbn. now apply derivable_pt_lim_CD.
  - intros f g Hf Hg x. exact (derivable_pt_lim_plus _ _ x _ _ (Hf x) (Hg x)).
  - intros f g Hf Hg x. exact (derivable_pt_lim_minus _ _ x _ _ (Hf x) (Hg x)).
  - intros f g Hf Hg x. exact (derivable_pt_lim_mult _ _ x _ _ (Hf x) (Hg x)).
  - intros f Hf x. exact (derivable_pt_lim_opp _ x _ (Hf x)).
  - intros f d Hf Hd x.
    apply (derivable_pt_lim_ext (fun y => value (f y) + d y)%R _ x (partials (f x) v + 0)%R);
      [reflexivity | cbn; lra |].
    exact (derivable_pt_lim_plus _ _ x _ _ (Hf x) (derivable_pt_lim_CD d x Hd)).
  - intros f d Hf Hd x.
    apply (derivable_pt_lim_ext (fun y => value (f y) - d y)%R _ x (partials (f x) v - 0)%R);
      [reflexivity | cbn; lra |].
    exact (derivable_pt_lim_minus _ _ x _ _ (Hf x) (derivable_pt_lim_CD d x Hd)).
  - intros d f Hd Hf x.
    apply (derivable_pt_lim_ext (fun y => d x * value (f y))%R _ x (d x * partials (f x) v)%R);
      [intros y; cbn; now rewrite (Hd y x) | reflexivity |].
    exact (derivable_pt_lim_scal _ (d x) x _ (Hf x)).
  - intros f d Hf Hd x.
    apply (derivable_pt_lim_ext (fun y => d x * value (f y))%R _ x (d x * partials (f x) v)%R);
      [intros y; cbn; rewrite (Hd y x); lra | cbn; lra |].
    exact (derivable_pt_lim_scal _ (d x) x _ (Hf x)).
  - intros f d Hf Hd x.
    apply (derivable_pt_lim_ext (fun y => / d x * value (f y))%R _ x
             (/ d x * partials (f x) v)%R);
      [intros y; cbn; rewrite (Hd y x); unfold Rdiv; lra | cbn; unfold Rdiv; lra |].
    exact (derivable_pt_lim_scal _ (/ d x) x _ (Hf x)).
Qed.

(** An active value that no run changes, without derivative by [v]. *)
Lemma derivative_recorded_fixed (a : adouble R) :
  partials a v = 0%R -> derivative_recorded v (fun _ => a).
Proof. intros E x. rewrite E. apply derivable_pt_lim_const. Qed.

(** The unknown at [v] itself. *)
Lemma derivative_recorded_unknown (d : R) :
  derivative_recorded v (fun x => with_value x (leaf true v d)).
Proof.
  intros x. cbn. destruct (decide (v = v)) as [_ | Hn]; [|contradiction].
  apply derivable_pt_lim_id.
Qed.
End DerivativeRecorded.

Section LoadedUnknowns.
Context {D : Type} `{Scalar D}.
Variable msh : Mesh D.
Variable sol : Solution D.
Variable mlSol : MultiLevelSolution.
Variable mlPdeSys : PdeSystem D.
Variable sizeT : nat -> nat -> nat.
Variable rec : bool.
Variable iel : nat.
Variable b0 : ElemBuffers D.
Hypothesis Hwf : wf_buffers msh b0.

Abbreviation nT := (nDofsT msh mlSol iel).
Abbreviation nV := (nDofsV msh mlSol iel).
Abbreviation nP := (nDofsP msh mlSol iel).
Abbreviation b1 := (load_element msh sol mlSol mlPdeSys sizeT rec iel b0).

Lemma length_solT_load : length (solT b1) = sizeT nT nV.
Proof. cbn [load_element solT]. now rewrite length_vec_update_loop, length_resize. Qed.

Lemma nth_solT_load i :
  i < nT -> i < sizeT nT nV ->
  nth i (solT b1) dflt = leaf rec (SlotT i) (loaded_value msh mlSol iel sol (SlotT i)).
Proof.
  intros Hi Hs. cbn [load_element solT]. rewrite nth_vec_update_loop, length_resize.
  destruct (decide _) as [_ | Hn]; [reflexivity | exfalso; apply Hn; now split].
Qed.

Lemma length_solV_load : length (solV b1) = dim msh.
Proof.
  cbn [load_element solV]. rewrite !length_vec_update_loop. now destruct Hwf as (-> & _).
Qed.

Lemma nth_solV_load k :
  k < dim msh ->
  nth k (solV b1) []
  = map (fun i => leaf rec (SlotV k i) (loaded_value msh mlSol iel sol (SlotV k i))) (seq 0 nV).
Proof.
  intros Hk. cbn [load_element solV]. destruct Hwf as (Hl & _).
  rewrite nth_vec_update_loop, length_vec_update_loop, Hl.
  destruct (decide _) as [_ | Hn]; [|lia].
  rewrite nth_vec_update_loop, Hl. destruct (decide _) as [_ | Hn]; [|lia].
  now rewrite vec_update_loop_tabulate by apply length_resize.
Qed.

Lemma solP_load :
  solP b1 = map (fun i => leaf rec (SlotP i) (loaded_value msh mlSol iel sol (SlotP i))) (seq 0 nP).
Proof.
  cbn [load_element solP]. now rewrite vec_update_loop_tabulate by apply length_resize.
Qed.

(** The residuals of the loaded element are zero. *)
Lemma residual_at_load s : residual_at b1 s = aconst s0.
Proof.
  destruct s as [i | k i | i]; cbn [residual_at load_element aResT aResV aResP].
  - apply (nth_vfill (aconst s0)).
  - rewrite nth_vec_update_loop. destruct (decide _) as [_ | Hn].
    + apply (nth_vfill (aconst s0)).
    + destruct (Nat.lt_ge_cases k (length (aResV b0))) as [Hl | Hl].
      * exfalso. apply Hn. destruct Hwf as (_ & _ & Hc & _). split; lia.
      * rewrite (nth_overflow (aResV b0)) by exact Hl. now destruct i.
  - apply (nth_vfill (aconst s0)).
Qed.

(** The unknown that the element loads at a location is a leaf of the
    recording, holding the value of the solution. *)
Lemma unknown_at_load s :
  local_slot msh mlSol iel s -> in_vectors b1 s ->
  unknown_at b1 s = leaf rec s (loaded_value msh mlSol iel sol s).
Proof.
  destruct s as [i | k i | i]; cbn [local_slot in_vectors unknown_at].
  - intros Hi Hl. rewrite length_solT_load in Hl. now apply nth_solT_load.
  - intros [Hk Hi] _. unfold dflt at 2, Dflt_list. rewrite nth_solV_load by exact Hk.
    now rewrite nth_map_seq.
  - intros Hi _. rewrite solP_load. now rewrite nth_map_seq.
Qed.

End LoadedUnknowns.

Section SetUnknown.
Context {D : Type} `{Scalar D}.

Lemma unknown_at_outside (b : ElemBuffers D) s : ~ in_vectors b s -> unknown_at b s = dflt.
Proof.
  destruct s as [i | k i | i]; cbn [in_vectors unknown_at]; intros Hn.
  - apply nth_overflow. lia.
  - destruct (Nat.lt_ge_cases k (length (solV b))) as [Hk | Hk].
    + apply nth_overflow. unfold dflt at 1, Dflt_list.
      destruct (Nat.lt_ge_cases i (length (nth k (solV b) []))); [|assumption].
      exfalso. apply Hn. now split.
    + unfold dflt at 2, Dflt_list. rewrite (nth_overflow (solV b)) by exact Hk. now destruct i.
  - apply nth_overflow. lia.
Qed.

(** Giving a value to the unknown at [v] changes that unknown only, and no
    length. *)
Lemma unknown_at_set_unknown (b : ElemBuffers D) v x s :
  unknown_at (set_unknown v x b) s
  = if decide (s = v /\ in_vectors b v) then with_value x (unknown_at b v)
    else unknown_at b s.
Proof.
  destruct v as [c | kc c | c], s as [i | k i | i];
    cbn [set_unknown unknown_at solT solV solP in_vectors];
    unfold dflt, Dflt_list;
    repeat (rewrite ?nth_insert; case_decide);
    destruct_and?; simplify_eq; try reflexivity; exfalso; naive_solver.
Qed.

Lemma length_set_unknown (b : ElemBuffers D) v x :
  length (solT (set_unknown v x b)) = length (solT b)
  /\ length (solV (set_unknown v x b)) = length (solV b)
  /\ (forall k, length (nth k (solV (set_unknown v x b)) []) = length (nth k (solV b) []))
  /\ length (solP (set_unknown v x b)) = length (solP b).
Proof.
  destruct v as [c | kc c | c]; cbn [set_unknown solT solV solP];
    rewrite ?length_insert; repeat split; try reflexivity.
  intros k. rewrite nth_insert. destruct (decide _) as [[-> _] | _]; [|reflexivity].
  now rewrite length_insert.
Qed.

(** Giving the unknown the value it has changes nothing. *)
Lemma set_unknown_same (b : ElemBuffers D) v :
  set_unknown v (value (unknown_at b v)) b = b.
Proof.
  assert (Hw : forall a : adouble D, with_value (value a) a = a) by (now intros []).
  assert (Hi : forall (A : Type) (l : list A) i (d : A), <[i := nth i l d]> l = l).
  { intros A l i d. apply (nth_ext _ _ d d); [now rewrite length_insert|].
    intros j _. rewrite nth_insert. destruct (decide _) as [[-> _] | _]; reflexivity. }
  destruct b as [x1 x2 x3 x4 x5 x6 x7 x8 x9 x10 x11 x12 x13], v as [c | kc c | c];
    unfold set_unknown;
    cbn [unknown_at solT solV solP solTold solVold solPold aResT aResV aResP coordX sysDof
         Res Jac];
    rewrite Hw; unfold dflt, Dflt_list, Dflt_adouble; rewrite ?Hi; reflexivity.
Qed.
End SetUnknown.

Section VaryUnknown.
Variable msh : Mesh R.
Variable sol : Solution R.
Variable mlSol : MultiLevelSolution.
Variable mlPdeSys : PdeSystem R.
Variable sizeT : nat -> nat -> nat.
Variable iel : nat.
Variable b0 : ElemBuffers R.
Hypothesis Hwf : wf_buffers msh b0.
Variable v : slot.

Abbreviation b1 := (load_element msh sol mlSol mlPdeSys sizeT true iel b0).
Abbreviation n := (nDofsTVP msh mlSol iel).

(** The unknowns of the loaded element in the runs that vary the one at
    [v]: that one has derivative 1, the others derivative 0. *)
Lemma unknown_vary s :
  local_slot msh mlSol iel s ->
  derivative_recorded v (fun x => unknown_at (set_unknown v x b1) s).
Proof.
  intros Hs.
  apply (P_ext R (Respects := closed_respects R (Closed := derivative_recorded_closed v)))
    with (f := fun x => if decide (s = v /\ in_vectors b1 v)
                        then with_value x (unknown_at b1 v) else unknown_at b1 s).
  - intros x. symmetry. apply unknown_at_set_unknown.
  - destruct (decide _) as [[-> Hin] | Hn].
    + rewrite (unknown_at_load msh sol mlSol mlPdeSys sizeT true iel b0 Hwf v Hs Hin).
      apply derivative_recorded_unknown.
    + apply derivative_recorded_fixed.
      destruct (decide (in_vectors b1 s)) as [Hin | Hout].
      * rewrite (unknown_at_load msh sol mlSol mlPdeSys sizeT true iel b0 Hwf s Hs Hin).
        cbn. destruct (decide (s = v)) as [E | _]; [|reflexivity].
        exfalso. apply Hn. split; [exact E | now subst].
      * now rewrite unknown_at_outside.
Qed.

Lemma set_unknown_related :
  Related R msh mlSol iel (derivative_recorded v) (fun x => set_unknown v x b1).
Proof.
  assert (HL := length_set_unknown b1 v).
  constructor.
  - intros t t'. now destruct v.
  - split.
    + intros i Hi t t' Hl. destruct (HL t) as (E & _), (HL t') as (E' & _).
      rewrite E in Hl. now rewrite E'.
    + intros i Hi. exact (unknown_vary (SlotT i) Hi).
  - split.
    + intros k Hk t t' Hl. destruct (HL t) as (_ & E & _), (HL t') as (_ & E' & _).
      rewrite E in Hl. now rewrite E'.
    + intros k Hk. split.
      * intros i Hi t t' Hl. destruct (HL t) as (_ & _ & E & _), (HL t') as (_ & _ & E' & _).
        unfold dflt, Dflt_list in *. rewrite E in Hl. now rewrite E'.
      * intros i Hi. exact (unknown_vary (SlotV k i) (conj Hk Hi)).
  - split.
    + intros i Hi t t' Hl. destruct (HL t) as (_ & _ & _ & E), (HL t') as (_ & _ & _ & E').
      rewrite E in Hl. now rewrite E'.
    + intros i Hi. exact (unknown_vary (SlotP i) Hi).
  - split; [intros i Hi t t' Hl; now destruct v | intros i Hi t t'; now destruct v].
  - split; [intros i Hi t t' Hl; now destruct v |].
    intros k Hk. split; [intros i Hi t t' Hl; now destruct v | intros i Hi t t'; now destruct v].
  - split; [intros i Hi t t' Hl; now destruct v | intros i Hi t t'; now destruct v].
  - split; [intros i Hi t t' Hl; now destruct v |].
    intros i Hi. change (derivative_recorded v (fun _ => residual_at b1 (SlotT i))).
    apply derivative_recorded_fixed.
    now rewrite (residual_at_load msh sol mlSol mlPdeSys sizeT true iel b0 Hwf).
  - split; [intros k Hk t t' Hl; now destruct v |].
    intros k Hk. split; [intros i Hi t t' Hl; now destruct v |].
    intros i Hi. change (derivative_recorded v (fun _ => residual_at b1 (SlotV k i))).
    apply derivative_recorded_fixed.
    now rewrite (residual_at_load msh sol mlSol mlPdeSys sizeT true iel b0 Hwf).
  - split; [intros i Hi t t' Hl; now destruct v |].
    intros i Hi. change (derivative_recorded v (fun _ => residual_at b1 (SlotP i))).
    apply derivative_recorded_fixed.
    now rewrite (residual_at_load msh sol mlSol mlPdeSys sizeT true iel b0 Hwf).
Qed.

(** The local residual as a function of the unknown at [v], the other
    unknowns being those of the loaded element. *)
Lemma residual_derivative r (x : R) :
  r < n ->
  derivable_pt_lim
    (fun y => nth r (store_residual msh mlSol iel
                       (gauss_loop msh mlSol mlPdeSys true iel (set_unknown v y b1))) 0%R)
    x
    (- partials (residual_at (gauss_loop msh mlSol mlPdeSys true iel (set_unknown v x b1))
                   (slot_of_index msh mlSol iel r)) v)%R.
Proof.
  intros Hr.
  pose proof (gauss_loop_fam R 0%R (fun _ => true) (derivative_recorded v)
                (HP := derivative_recorded_closed v) msh mlSol mlPdeSys iel _
                set_unknown_related) as HR.
  pose proof (residual_at_fam R (derivative_recorded v) msh mlSol iel _ r HR Hr) as HP.
  refine (derivable_pt_lim_ext
            (fun y => - value (residual_at
                         (gauss_loop msh mlSol mlPdeSys true iel (set_unknown v y b1))
                         (slot_of_index msh mlSol iel r)))%R _ x _ _ _ eq_refl
            (derivable_pt_lim_opp _ x _ (HP x))).
  intros y. symmetry. exact (nth_store_residual msh mlSol iel _ r Hr).
Qed.
End VaryUnknown.

Section JacobianIsDerivative.
Variable msh : Mesh R.
Variable sol : Solution R.
Variable mlSol : MultiLevelSolution.
Variable mlPdeSys : PdeSystem R.
Variable iel : nat.
Variable b0 : ElemBuffers R.
Variable g : AsmState R.
Hypothesis Hwf : wf_buffers msh b0.
Hypothesis Hrec : recording (stack g) = true.
Hypothesis Hi : independents (stack g) = [].
Hypothesis Hd : dependents (stack g) = [].

Abbreviation sizeV := (fun nDofsT nDofsV : nat => nDofsV).
Abbreviation b1 := (load_element msh sol mlSol mlPdeSys sizeV true iel b0).
Abbreviation n := (nDofsTVP msh mlSol iel).
Abbreviation st := (assemble_element msh sol mlSol mlPdeSys sizeV true iel (b0, g)).

Lemma Res_assemble_element :
  Res (fst st) = store_residual msh mlSol iel (gauss_loop msh mlSol mlPdeSys true iel b1).
Proof. unfold assemble_element. cbn [fst set_Res_Jac Res]. now rewrite Hrec. Qed.

Lemma Jac_entry_assemble_element r c :
  r < n -> c < n ->
  nth (r * n + c) (Jac (fst st)) 0%R
  = partials (residual_at (gauss_loop msh mlSol mlPdeSys true iel b1)
                (slot_of_index msh mlSol iel r))
             (slot_of_index msh mlSol iel c).
Proof.
  intros Hr Hc.
  rewrite (Jac_assemble_element msh sol mlSol mlPdeSys sizeV iel b0 g Hi Hd).
  rewrite Hrec. exact (jacobian_entry msh mlSol iel _ _ r c Hi Hd Hr Hc).
Qed.

Lemma residual_derivative_is_minus_Jac r c :
  r < n -> c < n ->
  let v := slot_of_index msh mlSol iel c in
  derivable_pt_lim
    (fun x => nth r (store_residual msh mlSol iel
                       (gauss_loop msh mlSol mlPdeSys true iel (set_unknown v x b1))) 0%R)
    (value (unknown_at b1 v))
    (- nth (r * n + c) (Jac (fst st)) 0%R)%R.
Proof.
  intros Hr Hc v. rewrite Jac_entry_assemble_element by assumption.
  pose proof (residual_derivative msh sol mlSol mlPdeSys sizeV iel b0 Hwf v r
                (value (unknown_at b1 v)) Hr) as E.
  now rewrite set_unknown_same in E.
Qed.
End JacobianIsDerivative.

(** C1 (amended): for an element that finds the recording on and nothing
    declared, [Res] is the local residual at the loaded unknowns, and each
    entry [Jac[r][c]] of the stored Jacobian is minus the partial derivative
    of the residual entry [Res[r]] by the local unknown [c], over the real
    numbers: [Res] holds [-aRes] and the recording differentiates [aRes]. *)
Theorem jacobian_entry_is_minus_residual_derivative
    (msh : Mesh R) (sol : Solution R) (mlSol : MultiLevelSolution) (mlPdeSys : PdeSystem R)
    (iel : nat) (b0 : ElemBuffers R) (g : AsmState R) (r c : nat) :
  wf_buffers msh b0 ->
  recording (stack g) = true -> independents (stack g) = [] -> dependents (stack g) = [] ->
  r < nDofsTVP msh mlSol iel -> c < nDofsTVP msh mlSol iel ->
  let sizeV := fun nDofsT nDofsV : nat => nDofsV in
  let b1 := load_element msh sol mlSol mlPdeSys sizeV true iel b0 in
  let v := slot_of_index msh mlSol iel c in
  let Res_of := fun x : R =>
    store_residual msh mlSol iel
      (gauss_loop msh mlSol mlPdeSys true iel (set_unknown v x b1)) in
  let st := assemble_element msh sol mlSol mlPdeSys sizeV true iel (b0, g) in
  Res (fst st) = Res_of (value (unknown_at b1 v))
  /\ derivable_pt_lim (fun x => nth r (Res_of x) 0%R) (value (unknown_at b1 v))
       (- nth (r * nDofsTVP msh mlSol iel + c) (Jac (fst st)) 0%R)%R.
Proof.
  intros Hwf Hrec Hi Hd Hr Hc. cbv zeta. split.
  - rewrite set_unknown_same. now apply Res_assemble_element.
  - now apply residual_derivative_is_minus_Jac.
Qed.

Lemma jacobian_entry_is_minus_residual_derivative_witness :
  let sizeV := fun nDofsT nDofsV : nat => nDofsV in
  let b1 := load_element Tiny.msh Tiny.sol Tiny.mlSol Tiny.pde sizeV true 0
              (initial_buffers Tiny.msh) in
  let Res_of := fun x : R =>
    store_residual Tiny.msh Tiny.mlSol 0
      (gauss_loop Tiny.msh Tiny.mlSol Tiny.pde true 0 (set_unknown (SlotT 0) x b1)) in
  let st := assemble_element Tiny.msh Tiny.sol Tiny.mlSol Tiny.pde sizeV true 0
              (initial_buffers Tiny.msh, Tiny.clean) in
  Res (fst st) = Res_of (value (unknown_at b1 (SlotT 0)))
  /\ derivable_pt_lim (fun x => nth 0 (Res_of x) 0%R) (value (unknown_at b1 (SlotT 0)))
       (- nth 0 (Jac (fst st)) 0%R)%R.
Proof.
  cbv zeta.
  apply (jacobian_entry_is_minus_residual_derivative Tiny.msh Tiny.sol Tiny.mlSol Tiny.pde 0
           (initial_buffers Tiny.msh) Tiny.clean 0 0);
    first [apply wf_initial_buffers | reflexivity | vm_compute; lia].
Defined.

(** C1 as stated fails: on the element of the small mesh the entry
    [Jac[0][0]] is [-1], while the residual entry [Res[0]] has derivative
    [+1] by the first unknown. *)
Lemma jacobian_entry_is_not_residual_derivative :
  let sizeV := fun nDofsT nDofsV : nat => nDofsV in
  let b1 := load_element Tiny.msh Tiny.sol Tiny.mlSol Tiny.pde sizeV true 0
              (initial_buffers Tiny.msh) in
  let Res_0 := fun x : R =>
    nth 0 (store_residual Tiny.msh Tiny.mlSol 0
             (gauss_loop Tiny.msh Tiny.mlSol Tiny.pde true 0 (set_unknown (SlotT 0) x b1)))
        0%R in
  let st := assemble_element Tiny.msh Tiny.sol Tiny.mlSol Tiny.pde sizeV true 0
              (initial_buffers Tiny.msh, Tiny.clean) in
  nth 0 (Jac (fst st)) 0%R = (-1)%R
  /\ derivable_pt_lim Res_0 (value (unknown_at b1 (SlotT 0))) 1%R
  /\ ~ derivable_pt_lim Res_0 (value (unknown_at b1 (SlotT 0))) (nth 0 (Jac (fst st)) 0%R).
Proof.
  cbv zeta.
  assert (Hwf : wf_buffers Tiny.msh (initial_buffers Tiny.msh)) by apply wf_initial_buffers.
  assert (Hn : 0 < nDofsTVP Tiny.msh Tiny.mlSol 0) by (vm_compute; lia).
  assert (EJ : nth 0 (Jac (fst (assemble_element Tiny.msh Tiny.sol Tiny.mlSol Tiny.pde
                  (fun _ nV => nV) true 0 (initial_buffers Tiny.msh, Tiny.clean)))) 0%R
               = (-1)%R).
  { etransitivity.
    - exact (Jac_entry_assemble_element Tiny.msh Tiny.sol Tiny.mlSol Tiny.pde 0
               (initial_buffers Tiny.msh) Tiny.clean eq_refl eq_refl eq_refl 0 0 Hn Hn).
    - cbv - [Rplus Rmult Rminus Rdiv Ropp Rinv sqrt IZR].
      unfold Rdiv. rewrite ?Rinv_1. ring. }
  assert (HD : derivable_pt_lim
            (fun x => nth 0 (store_residual Tiny.msh Tiny.mlSol 0
               (gauss_loop Tiny.msh Tiny.mlSol Tiny.pde true 0
                  (set_unknown (SlotT 0) x
                     (load_element Tiny.msh Tiny.sol Tiny.mlSol Tiny.pde (fun _ nV => nV)
                        true 0 (initial_buffers Tiny.msh))))) 0%R)
            (value (unknown_at
               (load_element Tiny.msh Tiny.sol Tiny.mlSol Tiny.pde (fun _ nV => nV)
                  true 0 (initial_buffers Tiny.msh)) (SlotT 0)))
            1%R).
  { pose proof (residual_derivative_is_minus_Jac Tiny.msh Tiny.sol Tiny.mlSol Tiny.pde 0
                  (initial_buffers Tiny.msh) Tiny.clean Hwf eq_refl eq_refl eq_refl 0 0 Hn Hn)
      as E.
    cbv zeta in E.
    refine (derivable_pt_lim_ext _ _ _ _ _ (fun _ => eq_refl) _ E).
    change (0 * nDofsTVP Tiny.msh Tiny.mlSol 0 + 0) with 0. rewrite EJ. lra. }
  split; [exact EJ|]. split; [exact HD|].
  rewrite EJ. intros HN.
  pose proof (uniqueness_limite _ _ _ _ HD HN). lra.
Qed.
(** ** What a pass leaves in the global system *)

Lemma fold_left_inv {S X} (I : S -> Prop) (f : S -> X -> S) (l : list X) s :
  I s -> (forall x s, In x l -> I s -> I (f s x)) -> I (fold_left f l s).
Proof.
  revert s. induction l as [|x l IH]; intros s H0 Hstep; [exact H0|].
  simpl. apply IH.
  - apply Hstep; [now left | exact H0].
  - intros y t Hy. apply Hstep. now right.
Qed.

Section PassFacts.
Context {D : Type} `{Scalar D}.


Variable msh : Mesh D.
Variable sol : Solution D.
Variable mlSol : MultiLevelSolution.
Variable mlPdeSys : PdeSystem D.
Variable sizeT : nat -> nat -> nat.

(** The dofs of the system that an element adds to. *)
Abbreviation element_dofs iel :=
  (map (sysdof_of_slot msh mlSol mlPdeSys iel) (local_slots msh mlSol iel)).






(** With the matrix disabled the pass leaves the global matrix as it is. *)
Lemma KK_Assemble_disabled g :
  GetAssembleMatrix mlPdeSys = false ->
  KK (Assemble msh sol mlSol mlPdeSys sizeT g) = KK g.
Proof.
  intros Ha. unfold Assemble. rewrite Ha.
  match goal with
  | |- KK (let '(_, g1) := fold_left ?f ?l ?s in _) = _ =>
      assert (Hinv : KK (snd (fold_left f l s)) = KK g)
  end.
  { apply (fold_left_inv (fun st => KK (snd st) = KK g)); [reflexivity|].
    intros iel [b g'] Hin Hs. exact Hs. }
  destruct (fold_left _ _ _) as [b1 g1]. exact Hinv.
Qed.
End PassFacts.

(** ** [2021_fall/shaflynn]: the Neumann boundary loops *)

Section SumLoops.
Local Open Scope R_scope.

Lemma big_sum_ext n (f g : nat -> R) :
  (forall i, (i < n)%nat -> f i = g i) -> big_sum n f = big_sum n g.
Proof.
  induction n as [|n IH]; intros E; [reflexivity|].
  simpl. rewrite IH by (intros i Hi; apply E; lia). rewrite E by lia. reflexivity.
Qed.

Lemma big_sum_0 n (f : nat -> R) : (forall i, (i < n)%nat -> f i = 0) -> big_sum n f = 0.
Proof.
  induction n as [|n IH]; intros E; [reflexivity|].
  simpl. rewrite IH by (intros i Hi; apply E; lia). rewrite E by lia. lra.
Qed.

(** A loop whose iterations keep the length and add [c j] to the entry [s]. *)
Lemma nth_loop_sum (n : nat) (body : nat -> list R -> list R) (c : nat -> R) (s : nat)
    (Res : list R) :
  (forall j v, length (body j v) = length v) ->
  (forall j v, (j < n)%nat -> (s < length v)%nat -> nth s (body j v) 0 = nth s v 0 + c j) ->
  (s < length Res)%nat ->
  nth s (for_loop n body Res) 0 = nth s Res 0 + big_sum n c.
Proof.
  intros Hlen Hadd Hs. induction n as [|n IH].
  - rewrite for_loop_0. simpl. lra.
  - rewrite for_loop_S, Hadd.
    + rewrite IH by (intros j v Hj; apply Hadd; lia). simpl. lra.
    + lia.
    + rewrite length_for_loop_writes by exact Hlen. exact Hs.
Qed.

(** The loop [for (i < n) Res[idx(i)] += a(i)]. *)
Lemma nth_add_loop (n : nat) (idx : nat -> nat) (a : nat -> R) (s : nat) (Res : list R) :
  (s < length Res)%nat ->
  nth s (for_loop n (fun i Res => <[idx i := nth (idx i) Res 0 + a i]> Res) Res) 0
  = nth s Res 0 + big_sum n (fun i => if idx i =? s then a i else 0).
Proof.
  intros Hs. apply (nth_loop_sum n _ (fun i => if idx i =? s then a i else 0)).
  - intros j v. apply length_insert.
  - intros j v _ Hv. rewrite nth_insert.
    destruct (decide (s = idx j /\ (idx j < length v)%nat)) as [[-> _] | Hn].
    + now rewrite Nat.eqb_refl.
    + destruct (Nat.eqb_spec (idx j) s) as [E | _]; [|lra].
      exfalso. apply Hn. subst s. now split.
  - exact Hs.
Qed.

Lemma length_add_loop (n : nat) (idx : nat -> nat) (a : nat -> list R -> R) (Res : list R) :
  length (for_loop n (fun i Res => <[idx i := a i Res]> Res) Res) = length Res.
Proof. apply length_for_loop_writes. intros i v. apply length_insert. Qed.
End SumLoops.

Section NeumannLoops.
Variable msh : Poisson.Mesh.
Variable geom_element : Poisson.CurrentElem R.
Variable fe : Poisson.FiniteElements R.
Variable bdc : Poisson.BdcFunction R.
Variable solname_u : string.
Variable solFEType_u : nat.
Variable iel : nat.
Variable xType : nat.
Local Open Scope R_scope.

(** What the two loops read for the face [jface] of the element. *)
Abbreviation n_faces := (Poisson.GetElementFaceNumber msh iel).
Abbreviation on_boundary jface := ((Poisson.GetFaceElementIndex msh iel jface <? 0)%Z).
Abbreviation bdc_at jface :=
  (bdc (Poisson.elem_center_bdry_3d geom_element
          (Poisson.coords_at_dofs_bdry_3d geom_element iel jface xType))
       solname_u (Z.to_nat (- (Poisson.GetFaceElementIndex msh iel jface + 1))) 0).
Abbreviation n_dofs_face jface := (Poisson.GetElementFaceDofNumber msh iel jface solFEType_u).
Abbreviation i_vol jface i := (Poisson.GetLocalFaceVertexIndex msh iel jface i).

Lemma length_neumann_loop_1d (Res : list R) :
  length (Poisson.neumann_loop_1d msh geom_element bdc solname_u solFEType_u iel xType Res)
  = length Res.
Proof.
  unfold Poisson.neumann_loop_1d. apply length_for_loop_writes. intros jface v.
  destruct (_ <? _)%Z; [|reflexivity]. destruct (_ && _); [|reflexivity].
  apply length_add_loop.
Qed.

Lemma nth_neumann_loop_1d (Res : list R) (s : nat) :
  (s < length Res)%nat ->
  nth s (Poisson.neumann_loop_1d msh geom_element bdc solname_u solFEType_u iel xType Res) 0
  = nth s Res 0
    + big_sum n_faces (fun jface =>
        if on_boundary jface && negb (fst (bdc_at jface))
        then big_sum (n_dofs_face jface) (fun i =>
               if i_vol jface i =? s then snd (bdc_at jface) else 0)
        else 0).
Proof.
  intros Hs. unfold Poisson.neumann_loop_1d, s0. cbn [sZ Scalar_R].
  apply nth_loop_sum; [| |exact Hs].
  - intros jface v. destruct (_ <? _)%Z; [|reflexivity]. destruct (_ && _); [|reflexivity].
    apply length_add_loop.
  - intros jface v _ Hv. destruct (_ <? _)%Z; cbn [andb]; [|lra].
    destruct (fst (bdc_at jface)); cbn [negb andb]; [lra|].
    cbn [sneb Scalar_R]. destruct (Req_dec_T (snd (bdc_at jface)) 0) as [E | _].
    + rewrite big_sum_0; [lra|]. intros i _. rewrite E. now destruct (_ =? _).
    + now apply nth_add_loop.
Qed.

(** Where every face of the boundary without Dirichlet condition has the
    datum 0, the loop leaves the local residual as it is. *)
Lemma neumann_loop_1d_homogeneous (Res : list R) :
  (forall jface, (jface < n_faces)%nat -> on_boundary jface = true ->
                 fst (bdc_at jface) = false -> snd (bdc_at jface) = 0) ->
  Poisson.neumann_loop_1d msh geom_element bdc solname_u solFEType_u iel xType Res = Res.
Proof.
  intros Hz. unfold Poisson.neumann_loop_1d, s0. cbn [sZ Scalar_R].
  apply (for_loop_ind (fun v => v = Res)); [reflexivity|].
  intros jface v Hj ->. destruct (_ <? _)%Z eqn:Eb; [|reflexivity].
  destruct (fst (bdc_at jface)) eqn:Ed; cbn [negb andb]; [reflexivity|].
  rewrite (Hz jface Hj Eb Ed). cbn [sneb Scalar_R].
  destruct (Req_dec_T 0 0) as [_ | Hn]; [reflexivity | contradiction].
Qed.

(** The determinant, the weight and the shape functions that the loop in
    two and three dimensions reads at the quadrature point [ig] of a face. *)
Abbreviation n_gauss jface :=
  (Poisson.GetGaussPointsNumber fe (Poisson.GetElementFaceType msh iel jface)).
Abbreviation gauss_weight jface ig :=
  (Poisson.GetGaussWeights fe (Poisson.GetElementFaceType msh iel jface) ig).
Abbreviation JJ jface ig :=
  (Poisson.JacJacInv fe (Poisson.GetElementFaceType msh iel jface) xType
     (Poisson.coords_at_dofs_bdry_3d geom_element iel jface xType) ig).
Abbreviation detJac jface ig := (snd (JJ jface ig)).
Abbreviation phi_bdry jface ig :=
  (fst (Poisson.shape_funcs_current_elem fe (Poisson.GetElementFaceType msh iel jface)
          solFEType_u ig (snd (fst (JJ jface ig))))).

Lemma length_neumann_loop_2d3d (Res : list R) :
  length (Poisson.neumann_loop_2d3d msh geom_element fe bdc solname_u solFEType_u iel xType
            Res)
  = length Res.
Proof.
  unfold Poisson.neumann_loop_2d3d. apply length_for_loop_writes. intros jface v.
  destruct (_ <? _)%Z; [|reflexivity]. destruct (negb _); [|reflexivity].
  apply length_for_loop_writes. intros ig w. apply length_add_loop.
Qed.

(** C9: in one dimension the loop adds to each entry of the local residual
    the datum of every face of the boundary without Dirichlet condition,
    once for each dof of the face stored at that entry, with no weight and no
    determinant; faces with a Dirichlet condition and interior faces add
    nothing, and where the data are 0 the local residual is left as it is. *)
Theorem neumann_1d_adds_datum_per_face_dof (Res : list R) (s : nat) :
  (s < length Res)%nat ->
  nth s (Poisson.neumann_loop_1d msh geom_element bdc solname_u solFEType_u iel xType Res) 0
  = nth s Res 0
    + big_sum n_faces (fun jface =>
        if on_boundary jface && negb (fst (bdc_at jface))
        then big_sum (n_dofs_face jface) (fun i =>
               if i_vol jface i =? s then snd (bdc_at jface) else 0)
        else 0)
  /\ ((forall jface, (jface < n_faces)%nat -> on_boundary jface = true ->
                     fst (bdc_at jface) = false -> snd (bdc_at jface) = 0) ->
      Poisson.neumann_loop_1d msh geom_element bdc solname_u solFEType_u iel xType Res = Res).
Proof.
  intros Hs. split; [now apply nth_neumann_loop_1d | apply neumann_loop_1d_homogeneous].
Qed.

End NeumannLoops.

Lemma neumann_1d_adds_datum_per_face_dof_witness :
  nth 0 (Poisson.neumann_loop_1d (TinyPoisson.msh 1) TinyPoisson.geom_element
           TinyPoisson.neumann_2 "d_s" 2 0 2 [0; 0]%R) 0%R
  = (0 + (0 + (0 + 2 + 0)))%R
  /\ nth 1 (Poisson.neumann_loop_1d (TinyPoisson.msh 1) TinyPoisson.geom_element
             TinyPoisson.neumann_2 "d_s" 2 0 2 [0; 0]%R) 0%R
     = (0 + (0 + (0 + 0 + 2)))%R.
Proof.
  split.
  - refine (proj1 (neumann_1d_adds_datum_per_face_dof (TinyPoisson.msh 1)
                     TinyPoisson.geom_element TinyPoisson.neumann_2 "d_s" 2 0 2
                     [0; 0]%R 0 _)).
    simpl. lia.
  - refine (proj1 (neumann_1d_adds_datum_per_face_dof (TinyPoisson.msh 1)
                     TinyPoisson.geom_element TinyPoisson.neumann_2 "d_s" 2 0 2
                     [0; 0]%R 1 _)).
    simpl. lia.
Defined.

(** ** [Conformal/ex7]: the field-split tree of [main] *)

Section FieldSplitFacts.
Import FieldSplit.
Local Open Scope string_scope.

(** Off three dimensions the system has the four unknowns U, V, P, T. *)
Lemma system_not_3d dim : dim <> 3 -> system dim = ["U"; "V"; "P"; "T"].
Proof.
  intros Hd. unfold system. destruct (Nat.eqb_spec dim 3) as [E | _]; [contradiction|].
  reflexivity.
Qed.

(** In three dimensions W is the unknown 3 and T the unknown 4. *)
Lemma system_3d : system 3 = ["U"; "V"; "P"; "W"; "T"].
Proof. reflexivity. Qed.

Lemma fields_of_FS_NST dim :
  fields_of (FS_NST dim) = list_to_set (fieldUVP dim) ∪ (list_to_set (fieldT dim) ∪ ∅).
Proof. reflexivity. Qed.
End FieldSplitFacts.

(** C7: for a mesh that is not three-dimensional, the leaves of the tree
    [FS_NST] that [main] builds span disjoint sets of unknowns, the leaf of
    Navier-Stokes the unknowns U, V, P (0, 1, 2) and the leaf of the
    temperature the unknown T (3), and the tree spans all the unknowns of
    the system. *)
Theorem field_split_tree_partitions_unknowns (dim : nat) :
  dim <> 3 ->
  FieldSplit.siblings_disjoint (FieldSplit.FS_NST dim)
  /\ FieldSplit.fields_of (FieldSplit.FS_NS dim) = {[0; 1; 2]}
  /\ FieldSplit.fields_of (FieldSplit.FS_T dim) = {[3]}
  /\ FieldSplit.fields_of (FieldSplit.FS_NS dim) ## FieldSplit.fields_of (FieldSplit.FS_T dim)
  /\ FieldSplit.fields_of (FieldSplit.FS_NST dim)
     = FieldSplit.unknowns (FieldSplit.system dim).
Proof.
  intros Hd.
  assert (E1 : FieldSplit.fields_of (FieldSplit.FS_NS dim) = {[0; 1; 2]}).
  { unfold FieldSplit.FS_NS, FieldSplit.fieldUVP. rewrite (system_not_3d dim Hd).
    cbn. set_solver. }
  assert (E2 : FieldSplit.fields_of (FieldSplit.FS_T dim) = {[3]}).
  { unfold FieldSplit.FS_T, FieldSplit.fieldT. rewrite (system_not_3d dim Hd).
    cbn. set_solver. }
  assert (E3 : FieldSplit.fields_of (FieldSplit.FS_NST dim) = {[0; 1; 2; 3]}).
  { change (FieldSplit.fields_of (FieldSplit.FS_NST dim))
      with (FieldSplit.fields_of (FieldSplit.FS_NS dim)
            ∪ (FieldSplit.fields_of (FieldSplit.FS_T dim) ∪ ∅)).
    rewrite E1, E2. set_solver. }
  split; [|split; [exact E1|split; [exact E2|split]]].
  - change (FieldSplit.siblings_disjoint (FieldSplit.FS_NST dim))
      with ((Forall (fun y => FieldSplit.fields_of (FieldSplit.FS_NS dim) ## y)
               [FieldSplit.fields_of (FieldSplit.FS_T dim)]
             /\ (Forall (fun y => FieldSplit.fields_of (FieldSplit.FS_T dim) ## y) []
                 /\ True))
            /\ (True /\ (True /\ True))).
    rewrite E1, E2. repeat split; try constructor; try constructor. set_solver.
  - rewrite E1, E2. set_solver.
  - rewrite E3, (system_not_3d dim Hd). cbn. set_solver.
Qed.

Lemma field_split_tree_partitions_unknowns_witness :
  FieldSplit.siblings_disjoint (FieldSplit.FS_NST 2)
  /\ FieldSplit.fields_of (FieldSplit.FS_NS 2) = {[0; 1; 2]}
  /\ FieldSplit.fields_of (FieldSplit.FS_T 2) = {[3]}
  /\ FieldSplit.fields_of (FieldSplit.FS_NS 2) ## FieldSplit.fields_of (FieldSplit.FS_T 2)
  /\ FieldSplit.fields_of (FieldSplit.FS_NST 2) = FieldSplit.unknowns (FieldSplit.system 2).
Proof. apply (field_split_tree_partitions_unknowns 2). lia. Defined.

(** ** [Conformal/ex7]: the selection of the point probe *)

Section ProbeFacts.
Import PointProbe.
Local Open Scope R_scope.

Lemma fold_left_Rmax_spec (l : list R) (x : R) :
  let m := fold_left Rmax l x in
  (m = x \/ In m l) /\ x <= m /\ (forall y, In y l -> y <= m).
Proof.
  revert x. induction l as [|a l IH]; intros x; cbn.
  - repeat split; [now left | lra | intros y []].
  - destruct (IH (Rmax x a)) as (Hin & Hx & Hall). cbv zeta in Hin, Hx, Hall.
    repeat split.
    + destruct Hin as [E | Hin]; [|now right; right].
      rewrite E. unfold Rmax. destruct (Rle_dec x a); [now right; left | now left].
    + pose proof (Rmax_l x a). lra.
    + intros y [<- | Hy]; [pose proof (Rmax_r x a); lra | now apply Hall].
Qed.

Lemma fold_left_Rmin_spec (l : list R) (x : R) :
  let m := fold_left Rmin l x in
  (m = x \/ In m l) /\ m <= x /\ (forall y, In y l -> m <= y).
Proof.
  revert x. induction l as [|a l IH]; intros x; cbn.
  - repeat split; [now left | lra | intros y []].
  - destruct (IH (Rmin x a)) as (Hin & Hx & Hall). cbv zeta in Hin, Hx, Hall.
    repeat split.
    + destruct Hin as [E | Hin]; [|now right; right].
      rewrite E. unfold Rmin. destruct (Rle_dec x a); [now left | now right; left].
    + pose proof (Rmin_l x a). lra.
    + intros y [<- | Hy]; [pose proof (Rmin_r x a); lra | now apply Hall].
Qed.

(** [max()] and [min()] of a vector with an entry are entries of it that
    bound the others. *)
Lemma vec_max_spec (v : list R) :
  v <> [] -> In (vec_max v) v /\ forall y, In y v -> y <= vec_max v.
Proof.
  destruct v as [|x l]; [contradiction|]. intros _. cbn [vec_max].
  destruct (fold_left_Rmax_spec l x) as (Hin & Hx & Hall). cbv zeta in Hin, Hx, Hall.
  split.
  - destruct Hin as [-> | Hin]; [now left | now right].
  - intros y [<- | Hy]; [exact Hx | now apply Hall].
Qed.

Lemma vec_min_spec (v : list R) :
  v <> [] -> In (vec_min v) v /\ forall y, In y v -> vec_min v <= y.
Proof.
  destruct v as [|x l]; [contradiction|]. intros _. cbn [vec_min].
  destruct (fold_left_Rmin_spec l x) as (Hin & Hx & Hall). cbv zeta in Hin, Hx, Hall.
  split.
  - destruct Hin as [-> | Hin]; [now left | now right].
  - intros y [<- | Hy]; [exact Hx | now apply Hall].
Qed.

(** Where the vector holds [v], beyond the threshold, and otherwise only
    zeros, the selection gives [v], whatever the partition held. *)
Lemma select_recovers (out_vec : list R) (v pt : R) :
  In v out_vec -> (forall x, In x out_vec -> x = v \/ x = 0) ->
  Rabs v > 1 / 1000000 ->
  select pt out_vec = v.
Proof.
  intros Hv Hall Hbig.
  assert (Hne : out_vec <> []) by (intros ->; destruct Hv).
  destruct (vec_max_spec out_vec Hne) as [Hmi Hmax].
  destruct (vec_min_spec out_vec Hne) as [Hni Hmin].
  unfold select. cbv zeta.
  assert (H0 : ~ Rabs 0 > 1 / 1000000) by (rewrite Rabs_R0; lra).
  destruct (Hall _ Hmi) as [Emax | Emax], (Hall _ Hni) as [Emin | Emin];
    rewrite Emax, Emin.
  - destruct (Rgt_dec (Rabs v) (1 / 1000000)); [reflexivity | contradiction].
  - destruct (Rgt_dec (Rabs 0) (1 / 1000000)); [contradiction|].
    destruct (Rgt_dec (Rabs v) (1 / 1000000)); [reflexivity | contradiction].
  - destruct (Rgt_dec (Rabs v) (1 / 1000000)); [reflexivity | contradiction].
  - exfalso. pose proof (Hmax v Hv). pose proof (Hmin v Hv).
    assert (v = 0) by lra. subst v. contradiction.
Qed.

Lemma In_insert_repeat_0 (n k : nat) (v x : R) :
  (k < n)%nat ->
  In v (<[k := v]> (repeat 0 n))
  /\ (In x (<[k := v]> (repeat 0 n)) -> x = v \/ x = 0).
Proof.
  intros Hk. split.
  - assert (Hl : (k < length (<[k := v]> (repeat 0%R n)))%nat).
    { rewrite length_insert, repeat_length. exact Hk. }
    pose proof (nth_In _ 0 Hl) as HI. rewrite nth_insert, repeat_length in HI.
    destruct (decide _) as [_ | Hn]; [exact HI | exfalso; apply Hn; now split].
  - intros Hx. apply (In_nth _ _ 0) in Hx. destruct Hx as (i & Hi & <-).
    rewrite nth_insert. destruct (decide _); [now left | right].
    apply nth_repeat.
Qed.
End ProbeFacts.

(** C8 (amended): where one partition holds the probe value, all the others
    hold zero, and the absolute value of the probe value exceeds the
    threshold [1.0e-6] of the selection, every partition returns that
    value, for each of the two probes. *)
Theorem probe_recovered_beyond_threshold (n k : nat) (u v : R) (kineticEnergy : list R)
    (iproc : nat) :
  k < n -> (Rabs u > 1 / 1000000)%R -> (Rabs v > 1 / 1000000)%R ->
  snd (PointProbe.GetKineandPointVlaue kineticEnergy
         (<[k := u]> (repeat 0%R n)) (<[k := v]> (repeat 0%R n)) iproc)
  = [u; v].
Proof.
  intros Hk Hu Hv. unfold PointProbe.GetKineandPointVlaue. cbn [snd].
  destruct (In_insert_repeat_0 n k u u Hk) as [Hiu _].
  destruct (In_insert_repeat_0 n k v v Hk) as [Hiv _].
  rewrite (select_recovers _ u _ Hiu), (select_recovers _ v _ Hiv); try assumption.
  - reflexivity.
  - intros x. now apply In_insert_repeat_0.
  - intros x. now apply In_insert_repeat_0.
Qed.

Lemma probe_recovered_beyond_threshold_witness :
  snd (PointProbe.GetKineandPointVlaue [0; 0]%R
         (<[0 := 1%R]> (repeat 0%R 2)) (<[0 := (-1)%R]> (repeat 0%R 2)) 1)
  = [1; -1]%R.
Proof.
  apply (probe_recovered_beyond_threshold 2 0 1 (-1) [0; 0]%R 1).
  - lia.
  - unfold Rabs. destruct (Rcase_abs 1); lra.
  - unfold Rabs. destruct (Rcase_abs (-1)); lra.
Defined.

(** C8 as stated fails: the probe value [1.0e-7] is not zero, partition 0
    holds it and partition 1 holds zero, and partition 1 returns zero. *)
Lemma probe_below_threshold_is_lost :
  (1 / 10000000 <> 0)%R
  /\ snd (PointProbe.GetKineandPointVlaue [0; 0]%R
            [1 / 10000000; 0]%R [1 / 10000000; 0]%R 1)
     = [0; 0]%R.
Proof.
  split; [lra|].
  assert (E : PointProbe.select 0 [1 / 10000000; 0]%R = 0%R).
  { unfold PointProbe.select, PointProbe.vec_max, PointProbe.vec_min. cbn [fold_left].
    rewrite Rmax_left by lra. rewrite Rmin_right by lra.
    rewrite Rabs_R0, Rabs_pos_eq by lra.
    destruct (Rgt_dec (1 / 10000000) (1 / 1000000)) as [Hgt | _]; [lra|].
    destruct (Rgt_dec 0 (1 / 1000000)) as [Hgt | _]; [lra | reflexivity]. }
  unfold PointProbe.GetKineandPointVlaue. cbn [snd nth]. now rewrite E.
Qed.
(** ** Further properties of the Boussinesq assembly *)

Section ForgetBuffers.
Context {D : Type} `{Scalar D}.
Variable msh : Mesh D.
Variable sol : Solution D.
Variable mlSol : MultiLevelSolution.
Variable mlPdeSys : PdeSystem D.
Variable sizeT : nat -> nat -> nat.
Variable rc : bool.
Variable iel : nat.
Variable b1 b2 : ElemBuffers D.
Hypothesis Hw1 : wf_buffers msh b1.
Hypothesis Hw2 : wf_buffers msh b2.

Abbreviation bb := (fun t : bool => if t then b1 else b2).
Abbreviation q1 :=
  (gauss_loop msh mlSol mlPdeSys rc iel (load_element msh sol mlSol mlPdeSys sizeT rc iel b1)).
Abbreviation q2 :=
  (gauss_loop msh mlSol mlPdeSys rc iel (load_element msh sol mlSol mlPdeSys sizeT rc iel b2)).

Lemma buffers_wf : forall t, wf_buffers msh (bb t).
Proof. intros []; assumption. Qed.

Lemma buffers_related :
  Related bool msh mlSol iel same_adouble
    (after_gauss bool (fun _ => rc) msh sol mlSol mlPdeSys iel (fun _ => sizeT) bb).
Proof.
  apply (after_gauss_fam bool true (fun _ => rc) same_adouble
           (HP := same_adouble_closed rc) msh sol mlSol mlPdeSys iel
           (fun _ => sizeT) bb buffers_wf).
  - intros i _ t t' Hi. exact Hi.
  - intros s d. split; reflexivity.
Qed.

(** What an element computes does not depend on what the local vectors
    held when it started. *)
Lemma element_outputs_forget_buffers (s : Stack D) :
  store_residual msh mlSol iel q1 = store_residual msh mlSol iel q2
  /\ sysDof q1 = sysDof q2
  /\ jacobian (declare_independents msh mlSol iel (declare_dependents msh mlSol iel q1 s))
     = jacobian (declare_independents msh mlSol iel (declare_dependents msh mlSol iel q2 s)).
Proof.
  split; [|split].
  - assert (E : CD bool (fun t => store_residual msh mlSol iel
                (after_gauss bool (fun _ => rc) msh sol mlSol mlPdeSys iel
                   (fun _ => sizeT) bb t))).
    { apply (store_residual_fam bool true (fun _ => rc) same_adouble
               (HP := same_adouble_closed rc) msh sol mlSol mlPdeSys iel
               (fun _ => sizeT) bb buffers_wf).
      - intros i _ t t' Hi. exact Hi.
      - intros s' d. split; reflexivity.
      - intros f [Hf _] [] []; congruence. }
    exact (E true false).
  - pose proof (sysDof_after_gauss bool (fun _ => rc) msh sol mlSol mlPdeSys iel
                  (fun _ => sizeT) bb) as E.
    exact (eq_trans (E true) (eq_sym (E false))).
  - unfold jacobian.
    rewrite !independents_declared, !dependents_declare_independents, !dependents_declared.
    rewrite !independents_declare_dependents, !flat_map_app. f_equal.
    apply flat_map_map_ext. intros sl Hsl.
    apply (In_nth _ _ (SlotT 0)) in Hsl. destruct Hsl as (r & Hr & <-).
    rewrite length_local_slots in Hr. rewrite nth_local_slots by exact Hr.
    apply map_ext. intros x.
    pose proof (residual_at_fam bool same_adouble msh mlSol iel _ r buffers_related Hr)
      as [_ Hp].
    apply Hp.
Qed.
End ForgetBuffers.

(** X1: the local vectors are declared before the element loop and reused;
    what an element adds to the global system and leaves in the recording
    does not depend on what they held from the previous element. *)
Theorem element_contribution_forgets_previous_vectors {D} `{Scalar D}
    (msh : Mesh D) (sol : Solution D) (mlSol : MultiLevelSolution) (mlPdeSys : PdeSystem D)
    (assembleMatrix : bool) (iel : nat) (b b' : ElemBuffers D) (g : AsmState D) :
  wf_buffers msh b -> wf_buffers msh b' ->
  let sizeV := fun nDofsT nDofsV : nat => nDofsV in
  let st := assemble_element msh sol mlSol mlPdeSys sizeV assembleMatrix iel (b, g) in
  let st' := assemble_element msh sol mlSol mlPdeSys sizeV assembleMatrix iel (b', g) in
  Res (fst st) = Res (fst st')
  /\ sysDof (fst st) = sysDof (fst st')
  /\ stack (snd st) = stack (snd st')
  /\ RES (snd st) = RES (snd st')
  /\ KK (snd st) = KK (snd st').
Proof.
  intros Hw Hw'. cbv zeta.
  destruct (element_outputs_forget_buffers msh sol mlSol mlPdeSys (fun _ nV => nV)
              (recording (stack g)) iel b b' Hw Hw' (stack g)) as (Eres & Edof & Ejac).
  unfold assemble_element.
  destruct assembleMatrix; cbn [fst snd set_Res_Jac Res sysDof stack RES KK];
    rewrite ?Eres, ?Edof.
  - repeat split; try reflexivity.
    + unfold clear_dependents, clear_independents. cbn [recording independents dependents].
      now rewrite !recording_declare_independents, !recording_declare_dependents.
    + f_equal. rewrite !store_at_0_all; [exact Ejac | |];
        rewrite length_resize, length_jacobian, independents_declared,
          dependents_declare_independents, dependents_declared, !length_app, length_map,
          length_local_slots; nia.
  - repeat split; reflexivity.
Qed.

Lemma element_contribution_forgets_previous_vectors_witness :
  let sizeV := fun nDofsT nDofsV : nat => nDofsV in
  let b := initial_buffers Tiny.msh in
  let b' := fst (assemble_element Tiny.msh Tiny.sol Tiny.mlSol Tiny.pde sizeV true 0
                   (b, Tiny.clean)) in
  let st := assemble_element Tiny.msh Tiny.sol Tiny.mlSol Tiny.pde sizeV true 0
              (b, Tiny.clean) in
  let st' := assemble_element Tiny.msh Tiny.sol Tiny.mlSol Tiny.pde sizeV true 0
               (b', Tiny.clean) in
  Res (fst st) = Res (fst st')
  /\ sysDof (fst st) = sysDof (fst st')
  /\ stack (snd st) = stack (snd st')
  /\ RES (snd st) = RES (snd st')
  /\ KK (snd st) = KK (snd st').
Proof.
  cbv zeta.
  apply (element_contribution_forgets_previous_vectors Tiny.msh Tiny.sol Tiny.mlSol
           Tiny.pde true 0).
  - apply wf_initial_buffers.
  - apply wf_assemble_element, wf_initial_buffers.
Defined.

Section PassRecording.
Context {D : Type} `{Scalar D}.
Variable msh : Mesh D.
Variable sol : Solution D.
Variable mlSol : MultiLevelSolution.
Variable mlPdeSys : PdeSystem D.
Variable sizeT : nat -> nat -> nat.

(** With the matrix enabled an element clears what it declared. *)
Lemma stack_assemble_element_enabled iel b g :
  stack (snd (assemble_element msh sol mlSol mlPdeSys sizeT true iel (b, g)))
  = fresh_stack (recording (stack g)).
Proof.
  unfold assemble_element, fresh_stack, clear_dependents, clear_independents.
  cbn [snd stack recording independents dependents].
  now rewrite recording_declare_independents, recording_declare_dependents.
Qed.

Lemma stack_assemble_element_disabled iel b g :
  stack (snd (assemble_element msh sol mlSol mlPdeSys sizeT false iel (b, g))) = stack g.
Proof. reflexivity. Qed.

(** The elements of an enabled pass that starts with nothing declared all
    find the recording on and nothing declared. *)
Lemma stack_fold_enabled (l : list nat) b g :
  stack g = fresh_stack true ->
  stack (snd (fold_left (fun st iel => assemble_element msh sol mlSol mlPdeSys sizeT true iel st)
                l (b, g)))
  = fresh_stack true.
Proof.
  intros Hg.
  apply (fold_left_inv (fun st => stack (snd st) = fresh_stack true)); [exact Hg|].
  intros iel [b' g'] _ Hs. cbn [snd] in Hs.
  now rewrite stack_assemble_element_enabled, Hs.
Qed.

Lemma stack_fold_disabled (l : list nat) b g :
  stack (snd (fold_left (fun st iel => assemble_element msh sol mlSol mlPdeSys sizeT false iel st)
                l (b, g)))
  = stack g.
Proof.
  apply (fold_left_inv (fun st => stack (snd st) = stack g)); [reflexivity|].
  intros iel [b' g'] _ Hs. exact Hs.
Qed.

End PassRecording.

(** X2: a pass with the matrix disabled leaves the global matrix as it is,
    and the recording paused with what was declared in it. *)
Theorem disabled_pass_leaves_matrix_and_declarations {D} `{Scalar D}
    (msh : Mesh D) (sol : Solution D) (mlSol : MultiLevelSolution) (mlPdeSys : PdeSystem D)
    (g : AsmState D) :
  GetAssembleMatrix mlPdeSys = false ->
  KK (AssembleBoussinesqAppoximation_AD msh sol mlSol mlPdeSys g) = KK g
  /\ stack (AssembleBoussinesqAppoximation_AD msh sol mlSol mlPdeSys g)
     = pause_recording (stack g).
Proof.
  intros Ha. split.
  - now apply KK_Assemble_disabled.
  - unfold AssembleBoussinesqAppoximation_AD, Assemble. rewrite Ha.
    match goal with
    | |- stack (let '(_, g1) := fold_left ?f ?l (?b, ?g0) in _) = _ =>
        pose proof (stack_fold_disabled msh sol mlSol mlPdeSys (fun _ nV => nV) l b g0) as E
    end.
    destruct (fold_left _ _ _) as [b1 g1]. exact E.
Qed.

Lemma disabled_pass_leaves_matrix_and_declarations_witness :
  KK (AssembleBoussinesqAppoximation_AD Tiny.msh Tiny.sol Tiny.mlSol
        (SetAssembleMatrix false Tiny.pde) Tiny.stale)
  = KK Tiny.stale
  /\ stack (AssembleBoussinesqAppoximation_AD Tiny.msh Tiny.sol Tiny.mlSol
              (SetAssembleMatrix false Tiny.pde) Tiny.stale)
     = pause_recording (stack Tiny.stale).
Proof.
  apply (disabled_pass_leaves_matrix_and_declarations Tiny.msh Tiny.sol Tiny.mlSol
           (SetAssembleMatrix false Tiny.pde) Tiny.stale).
  reflexivity.
Defined.

(** X3: in a pass with the matrix enabled that starts with nothing declared
    in the recording, every element finds the recording on and nothing
    declared, and so does the end of the pass; the global matrix that the
    pass leaves does not depend on the matrix it started from. *)
Theorem enabled_pass_starts_each_element_afresh {D} `{Scalar D}
    (msh : Mesh D) (sol : Solution D) (mlSol : MultiLevelSolution) (mlPdeSys : PdeSystem D)
    (g : AsmState D) :
  GetAssembleMatrix mlPdeSys = true ->
  independents (stack g) = [] -> dependents (stack g) = [] ->
  let sizeV := fun nDofsT nDofsV : nat => nDofsV in
  let g0 := {| stack := continue_recording (stack g); RES := RES g; KK := mat_zero |} in
  (forall done rest, owned_elements msh = done ++ rest ->
     stack (snd (fold_left
                   (fun st iel => assemble_element msh sol mlSol mlPdeSys sizeV true iel st)
                   done (initial_buffers msh, g0)))
     = fresh_stack true)
  /\ stack (AssembleBoussinesqAppoximation_AD msh sol mlSol mlPdeSys g) = fresh_stack true
  /\ (forall M r c,
        KK (AssembleBoussinesqAppoximation_AD msh sol mlSol mlPdeSys g) r c
        = KK (AssembleBoussinesqAppoximation_AD msh sol mlSol mlPdeSys
                {| stack := stack g; RES := RES g; KK := M |}) r c).
Proof.
  intros Ha Hi Hd. cbv zeta.
  assert (H0 : continue_recording (stack g) = fresh_stack true).
  { unfold continue_recording, fresh_stack. now rewrite Hi, Hd. }
  split; [|split].
  - intros done rest _. now apply stack_fold_enabled.
  - unfold AssembleBoussinesqAppoximation_AD, Assemble. rewrite Ha.
    match goal with
    | |- stack (let '(_, g1) := fold_left ?f ?l (?b, ?g0) in _) = _ =>
        pose proof (stack_fold_enabled msh sol mlSol mlPdeSys (fun _ nV => nV) l b g0 H0) as E
    end.
    destruct (fold_left _ _ _) as [b1 g1]. exact E.
  - intros M r c. unfold AssembleBoussinesqAppoximation_AD, Assemble. rewrite Ha.
    reflexivity.
Qed.

Lemma enabled_pass_starts_each_element_afresh_witness :
  stack (AssembleBoussinesqAppoximation_AD Tiny.msh Tiny.sol Tiny.mlSol Tiny.pde Tiny.stale)
  = fresh_stack true
  /\ (forall M r c,
        KK (AssembleBoussinesqAppoximation_AD Tiny.msh Tiny.sol Tiny.mlSol Tiny.pde Tiny.stale)
           r c
        = KK (AssembleBoussinesqAppoximation_AD Tiny.msh Tiny.sol Tiny.mlSol Tiny.pde
                {| stack := stack Tiny.stale; RES := RES Tiny.stale; KK := M |}) r c).
Proof.
  exact (proj2 (enabled_pass_starts_each_element_afresh Tiny.msh Tiny.sol Tiny.mlSol Tiny.pde
                  Tiny.stale eq_refl eq_refl eq_refl)).
Defined.

(** X4: the quadrature loop changes the residuals [aResT], [aResV], [aResP]
    only: the unknowns, the old values, the coordinates, the dof map and
    the vectors [Res] and [Jac] are after the loop as they were before. *)
Theorem quadrature_loop_changes_residuals_only {D} `{Scalar D}
    (msh : Mesh D) (mlSol : MultiLevelSolution) (mlPdeSys : PdeSystem D)
    (rec : bool) (iel : nat) (b : ElemBuffers D) :
  let b' := gauss_loop msh mlSol mlPdeSys rec iel b in
  solT b' = solT b /\ solV b' = solV b /\ solP b' = solP b
  /\ solTold b' = solTold b /\ solVold b' = solVold b /\ solPold b' = solPold b
  /\ coordX b' = coordX b /\ sysDof b' = sysDof b /\ Res b' = Res b /\ Jac b' = Jac b.
Proof.
  cbv zeta.
  destruct (gauss_loop_unchanged msh mlSol mlPdeSys rec iel b)
    as (E1 & E2 & E3 & E4 & E5 & E6 & E7 & E8 & E9 & E10 & _).
  now repeat split.
Qed.

(** X5: where the temperature has no more dofs than the velocity, the
    element loads every unknown as a leaf of the recording at its own
    location, holding the value of the solution at the dof of the node, and
    sets every residual to zero, whatever the local vectors held. *)
Theorem loaded_unknowns_are_leaves_holding_the_solution {D} `{Scalar D}
    (msh : Mesh D) (sol : Solution D) (mlSol : MultiLevelSolution) (mlPdeSys : PdeSystem D)
    (rec : bool) (iel : nat) (b0 : ElemBuffers D) (s : slot) :
  wf_buffers msh b0 ->
  nDofsT msh mlSol iel <= nDofsV msh mlSol iel ->
  local_slot msh mlSol iel s ->
  let b1 := load_element msh sol mlSol mlPdeSys (fun nDofsT nDofsV => nDofsV) rec iel b0 in
  unknown_at b1 s = leaf rec s (loaded_value msh mlSol iel sol s)
  /\ residual_at b1 s = aconst s0.
Proof.
  intros Hwf HTV Hs. cbv zeta. split.
  - apply unknown_at_load; [exact Hwf | exact Hs |].
    destruct s as [i | k i | i]; cbn [local_slot in_vectors] in *.
    + rewrite length_solT_load. lia.
    + destruct Hs as [Hk Hi]. rewrite length_solV_load by exact Hwf.
      split; [exact Hk|]. rewrite nth_solV_load by assumption.
      now rewrite length_map, length_seq.
    + rewrite solP_load. now rewrite length_map, length_seq.
  - now apply residual_at_load.
Qed.

Lemma loaded_unknowns_are_leaves_holding_the_solution_witness :
  let b1 := load_element Tiny.msh Tiny.sol Tiny.mlSol Tiny.pde (fun nDofsT nDofsV => nDofsV)
              true 0 (initial_buffers Tiny.msh) in
  unknown_at b1 (SlotV 1 0)
  = leaf true (SlotV 1 0) (loaded_value Tiny.msh Tiny.mlSol 0 Tiny.sol (SlotV 1 0))
  /\ residual_at b1 (SlotV 1 0) = aconst s0.
Proof.
  cbv zeta.
  apply (loaded_unknowns_are_leaves_holding_the_solution Tiny.msh Tiny.sol Tiny.mlSol
           Tiny.pde true 0 (initial_buffers Tiny.msh) (SlotV 1 0)).
  - apply wf_initial_buffers.
  - vm_compute. lia.
  - vm_compute. lia.
Defined.

Section PressureRow.
Local Open Scope R_scope.

Lemma big_sum_scal n (c : R) (f : nat -> R) :
  big_sum n (fun k => c * f k) = c * big_sum n f.
Proof. induction n as [|n IH]; simpl; [lra | rewrite IH; lra]. Qed.

End PressureRow.


(** ** Further properties of [main] and of the point probe *)

(** X7: the tree [FS_NST] that [main] builds spans all the unknowns of the
    system exactly when the mesh is not three-dimensional: in three
    dimensions W is added to the system as unknown 3, between P and T, and
    is a field of neither leaf. *)
Theorem field_split_tree_spans_system_iff_not_3d (dim : nat) :
  FieldSplit.fields_of (FieldSplit.FS_NST dim) = FieldSplit.unknowns (FieldSplit.system dim)
  <-> dim <> 3.
Proof.
  split.
  - intros E ->.
    assert (H3 : 3 ∈ FieldSplit.unknowns (FieldSplit.system 3)).
    { rewrite system_3d. cbn. set_solver. }
    rewrite <- E in H3. rewrite fields_of_FS_NST in H3.
    unfold FieldSplit.fieldUVP, FieldSplit.fieldT in H3. rewrite system_3d in H3.
    cbn in H3. set_solver.
  - intros Hd. rewrite fields_of_FS_NST.
    unfold FieldSplit.fieldUVP, FieldSplit.fieldT. rewrite (system_not_3d dim Hd).
    cbn. set_solver.
Qed.

(** X8: where no partition holds a value beyond the threshold [1.0e-6] (the
    probed node was found by no partition, or the velocity there is that
    small), the selection leaves to every partition the value it had. *)
Theorem select_keeps_local_value_within_threshold (out_vec : list R) (pt : R) :
  (forall x, In x out_vec -> (Rabs x <= 1 / 1000000)%R) ->
  PointProbe.select pt out_vec = pt.
Proof.
  intros Hall. unfold PointProbe.select. cbv zeta.
  assert (H0 : (Rabs 0 <= 1 / 1000000)%R) by (rewrite Rabs_R0; lra).
  assert (Hmax : (Rabs (PointProbe.vec_max out_vec) <= 1 / 1000000)%R).
  { destruct out_vec as [|x l]; [exact H0|].
    apply Hall. apply vec_max_spec. discriminate. }
  assert (Hmin : (Rabs (PointProbe.vec_min out_vec) <= 1 / 1000000)%R).
  { destruct out_vec as [|x l]; [exact H0|].
    apply Hall. apply vec_min_spec. discriminate. }
  destruct (Rgt_dec _ _) as [Hgt | _]; [lra|].
  destruct (Rgt_dec _ _) as [Hgt | _]; [lra | reflexivity].
Qed.

Lemma select_keeps_local_value_within_threshold_witness :
  PointProbe.select 5 [0; 0; 0]%R = 5%R.
Proof.
  apply (select_keeps_local_value_within_threshold [0; 0; 0]%R 5).
  intros x [<- | [<- | [<- | []]]]; rewrite Rabs_R0; lra.
Defined.
(** ** Further properties of the Poisson assembly *)

Lemma for_loop_rel {S1 S2} (R : S1 -> S2 -> Prop) n (body1 : nat -> S1 -> S1)
    (body2 : nat -> S2 -> S2) s1 s2 :
  R s1 s2 ->
  (forall i x y, i < n -> R x y -> R (body1 i x) (body2 i y)) ->
  R (for_loop n body1 s1) (for_loop n body2 s2).
Proof.
  intros H0 Hstep. induction n as [|n IH]; [exact H0|].
  rewrite !for_loop_S. apply Hstep; [lia|]. apply IH. intros i x y Hi. apply Hstep. lia.
Qed.

Lemma insert_nth_same {A} (l : list A) i (d : A) : <[i := nth i l d]> l = l.
Proof.
  apply (nth_ext _ _ d d); [now rewrite length_insert|].
  intros j _. rewrite nth_insert. destruct (decide _) as [[-> _] | _]; reflexivity.
Qed.

Lemma vfill_resize {A} (x d : A) n (v : list A) : vfill x (resize d n v) = repeat x n.
Proof.
  apply (nth_ext _ _ x x).
  - unfold vfill. now rewrite length_map, length_resize, repeat_length.
  - intros i _. now rewrite nth_vfill, nth_repeat.
Qed.

Lemma resize_0 {A} (d : A) (v : list A) : resize d 0 v = [].
Proof. reflexivity. Qed.

Section PoissonElement.
Context {D : Type} `{Scalar D}.
Variable msh : Poisson.Mesh.
Variable geom_element : Poisson.CurrentElem D.
Variable fe : Poisson.FiniteElements D.
Variable bdc : Poisson.BdcFunction D.
Variable solname_u : string.
Variable solFEType_u : nat.
Variable sol_Sol : nat -> nat -> D.
Variable GetIndex : string -> nat.
Variable GetSolPdeIndex : string -> nat.
Variable GetSystemDof : nat -> nat -> nat -> nat -> nat.

Abbreviation element am :=
  (Poisson.assemble_element msh geom_element fe bdc solname_u solFEType_u sol_Sol GetIndex
     GetSolPdeIndex GetSystemDof am).
Abbreviation pass am :=
  (Poisson.AssembleProblemDirNeu msh geom_element fe bdc solname_u solFEType_u sol_Sol
     GetIndex GetSolPdeIndex GetSystemDof am).
Abbreviation nDof iel := (Poisson.nDof_u msh solFEType_u iel).

(** The residual of a quadrature point does not read the Jacobian nor the
    flag. *)
Lemma volume_point_residual am am' iel sol_u i_qp (Rs J J' : list D) :
  fst (Poisson.volume_point msh geom_element fe solFEType_u am iel sol_u i_qp (Rs, J))
  = fst (Poisson.volume_point msh geom_element fe solFEType_u am' iel sol_u i_qp (Rs, J')).
Proof.
  unfold Poisson.volume_point.
  apply (for_loop_rel (fun x y : list D * list D => fst x = fst y)); [reflexivity|].
  intros i x y _ E. cbn [fst]. now rewrite E.
Qed.

Lemma volume_loop_residual am am' iel sol_u n (Rs J J' : list D) :
  fst (for_loop n (Poisson.volume_point msh geom_element fe solFEType_u am iel sol_u) (Rs, J))
  = fst (for_loop n (Poisson.volume_point msh geom_element fe solFEType_u am' iel sol_u)
           (Rs, J')).
Proof.
  apply (for_loop_rel (fun x y : list D * list D => fst x = fst y)); [reflexivity|].
  intros i [r1 j1] [r2 j2] _ E. cbn [fst] in E. subst r2. apply volume_point_residual.
Qed.

(** The solution values and the dof map of the element, loaded whatever
    the local vectors held. *)
Lemma sol_u_loaded iel (v : list D) :
  vec_update_loop dflt (length (resize dflt (nDof iel) v))
    (fun i _ => sol_Sol (Poisson.solIndex_u solname_u GetIndex)
                  (Poisson.GetSolutionDof msh i iel solFEType_u))
    (resize dflt (nDof iel) v)
  = map (fun i => sol_Sol (Poisson.solIndex_u solname_u GetIndex)
                    (Poisson.GetSolutionDof msh i iel solFEType_u))
        (seq 0 (nDof iel)).
Proof.
  rewrite length_resize. apply vec_update_loop_tabulate, length_resize.
Qed.

Lemma l2GMap_loaded iel (v : list D) (w : list nat) :
  vec_update_loop dflt (length (resize dflt (nDof iel) v))
    (fun i _ => GetSystemDof (Poisson.solIndex_u solname_u GetIndex)
                  (Poisson.solPdeIndex_u solname_u GetSolPdeIndex) i iel)
    (resize dflt (nDof iel) w)
  = map (fun i => GetSystemDof (Poisson.solIndex_u solname_u GetIndex)
                    (Poisson.solPdeIndex_u solname_u GetSolPdeIndex) i iel)
        (seq 0 (nDof iel)).
Proof.
  rewrite length_resize. apply vec_update_loop_tabulate, length_resize.
Qed.

(** What an element adds to the global residual depends neither on the
    flag nor on what the local vectors and the global matrix held. *)
Lemma element_residual am am' iel b b' (RES : NumericVector D) (JAC JAC' : SparseMatrix D) :
  fst (snd (element am iel (b, (RES, JAC)))) = fst (snd (element am' iel (b', (RES, JAC')))).
Proof.
  unfold Poisson.assemble_element. cbn [fst snd].
  rewrite !sol_u_loaded, !l2GMap_loaded, !vfill_resize, !resize_0.
  f_equal. apply volume_loop_residual.
Qed.

Lemma element_matrix_disabled iel st : snd (snd (element false iel st)) = snd (snd st).
Proof. reflexivity. Qed.

Lemma pass_residual am am' (g g' : NumericVector D * SparseMatrix D) :
  fst (pass am g) = fst (pass am' g').
Proof.
  unfold Poisson.AssembleProblemDirNeu. cbn [fst]. unfold vec_close.
  pose (Rel := fun s1 s2 : Poisson.ElemBuffers D * (NumericVector D * SparseMatrix D) =>
          fst (snd s1) = fst (snd s2)).
  match goal with |- fst (snd ?a) = fst (snd ?b) => change (Rel a b) end.
  apply (fold_left_rel Rel); [reflexivity|].
  intros iel [b1 [R1 J1]] [b2 [R2 J2]] _ E. unfold Rel in *. cbn [fst snd] in E. subst R2.
  apply element_residual.
Qed.

Lemma pass_matrix_disabled (g : NumericVector D * SparseMatrix D) :
  snd (pass false g) = snd g.
Proof.
  unfold Poisson.AssembleProblemDirNeu. cbn [snd].
  apply (fold_left_inv
           (fun st : Poisson.ElemBuffers D * (NumericVector D * SparseMatrix D) =>
              snd (snd st) = snd g)); [reflexivity|].
  intros iel st _ E. now rewrite element_matrix_disabled.
Qed.
End PoissonElement.

(** X9: the pass of the Poisson application zeroes the global residual and
    fills the local vectors anew for each element: the residual it leaves is
    the same with the matrix enabled and disabled, and whatever the global
    system held when the pass started; with the matrix disabled the pass
    leaves the global matrix as it is. *)
Theorem poisson_pass_residual_ignores_flag_and_incoming_system {D} `{Scalar D}
    (msh : Poisson.Mesh) (geom_element : Poisson.CurrentElem D)
    (fe : Poisson.FiniteElements D) (bdc : Poisson.BdcFunction D) (solname_u : string)
    (solFEType_u : nat) (sol_Sol : nat -> nat -> D) (GetIndex GetSolPdeIndex : string -> nat)
    (GetSystemDof : nat -> nat -> nat -> nat -> nat)
    (g g' : NumericVector D * SparseMatrix D) :
  fst (Poisson.AssembleProblemDirNeu msh geom_element fe bdc solname_u solFEType_u sol_Sol
         GetIndex GetSolPdeIndex GetSystemDof false g)
  = fst (Poisson.AssembleProblemDirNeu msh geom_element fe bdc solname_u solFEType_u sol_Sol
           GetIndex GetSolPdeIndex GetSystemDof true g')
  /\ snd (Poisson.AssembleProblemDirNeu msh geom_element fe bdc solname_u solFEType_u sol_Sol
            GetIndex GetSolPdeIndex GetSystemDof false g)
     = snd g.
Proof.
  split; [apply pass_residual | apply pass_matrix_disabled].
Qed.

Section NeumannDead.
Variable mesh_dim : nat.
Variable msh : Poisson.Mesh.
Variable geom_element : Poisson.CurrentElem R.
Variable fe : Poisson.FiniteElements R.
Variable solname_u : string.
Variable solFEType_u : nat.
Variable iel : nat.
Variable xType : nat.

(** The boundary function of the application gives the value 0 on every
    face, with or without Dirichlet condition. *)
Lemma SetBoundaryCondition_value {D} `{Scalar D} dim (x : list D) name face time :
  snd (Poisson.SetBoundaryCondition dim x name face time) = s0.
Proof.
  unfold Poisson.SetBoundaryCondition.
  repeat (destruct (_ =? _); try reflexivity).
Qed.

Lemma add_zero_loop (n : nat) (idx : nat -> nat) (a : nat -> R) (Res : list R) :
  (forall i, a i = 0%R) ->
  for_loop n (fun i Res => <[idx i := (nth (idx i) Res 0 + a i)%R]> Res) Res = Res.
Proof.
  intros Ha. apply (for_loop_ind (fun v => v = Res)); [reflexivity|].
  intros i v _ ->. rewrite Ha, Rplus_0_r. apply insert_nth_same.
Qed.

Lemma neumann_loop_2d3d_homogeneous (bdc : Poisson.BdcFunction R) (Res : list R) :
  (forall x name face time, snd (bdc x name face time) = 0%R) ->
  Poisson.neumann_loop_2d3d msh geom_element fe bdc solname_u solFEType_u iel xType Res
  = Res.
Proof.
  intros Hz. unfold Poisson.neumann_loop_2d3d.
  apply (for_loop_ind (fun v => v = Res)); [reflexivity|].
  intros jface v _ ->. destruct (_ <? _)%Z; [|reflexivity].
  destruct (negb _); [|reflexivity].
  apply (for_loop_ind (fun v => v = Res)); [reflexivity|].
  intros ig v _ ->. cbv zeta.
  apply (add_zero_loop _ _ (fun i => _)).
  intros i. rewrite Hz. cbn. ring.
Qed.
End NeumannDead.

(** X10: with the boundary function [SetBoundaryCondition] of the
    application, which gives the value 0 on every face, the Neumann loops in
    one, two and three dimensions leave the local residual as it is: the
    boundary integral adds nothing to the system. *)
Theorem poisson_neumann_loops_add_nothing
    (mesh_dim : nat) (msh : Poisson.Mesh) (geom_element : Poisson.CurrentElem R)
    (fe : Poisson.FiniteElements R) (solname_u : string) (solFEType_u iel xType : nat)
    (Res : list R) :
  Poisson.neumann_loop_1d msh geom_element (Poisson.SetBoundaryCondition mesh_dim)
    solname_u solFEType_u iel xType Res = Res
  /\ Poisson.neumann_loop_2d3d msh geom_element fe (Poisson.SetBoundaryCondition mesh_dim)
       solname_u solFEType_u iel xType Res = Res.
Proof.
  split.
  - apply neumann_loop_1d_homogeneous. intros jface _ _ _.
    exact (SetBoundaryCondition_value (D := R) mesh_dim _ _ _ _).
  - apply neumann_loop_2d3d_homogeneous. intros x name face time.
    exact (SetBoundaryCondition_value (D := R) mesh_dim x name face time).
Qed.

Section IndicatorSums.
Local Open Scope R_scope.

Lemma big_sum_single n (k : nat) (a : nat -> R) :
  (k < n)%nat -> big_sum n (fun j => if j =? k then a j else 0) = a k.
Proof.
  induction n as [|n IH]; intros Hk; [lia|]. simpl.
  destruct (Nat.eqb_spec n k) as [-> | Hne].
  - rewrite big_sum_0; [lra|]. intros i Hi.
    destruct (Nat.eqb_spec i k); [lia | reflexivity].
  - rewrite IH by lia. lra.
Qed.

(** The entry [i0 * n + j0] of a row-major block is the entry of row [i0],
    column [j0]. *)
Lemma big_sum_row_major n (i0 j0 : nat) (a : nat -> nat -> R) :
  (i0 < n)%nat -> (j0 < n)%nat ->
  big_sum n (fun i => big_sum n (fun j =>
    if (i * n + j =? i0 * n + j0)%nat then a i j else 0)) = a i0 j0.
Proof.
  intros Hi Hj.
  rewrite (big_sum_ext n _ (fun i => if i =? i0 then a i j0 else 0)).
  - now apply (big_sum_single n i0 (fun i => a i j0)).
  - intros i Hin. destruct (Nat.eqb_spec i i0) as [-> | Hne].
    + rewrite (big_sum_ext n _ (fun j => if j =? j0 then a i0 j else 0)).
      * now apply (big_sum_single n j0 (fun j => a i0 j)).
      * intros j Hjn. destruct (Nat.eqb_spec j j0) as [-> | Hn'].
        -- now rewrite Nat.eqb_refl.
        -- destruct (Nat.eqb_spec (i0 * n + j) (i0 * n + j0)); [lia | reflexivity].
    + apply big_sum_0. intros j Hjn.
      destruct (Nat.eqb_spec (i * n + j) (i0 * n + j0)) as [E | _]; [|reflexivity].
      exfalso. apply Hne. nia.
Qed.
End IndicatorSums.

Section PoissonJacobian.
Variable msh : Poisson.Mesh.
Variable geom_element : Poisson.CurrentElem R.
Variable fe : Poisson.FiniteElements R.
Variable bdc : Poisson.BdcFunction R.
Variable solname_u : string.
Variable solFEType_u : nat.
Variable sol_Sol : nat -> nat -> R.
Variable GetIndex : string -> nat.
Variable GetSolPdeIndex : string -> nat.
Variable GetSystemDof : nat -> nat -> nat -> nat -> nat.
Variable iel : nat.
Local Open Scope R_scope.

Abbreviation n := (Poisson.nDof_u msh solFEType_u iel).
Abbreviation geom := (Poisson.ielGeom geom_element iel).
Abbreviation JJv q :=
  (Poisson.JacJacInv fe geom Poisson.xType
     (Poisson.coords_at_dofs_3d geom_element iel Poisson.xType) q).
(** The weight and the gradients of the shape functions at the quadrature
    point [q] of the element. *)
Abbreviation jacXweight q := (snd (JJv q) * Poisson.GetGaussWeights fe geom q).
Abbreviation phi_u_x q :=
  (snd (Poisson.shape_funcs_current_elem fe geom solFEType_u q (snd (fst (JJv q))))).
Abbreviation laplace q i j :=
  (big_sum Poisson.space_dim (fun k =>
     nth (i * Poisson.space_dim + k) (phi_u_x q) 0
     * nth (j * Poisson.space_dim + k) (phi_u_x q) 0)).

(** The loops of a quadrature point on [Jac] alone. *)
Abbreviation jac_step q :=
  (fun J : list R =>
     for_loop n (fun i J =>
       for_loop n (fun j J =>
         <[(i * n + j)%nat := nth (i * n + j) J 0 + jacXweight q * laplace q i j]> J) J) J).

Lemma laplace_loop q i j :
  for_loop Poisson.space_dim (fun kdim acc =>
    acc + nth (i * Poisson.space_dim + kdim) (phi_u_x q) 0
          * nth (j * Poisson.space_dim + kdim) (phi_u_x q) 0) 0
  = laplace q i j.
Proof. unfold Poisson.space_dim. cbn. ring. Qed.

Lemma volume_point_jacobian sol_u q (Rs J : list R) :
  snd (Poisson.volume_point msh geom_element fe solFEType_u true iel sol_u q (Rs, J))
  = jac_step q J.
Proof.
  unfold Poisson.volume_point.
  apply (for_loop_rel (fun (x : list R * list R) (y : list R) => snd x = y)); [reflexivity|].
  intros i [r1 j1] y Hi E. cbn [snd] in E. subst y. cbn [snd].
  apply (for_loop_rel (fun (x y : list R) => x = y)); [reflexivity|].
  intros j x y Hj ->.
  assert (Ei : (i <? n)%nat = true) by now apply Nat.ltb_lt.
  assert (Ej : (j <? n)%nat = true) by now apply Nat.ltb_lt.
  rewrite Ei, Ej. cbn [andb]. unfold_ops. unfold dflt, Dflt_D, s0. cbn [sZ sadd smul Scalar_R].
  now rewrite laplace_loop.
Qed.

Lemma length_jac_step q (J : list R) : length (jac_step q J) = length J.
Proof.
  apply length_for_loop_writes. intros i v.
  apply length_for_loop_writes. intros j w. apply length_insert.
Qed.

Lemma nth_jac_step q (J : list R) i j :
  (i < n)%nat -> (j < n)%nat -> length J = (n * n)%nat ->
  nth (i * n + j) (jac_step q J) 0 = nth (i * n + j) J 0 + jacXweight q * laplace q i j.
Proof.
  intros Hi Hj Hl.
  assert (Hs : (i * n + j < length J)%nat) by (rewrite Hl; nia).
  rewrite (nth_loop_sum n _ (fun i' => big_sum n (fun j' =>
             if (i' * n + j' =? i * n + j)%nat then jacXweight q * laplace q i' j' else 0))).
  - f_equal. now rewrite (big_sum_row_major n i j (fun i' j' => jacXweight q * laplace q i' j')).
  - intros i' v. apply length_for_loop_writes. intros j' w. apply length_insert.
  - intros i' v _ Hv.
    exact (nth_add_loop n (fun j' => (i' * n + j')%nat)
             (fun j' => jacXweight q * laplace q i' j') (i * n + j) v Hv).
  - exact Hs.
Qed.

Lemma volume_loop_jacobian sol_u nq (Rs J : list R) :
  snd (for_loop nq (Poisson.volume_point msh geom_element fe solFEType_u true iel sol_u)
         (Rs, J))
  = for_loop nq (fun q => jac_step q) J.
Proof.
  apply (for_loop_rel (fun (x : list R * list R) (y : list R) => snd x = y)); [reflexivity|].
  intros q [r1 j1] y _ E. cbn [snd] in E. subst y. apply volume_point_jacobian.
Qed.

Lemma nth_volume_loop_jacobian nq (J : list R) i j :
  (i < n)%nat -> (j < n)%nat -> length J = (n * n)%nat ->
  nth (i * n + j) (for_loop nq (fun q => jac_step q) J) 0
  = nth (i * n + j) J 0 + big_sum nq (fun q => jacXweight q * laplace q i j).
Proof.
  intros Hi Hj Hl. induction nq as [|nq IH].
  - rewrite for_loop_0. simpl. lra.
  - rewrite for_loop_S, nth_jac_step; [rewrite IH; simpl; lra | assumption | assumption |].
    rewrite (length_for_loop_writes (fun q => jac_step q) nq J); [exact Hl|].
    intros q v. apply length_jac_step.
Qed.

(** The local Jacobian that an element leaves in [Jac] with the matrix
    enabled. *)
Lemma Jac_element_entry b (RES : NumericVector R) (JAC : SparseMatrix R) i j :
  (i < n)%nat -> (j < n)%nat ->
  nth (i * n + j)
      (Poisson.Jac (fst (Poisson.assemble_element msh geom_element fe bdc solname_u
                           solFEType_u sol_Sol GetIndex GetSolPdeIndex GetSystemDof true
                           iel (b, (RES, JAC))))) 0
  = big_sum (Poisson.GetGaussPointsNumber fe geom) (fun q => jacXweight q * laplace q i j).
Proof.
  intros Hi Hj. unfold Poisson.assemble_element. cbn [fst snd Poisson.Jac].
  rewrite volume_loop_jacobian, vfill_resize.
  rewrite nth_volume_loop_jacobian by (try assumption; apply repeat_length).
  rewrite nth_repeat. unfold s0. cbn [sZ Scalar_R]. lra.
Qed.
End PoissonJacobian.

(** X11: with the matrix enabled, the local Jacobian that an element of the
    Poisson application leaves in [Jac] holds at [i * nDof_u + j] the sum
    over the quadrature points of the weight times the product of the
    gradients of the shape functions [i] and [j]; it is symmetric and does
    not depend on the solution nor on what the local vectors held. *)
Theorem poisson_local_jacobian_is_the_stiffness_matrix
    (msh : Poisson.Mesh) (geom_element : Poisson.CurrentElem R)
    (fe : Poisson.FiniteElements R) (bdc : Poisson.BdcFunction R) (solname_u : string)
    (solFEType_u : nat) (sol_Sol : nat -> nat -> R) (GetIndex GetSolPdeIndex : string -> nat)
    (GetSystemDof : nat -> nat -> nat -> nat -> nat) (iel : nat)
    (st : Poisson.ElemBuffers R * (NumericVector R * SparseMatrix R)) (i j : nat) :
  i < Poisson.nDof_u msh solFEType_u iel -> j < Poisson.nDof_u msh solFEType_u iel ->
  let n := Poisson.nDof_u msh solFEType_u iel in
  let geom := Poisson.ielGeom geom_element iel in
  let JJ := fun q => Poisson.JacJacInv fe geom Poisson.xType
                       (Poisson.coords_at_dofs_3d geom_element iel Poisson.xType) q in
  let phi_u_x := fun q =>
    snd (Poisson.shape_funcs_current_elem fe geom solFEType_u q (snd (fst (JJ q)))) in
  let Jac := Poisson.Jac (fst (Poisson.assemble_element msh geom_element fe bdc solname_u
                                 solFEType_u sol_Sol GetIndex GetSolPdeIndex GetSystemDof
                                 true iel st)) in
  nth (i * n + j) Jac 0%R
  = big_sum (Poisson.GetGaussPointsNumber fe geom) (fun q =>
      snd (JJ q) * Poisson.GetGaussWeights fe geom q
      * big_sum Poisson.space_dim (fun k =>
          nth (i * Poisson.space_dim + k) (phi_u_x q) 0
          * nth (j * Poisson.space_dim + k) (phi_u_x q) 0))%R
  /\ nth (i * n + j) Jac 0%R = nth (j * n + i) Jac 0%R.
Proof.
  intros Hi Hj. cbv zeta. destruct st as [b [RES JAC]].
  rewrite !Jac_element_entry by assumption. split; [reflexivity|].
  apply big_sum_ext. intros q _. f_equal. apply big_sum_ext. intros k _. ring.
Qed.

Lemma poisson_local_jacobian_is_the_stiffness_matrix_witness :
  let Jac := Poisson.Jac (fst (Poisson.assemble_element (TinyPoisson.msh 2)
                                 TinyPoisson.geom_element TinyPoisson.fe
                                 TinyPoisson.neumann_2 "d_s" 2 (fun _ _ => 0%R)
                                 (fun _ => 0) (fun _ => 0) (fun _ _ i _ => i) true 0
                                 (Poisson.initial_buffers, (vec_zero, mat_zero)))) in
  nth (0 * 2 + 1) Jac 0%R = nth (1 * 2 + 0) Jac 0%R.
Proof.
  cbv zeta.
  apply (poisson_local_jacobian_is_the_stiffness_matrix (TinyPoisson.msh 2)
           TinyPoisson.geom_element TinyPoisson.fe TinyPoisson.neumann_2 "d_s" 2
           (fun _ _ => 0%R) (fun _ => 0) (fun _ => 0) (fun _ _ i _ => i) 0
           (Poisson.initial_buffers, (vec_zero, mat_zero)) 0 1);
    vm_compute; lia.
Defined.
(** ** [Conformal/ex7]: the boundary conditions and the arguments of [main] *)

Section Ex7BoundaryFacts.
Local Open Scope R_scope.


End Ex7BoundaryFacts.



(** X13: the boundary function gives the value 0 wherever it reports no
    Dirichlet condition; the pressure has none on any face, the temperature
    none off the faces 1 and 2, and every other solution (the velocity
    components) has the Dirichlet value 0 on every face at every time. *)
Theorem boundary_function_no_slip_and_natural (x : list R) (SolName : string)
    (facename : Z) (time : R) :
  (fst (SetBoundaryCondition x SolName facename time) = false ->
   snd (SetBoundaryCondition x SolName facename time) = 0%R)
  /\ fst (SetBoundaryCondition x "P" facename time) = false
  /\ (fst (SetBoundaryCondition x "T" facename time) = true
      <-> facename = 1%Z \/ facename = 2%Z)
  /\ (SolName <> "T"%string -> SolName <> "P"%string ->
      SetBoundaryCondition x SolName facename time = (true, 0%R)).
Proof.
  unfold SetBoundaryCondition. repeat split.
  - destruct (String.eqb SolName "T"); [|destruct (String.eqb SolName "P")];
      repeat (destruct (_ =? _)%Z); cbn; intros E; try discriminate E; reflexivity.
  - cbn. destruct (Z.eqb_spec facename 1) as [-> | H1]; [now left|].
    destruct (Z.eqb_spec facename 2) as [-> | H2]; [now right | discriminate].
  - cbn. intros [-> | ->]; reflexivity.
  - intros HT HP.
    destruct (String.eqb_spec SolName "T") as [E | _]; [contradiction|].
    destruct (String.eqb_spec SolName "P") as [E | _]; [contradiction | reflexivity].
Qed.

(** X14: [main] accepts a first argument exactly when it is one of the six
    names of [PrecType], and then [precType] is the value of that name, from
    1 to 6; with any other first argument it aborts, and without argument
    [precType] is [FS_VTp]. *)
Theorem main_precType_accepts_the_six_names (prog a : string) (rest : list string) :
  main_precType [prog] = Some (PrecType_value FS_VTp)
  /\ (forall p, main_precType (prog :: PrecType_name p :: rest) = Some (PrecType_value p))
  /\ ((forall p, a <> PrecType_name p) -> main_precType (prog :: a :: rest) = None)
  /\ (forall v, main_precType (prog :: a :: rest) = Some v ->
        1 <= v <= 6 /\ exists p, a = PrecType_name p /\ v = PrecType_value p).
Proof.
  split; [reflexivity|]. split; [intros []; reflexivity|].
  assert (Hcases : (exists p, a = PrecType_name p) \/ forall p, a <> PrecType_name p).
  { destruct (String.eqb_spec "FS_VT" a); [left; now exists FS_VTp|].
    destruct (String.eqb_spec "FS_TV" a); [left; now exists FS_TVp|].
    destruct (String.eqb_spec "ASM_VT" a); [left; now exists ASM_VTp|].
    destruct (String.eqb_spec "ASM_TV" a); [left; now exists ASM_TVp|].
    destruct (String.eqb_spec "ILU_VT" a); [left; now exists ILU_VTp|].
    destruct (String.eqb_spec "ILU_TV" a); [left; now exists ILU_TVp|].
    right. intros []; cbn; congruence. }
  assert (Hnone : (forall p, a <> PrecType_name p) -> main_precType (prog :: a :: rest) = None).
  { intros Hn. unfold main_precType. cbn [length Nat.leb nth].
    destruct (String.eqb_spec "FS_VT" a) as [E|_]; [exfalso; now apply (Hn FS_VTp)|].
    destruct (String.eqb_spec "FS_TV" a) as [E|_]; [exfalso; now apply (Hn FS_TVp)|].
    destruct (String.eqb_spec "ASM_VT" a) as [E|_]; [exfalso; now apply (Hn ASM_VTp)|].
    destruct (String.eqb_spec "ASM_TV" a) as [E|_]; [exfalso; now apply (Hn ASM_TVp)|].
    destruct (String.eqb_spec "ILU_VT" a) as [E|_]; [exfalso; now apply (Hn ILU_VTp)|].
    destruct (String.eqb_spec "ILU_TV" a) as [E|_]; [exfalso; now apply (Hn ILU_TVp)|].
    reflexivity. }
  split; [exact Hnone|].
  intros v Hv. destruct Hcases as [[p ->] | Hn].
  - assert (E : main_precType (prog :: PrecType_name p :: rest) = Some (PrecType_value p))
      by (destruct p; reflexivity).
    rewrite E in Hv. injection Hv as <-. split; [destruct p; cbn; lia|].
    now exists p.
  - rewrite (Hnone Hn) in Hv. discriminate.
Qed.
(** ** [Conformal/ex7]: the element loop of [GetKineandPointVlaue] *)

Section KineticEnergy.
Local Open Scope R_scope.

(** [l1_norm()] of a vector without negative entry is the sum of its
    entries. *)
Lemma l1_norm_nonneg (v : list R) :
  (forall x, In x v -> 0 <= x) -> PointProbe.l1_norm v = Rsum v.
Proof.
  intros Hv. unfold PointProbe.l1_norm, Rsum.
  assert (Hg : forall a, fold_left (fun acc x => acc + Rabs x) v a = a + fold_right Rplus 0 v).
  { induction v as [|x v IH]; intros a; cbn; [lra|].
    rewrite IH by (intros y Hy; apply Hv; now right).
    rewrite Rabs_pos_eq by (apply Hv; now left). lra. }
  rewrite Hg. lra.
Qed.

Variable msh : Mesh R.
Variable sol : Solution R.
Variable mlSol : MultiLevelSolution.
Hypothesis Hw : forall geom type coords ig,
  0 <= fst (fst (Jacobian msh geom type coords ig)).

(** With weights that are not negative the quadrature loop does not lower
    the kinetic energy. *)
Lemma gauss_loop_grows iel solV coordX ke :
  ke <= ProbeLoop.gauss_loop msh mlSol iel solV coordX ke.
Proof.
  unfold ProbeLoop.gauss_loop.
  apply (for_loop_ind (fun x => ke <= x)); [lra|].
  intros ig x _ Hx.
  apply (for_loop_ind (fun y => ke <= y)); [exact Hx|].
  intros k y _ Hy.
  pose proof (Hw (GetElementType msh iel) (solVType msh mlSol) coordX ig) as Hwk.
  fold (ProbeLoop.weight msh mlSol iel coordX ig) in Hwk.
  pose proof (Rle_0_sqr (nth k (ProbeLoop.solV_gss msh mlSol iel solV coordX ig) dflt)) as Hs.
  unfold Rsqr in Hs.
  pose proof (Rmult_le_pos _ _ Hs Hwk). lra.
Qed.

Lemma kineticEnergy_element_loop_nonneg :
  0 <= ProbeLoop.kineticEnergy (ProbeLoop.element_loop msh sol mlSol).
Proof.
  unfold ProbeLoop.element_loop.
  apply (fold_left_inv (fun s => 0 <= ProbeLoop.kineticEnergy s)).
  - cbn. lra.
  - intros iel s _ Hs. cbn [ProbeLoop.element ProbeLoop.kineticEnergy].
    pose proof (gauss_loop_grows iel
      (ProbeLoop.load_solV msh sol mlSol iel (ProbeLoop.solV s))
      (ProbeLoop.load_coordX msh iel (ProbeLoop.coordX s))
      (ProbeLoop.kineticEnergy s)). lra.
Qed.
End KineticEnergy.

(** X15: where the quadrature weights of every partition are not negative,
    the kinetic energy of each partition is not negative and the value that
    [GetKineandPointVlaue] returns, the [l1_norm] of the vector of the
    partitions, is their sum, the same on every partition. *)
Theorem kinetic_energy_is_the_sum_over_partitions
    (parts : list (Mesh R * Solution R)) (mlSol : MultiLevelSolution) (iproc : nat) :
  (forall p geom type coords ig,
     In p parts -> (0 <= fst (fst (Jacobian (fst p) geom type coords ig)))%R) ->
  fst (ProbeLoop.GetKineandPointVlaue parts mlSol iproc)
  = Rsum (map (fun p => ProbeLoop.kineticEnergy
                          (ProbeLoop.element_loop (fst p) (snd p) mlSol)) parts)
  /\ (forall p, In p parts ->
        (0 <= ProbeLoop.kineticEnergy (ProbeLoop.element_loop (fst p) (snd p) mlSol))%R).
Proof.
  intros Hw.
  assert (Hpos : forall p, In p parts ->
            (0 <= ProbeLoop.kineticEnergy (ProbeLoop.element_loop (fst p) (snd p) mlSol))%R).
  { intros p Hp. apply kineticEnergy_element_loop_nonneg.
    intros geom type coords ig. now apply Hw. }
  split; [|exact Hpos].
  unfold ProbeLoop.GetKineandPointVlaue, PointProbe.GetKineandPointVlaue. cbn [fst].
  apply l1_norm_nonneg. intros x Hx. apply in_map_iff in Hx.
  destruct Hx as (p & <- & Hp). now apply Hpos.
Qed.

Lemma kinetic_energy_is_the_sum_over_partitions_witness :
  fst (ProbeLoop.GetKineandPointVlaue [(Tiny.msh, Tiny.sol); (Tiny.msh, Tiny.sol)]
         Tiny.mlSol 1)
  = Rsum (map (fun p => ProbeLoop.kineticEnergy
                          (ProbeLoop.element_loop (fst p) (snd p) Tiny.mlSol))
            [(Tiny.msh, Tiny.sol); (Tiny.msh, Tiny.sol)]).
Proof.
  apply (kinetic_energy_is_the_sum_over_partitions
           [(Tiny.msh, Tiny.sol); (Tiny.msh, Tiny.sol)] Tiny.mlSol 1).
  intros p geom type coords ig [<- | [<- | []]]; cbn; lra.
Defined.

Section LoadedRows.
Context {A : Type}.
Variable d : A.

(** The rows of a vector of vectors after they are resized and filled. *)
Lemma nth_rows_loaded (dm m : nat) (f : nat -> nat -> A) (rows : list (list A)) k :
  length rows = dm -> k < dm ->
  nth k (vec_update_loop [] dm (fun k row => vec_update_loop d m (fun i _ => f k i) row)
           (vec_update_loop [] dm (fun _ row => resize d m row) rows)) []
  = map (f k) (seq 0 m).
Proof.
  intros Hl Hk. rewrite nth_vec_update_loop, length_vec_update_loop, Hl.
  destruct (decide _) as [_ | Hn]; [|lia].
  rewrite nth_vec_update_loop, Hl. destruct (decide _) as [_ | Hn]; [|lia].
  now rewrite vec_update_loop_tabulate by apply length_resize.
Qed.

End LoadedRows.

Section Scan.
Local Open Scope R_scope.
Variable msh : Mesh R.
Variable sol : Solution R.
Variable mlSol : MultiLevelSolution.

(** The indices of U and V in [solVIndex]. *)
Lemma solVIndex_U_V :
  (2 <= dim msh)%nat ->
  nth 0 (solVIndex msh mlSol) 0%nat = GetIndex mlSol "U"
  /\ nth 1 (solVIndex msh mlSol) 0%nat = GetIndex mlSol "V".
Proof.
  intros Hd. unfold solVIndex.
  destruct (dim msh =? 3)%nat; rewrite ?nth_insert, ?length_insert, ?repeat_length;
    repeat (destruct (decide _) as [[? ?] | ?]; try lia; try discriminate);
    split; try reflexivity; exfalso; intuition lia.
Qed.

(** What the scan of an element leaves: what it found, or, where nothing
    was recorded before, the velocity at a node at the probed point. *)
Lemma scan_cases iel (solV coordX : list (list R)) (r : nat * R * R) :
  let r' := ProbeLoop.scan msh iel solV coordX r in
  r' = r
  \/ (fst (fst r) = 0%nat /\ fst (fst r') = 1%nat
      /\ exists i, (i < ProbeLoop.nDofsX msh iel)%nat
           /\ ProbeLoop.at_probe (nth i (nth 0 coordX []) 0) (nth i (nth 1 coordX []) 0) = true
           /\ snd (fst r') = nth i (nth 0 solV []) 0
           /\ snd r' = nth i (nth 1 solV []) 0).
Proof.
  cbv zeta. unfold ProbeLoop.scan.
  destruct (Nat.eqb_spec (fst (fst r)) 0) as [E0 | _]; [|now left].
  apply (for_loop_ind (fun x =>
    x = r
    \/ (fst (fst r) = 0%nat /\ fst (fst x) = 1%nat
        /\ exists i, (i < ProbeLoop.nDofsX msh iel)%nat
             /\ ProbeLoop.at_probe (nth i (nth 0 coordX []) 0) (nth i (nth 1 coordX []) 0)
                = true
             /\ snd (fst x) = nth i (nth 0 solV []) 0
             /\ snd x = nth i (nth 1 solV []) 0))); [now left|].
  intros i x Hi Hx.
  destruct (ProbeLoop.at_probe _ _) eqn:Ep; [|exact Hx].
  right. split; [exact E0|]. split; [reflexivity|].
  exists i. repeat split; [exact Hi | exact Ep].
Qed.
End Scan.

Section ScanLoop.
Local Open Scope R_scope.
Variable msh : Mesh R.
Variable sol : Solution R.
Variable mlSol : MultiLevelSolution.
Hypothesis Hdim : (2 <= dim msh)%nat.
Hypothesis HXV : forall iel, In iel (owned_elements msh) ->
  (ProbeLoop.nDofsX msh iel <= ProbeLoop.nDofsV msh mlSol iel)%nat.

(** The coordinates of a node and the velocity there, as the mesh and the
    solution give them. *)
Abbreviation node_x k iel i := (topology_Sol msh k (GetSolutionDof msh i iel coordXType)).
Abbreviation node_v name iel i :=
  (Sol sol (GetIndex mlSol name) (GetSolutionDof msh i iel (solVType msh mlSol))).

(** Nothing recorded yet, or the velocity recorded at a node at the probed
    point. *)
Abbreviation recorded rc pu pv :=
  ((rc = 0%nat /\ pu = 0 /\ pv = 0)
   \/ (rc = 1%nat
       /\ exists iel i, In iel (owned_elements msh) /\ (i < ProbeLoop.nDofsX msh iel)%nat
            /\ Rabs (node_x 0%nat iel i + 1875 / 1000) < 1 / 1000000
            /\ Rabs (node_x 1%nat iel i + 375 / 1000) < 1 / 1000000
            /\ pu = node_v "U"%string iel i /\ pv = node_v "V"%string iel i)).

Lemma at_probe_true (x y : R) :
  ProbeLoop.at_probe x y = true ->
  Rabs (x + 1875 / 1000) < 1 / 1000000 /\ Rabs (y + 375 / 1000) < 1 / 1000000.
Proof.
  unfold ProbeLoop.at_probe.
  destruct (Rlt_dec _ _) as [Hx | _]; [|discriminate].
  destruct (Rlt_dec _ _) as [Hy | _]; [|discriminate]. now split.
Qed.

Lemma element_recorded iel (s : ProbeLoop.Locals) :
  In iel (owned_elements msh) ->
  length (ProbeLoop.solV s) = dim msh -> length (ProbeLoop.coordX s) = dim msh ->
  recorded (ProbeLoop.recordCoord s) (ProbeLoop.ptUCoord s) (ProbeLoop.ptVCoord s) ->
  let s' := ProbeLoop.element msh sol mlSol iel s in
  length (ProbeLoop.solV s') = dim msh /\ length (ProbeLoop.coordX s') = dim msh
  /\ recorded (ProbeLoop.recordCoord s') (ProbeLoop.ptUCoord s') (ProbeLoop.ptVCoord s').
Proof.
  intros Hin Hlv Hlx Hrec. cbv zeta.
  cbn [ProbeLoop.element ProbeLoop.solV ProbeLoop.coordX ProbeLoop.recordCoord
       ProbeLoop.ptUCoord ProbeLoop.ptVCoord].
  split; [|split].
  - unfold ProbeLoop.load_solV. now rewrite !length_vec_update_loop.
  - unfold ProbeLoop.load_coordX. now rewrite !length_vec_update_loop.
  - destruct (scan_cases msh iel
                (ProbeLoop.load_solV msh sol mlSol iel (ProbeLoop.solV s))
                (ProbeLoop.load_coordX msh iel (ProbeLoop.coordX s))
                (ProbeLoop.recordCoord s, ProbeLoop.ptUCoord s, ProbeLoop.ptVCoord s))
      as [-> | (E0 & E1 & i & Hi & Hp & Eu & Ev)]; [exact Hrec|].
    right. split; [exact E1|]. exists iel, i. split; [exact Hin|]. split; [exact Hi|].
    assert (HiV : (i < ProbeLoop.nDofsV msh mlSol iel)%nat) by (specialize (HXV iel Hin); lia).
    destruct (solVIndex_U_V msh mlSol Hdim) as [EU EV].
    unfold ProbeLoop.load_coordX in Hp. unfold ProbeLoop.load_solV in Eu, Ev.
    unfold dflt, Dflt_list, Dflt_D, Dflt_nat in *.
    rewrite !(nth_rows_loaded s0) in Hp by (try exact Hlx; lia).
    rewrite (nth_rows_loaded s0) in Eu by (try exact Hlv; lia).
    rewrite (nth_rows_loaded s0) in Ev by (try exact Hlv; lia).
    rewrite !(nth_map_seq _ _ _ _ Hi) in Hp.
    rewrite (nth_map_seq _ _ _ _ HiV) in Eu. rewrite (nth_map_seq _ _ _ _ HiV) in Ev.
    rewrite EU in Eu. rewrite EV in Ev.
    destruct (at_probe_true _ _ Hp) as [Hx Hy].
    repeat split; assumption.
Qed.
End ScanLoop.

(** X16: in two or three dimensions, where the elements have no more
    coordinate nodes than velocity nodes, the element loop of a partition
    either records nothing and leaves both probe values 0, or records
    the velocity (U, V) at a node of an owned element whose coordinates are
    within [1.0e-6] of the probed point (-1.875, -0.375). *)
Theorem probed_velocity_is_at_a_node_at_the_probed_point
    (msh : Mesh R) (sol : Solution R) (mlSol : MultiLevelSolution) :
  2 <= dim msh ->
  (forall iel, In iel (owned_elements msh) ->
     ProbeLoop.nDofsX msh iel <= ProbeLoop.nDofsV msh mlSol iel) ->
  let r := ProbeLoop.element_loop msh sol mlSol in
  (ProbeLoop.recordCoord r = 0 /\ ProbeLoop.ptUCoord r = 0%R /\ ProbeLoop.ptVCoord r = 0%R)
  \/ (ProbeLoop.recordCoord r = 1
      /\ exists iel i, In iel (owned_elements msh) /\ i < ProbeLoop.nDofsX msh iel
           /\ (Rabs (topology_Sol msh 0 (GetSolutionDof msh i iel coordXType) + 1875 / 1000)
               < 1 / 1000000)%R
           /\ (Rabs (topology_Sol msh 1 (GetSolutionDof msh i iel coordXType) + 375 / 1000)
               < 1 / 1000000)%R
           /\ ProbeLoop.ptUCoord r
              = Sol sol (GetIndex mlSol "U") (GetSolutionDof msh i iel (solVType msh mlSol))
           /\ ProbeLoop.ptVCoord r
              = Sol sol (GetIndex mlSol "V") (GetSolutionDof msh i iel (solVType msh mlSol))).
Proof.
  intros Hdim HXV. cbv zeta. unfold ProbeLoop.element_loop.
  apply (fold_left_inv (fun s =>
    length (ProbeLoop.solV s) = dim msh /\ length (ProbeLoop.coordX s) = dim msh
    /\ ((ProbeLoop.recordCoord s = 0 /\ ProbeLoop.ptUCoord s = 0%R
         /\ ProbeLoop.ptVCoord s = 0%R)
        \/ (ProbeLoop.recordCoord s = 1
            /\ exists iel i, In iel (owned_elements msh) /\ i < ProbeLoop.nDofsX msh iel
                 /\ (Rabs (topology_Sol msh 0 (GetSolutionDof msh i iel coordXType)
                           + 1875 / 1000) < 1 / 1000000)%R
                 /\ (Rabs (topology_Sol msh 1 (GetSolutionDof msh i iel coordXType)
                           + 375 / 1000) < 1 / 1000000)%R
                 /\ ProbeLoop.ptUCoord s
                    = Sol sol (GetIndex mlSol "U")
                        (GetSolutionDof msh i iel (solVType msh mlSol))
                 /\ ProbeLoop.ptVCoord s
                    = Sol sol (GetIndex mlSol "V")
                        (GetSolutionDof msh i iel (solVType msh mlSol)))))).
  - cbn [ProbeLoop.initial ProbeLoop.solV ProbeLoop.coordX ProbeLoop.recordCoord
         ProbeLoop.ptUCoord ProbeLoop.ptVCoord].
    rewrite !repeat_length. repeat split. now left.
  - intros iel s Hin (Hlv & Hlx & Hrec).
    exact (element_recorded msh sol mlSol Hdim HXV iel s Hin Hlv Hlx Hrec).
Qed.

Lemma probed_velocity_is_at_a_node_at_the_probed_point_witness :
  let r := ProbeLoop.element_loop Tiny.msh Tiny.sol Tiny.mlSol in
  (ProbeLoop.recordCoord r = 0 /\ ProbeLoop.ptUCoord r = 0%R /\ ProbeLoop.ptVCoord r = 0%R)
  \/ (ProbeLoop.recordCoord r = 1
      /\ exists iel i, In iel (owned_elements Tiny.msh) /\ i < ProbeLoop.nDofsX Tiny.msh iel
           /\ (Rabs (topology_Sol Tiny.msh 0 (GetSolutionDof Tiny.msh i iel coordXType)
                     + 1875 / 1000) < 1 / 1000000)%R
           /\ (Rabs (topology_Sol Tiny.msh 1 (GetSolutionDof Tiny.msh i iel coordXType)
                     + 375 / 1000) < 1 / 1000000)%R
           /\ ProbeLoop.ptUCoord r
              = Sol Tiny.sol (GetIndex Tiny.mlSol "U")
                  (GetSolutionDof Tiny.msh i iel (solVType Tiny.msh Tiny.mlSol))
           /\ ProbeLoop.ptVCoord r
              = Sol Tiny.sol (GetIndex Tiny.mlSol "V")
                  (GetSolutionDof Tiny.msh i iel (solVType Tiny.msh Tiny.mlSol))).
Proof.
  apply (probed_velocity_is_at_a_node_at_the_probed_point Tiny.msh Tiny.sol Tiny.mlSol).
  - vm_compute. lia.
  - intros iel _. vm_compute. lia.
Defined.
(** ** The residual that a pass of the Boussinesq assembly leaves *)

Section Accumulate.
Local Open Scope R_scope.

(** Adding a block to a vector that holds [c] more leaves [c] more. *)
Lemma add_vector_blocked_shift (vals : list R) dofs (V V' : NumericVector R)
    (c : nat -> R) :
  (forall g, V g = c g + V' g) ->
  forall g, add_vector_blocked vals dofs V g = c g + add_vector_blocked vals dofs V' g.
Proof.
  intros E. unfold add_vector_blocked.
  apply (for_loop_rel (fun (x y : NumericVector R) => forall g, x g = c g + y g)); [exact E|].
  intros i x y _ Hxy g. unfold vec_add_at.
  destruct (decide (g = nth i dofs 0%nat)) as [-> | _]; [|apply Hxy].
  rewrite Hxy. cbn [sadd Scalar_R]. lra.
Qed.

Variable msh : Mesh R.
Variable sol : Solution R.
Variable mlSol : MultiLevelSolution.
Variable mlPdeSys : PdeSystem R.
Variable sizeT : nat -> nat -> nat.

Lemma Assemble_shift (g : AsmState R) :
  forall dof,
    RES (Assemble msh sol mlSol mlPdeSys sizeT g) dof
    = RES g dof
      + RES (Assemble msh sol mlSol mlPdeSys sizeT
               {| stack := stack g; RES := vec_zero; KK := KK g |}) dof.
Proof.
  unfold Assemble. cbn [stack RES KK].
  set (am := GetAssembleMatrix mlPdeSys).
  pose (Rel := fun s1 s2 : ElemBuffers R * AsmState R =>
          fst s1 = fst s2 /\ stack (snd s1) = stack (snd s2)
          /\ forall dof, RES (snd s1) dof = RES g dof + RES (snd s2) dof).
  match goal with
  | |- forall dof, RES (let '(_, g1) := ?F1 in _) dof
                   = _ + RES (let '(_, g2) := ?F2 in _) dof =>
      assert (Hinv : Rel F1 F2)
  end.
  { apply (fold_left_rel Rel).
    - split; [reflexivity|]. split; [reflexivity|]. intros dof. cbn [snd RES].
      unfold vec_zero, s0. cbn [sZ Scalar_R]. lra.
    - intros iel [b1 g1] [b2 g2] _ (Eb & Es & Er). cbn [fst snd] in Eb, Es, Er. subst b2.
      split; [|split].
      + unfold assemble_element. rewrite Es. now destruct am.
      + destruct am.
        * now rewrite !stack_assemble_element_enabled, Es.
        * exact Es.
      + intros dof. unfold assemble_element. rewrite Es.
        destruct am; cbn [snd RES]; now apply add_vector_blocked_shift. }
  destruct (fold_left _ _ _) as [b1 g1]. destruct (fold_left _ _ _) as [b2 g2].
  destruct Hinv as (_ & _ & Er). exact Er.
Qed.
End Accumulate.

(** X17: the pass of the Boussinesq application adds to the global residual
    it finds: over the real numbers every entry after the pass is the entry
    before the pass plus what the same pass leaves when it starts from the
    zero vector. *)
Theorem boussinesq_pass_adds_to_incoming_residual
    (msh : Mesh R) (sol : Solution R) (mlSol : MultiLevelSolution) (mlPdeSys : PdeSystem R)
    (g : AsmState R) (dof : nat) :
  RES (AssembleBoussinesqAppoximation_AD msh sol mlSol mlPdeSys g) dof
  = (RES g dof
     + RES (AssembleBoussinesqAppoximation_AD msh sol mlSol mlPdeSys
              {| stack := stack g; RES := vec_zero; KK := KK g |}) dof)%R.
Proof. apply Assemble_shift. Qed.
(** ** The local residual of the Poisson assembly *)

Section SumFacts.
Local Open Scope R_scope.

Lemma big_sum_minus n (f g : nat -> R) :
  big_sum n (fun i => f i - g i) = big_sum n f - big_sum n g.
Proof. induction n as [|n IH]; simpl; [lra | rewrite IH; lra]. Qed.

Lemma big_sum_plus n (f g : nat -> R) :
  big_sum n (fun i => f i + g i) = big_sum n f + big_sum n g.
Proof. induction n as [|n IH]; simpl; [lra | rewrite IH; lra]. Qed.

Lemma big_sum_swap n m (f : nat -> nat -> R) :
  big_sum n (fun i => big_sum m (fun j => f i j))
  = big_sum m (fun j => big_sum n (fun i => f i j)).
Proof.
  induction n as [|n IH]; simpl.
  - symmetry. apply big_sum_0. reflexivity.
  - rewrite IH, <- big_sum_plus. reflexivity.
Qed.
End SumFacts.

Lemma for_loop_sum_R n (a : nat -> R) :
  for_loop n (fun k acc => (acc + a k)%R) 0%R = big_sum n a.
Proof.
  induction n as [|n IH]; [reflexivity|]. rewrite for_loop_S, IH. reflexivity.
Qed.

Section PoissonResidual.
Variable msh : Poisson.Mesh.
Variable geom_element : Poisson.CurrentElem R.
Variable fe : Poisson.FiniteElements R.
Variable bdc : Poisson.BdcFunction R.
Variable solname_u : string.
Variable solFEType_u : nat.
Variable sol_Sol : nat -> nat -> R.
Variable GetIndex : string -> nat.
Variable GetSolPdeIndex : string -> nat.
Variable GetSystemDof : nat -> nat -> nat -> nat -> nat.
Variable iel : nat.
Hypothesis Hbdc : forall x name face time, snd (bdc x name face time) = 0%R.
Local Open Scope R_scope.

Abbreviation n := (Poisson.nDof_u msh solFEType_u iel).
Abbreviation geom := (Poisson.ielGeom geom_element iel).
Abbreviation JJv q :=
  (Poisson.JacJacInv fe geom Poisson.xType
     (Poisson.coords_at_dofs_3d geom_element iel Poisson.xType) q).
Abbreviation jacXweight q := (snd (JJv q) * Poisson.GetGaussWeights fe geom q).
Abbreviation phi_u q :=
  (fst (Poisson.shape_funcs_current_elem fe geom solFEType_u q (snd (fst (JJv q))))).
Abbreviation phi_u_x q :=
  (snd (Poisson.shape_funcs_current_elem fe geom solFEType_u q (snd (fst (JJv q))))).
Abbreviation laplace q i j :=
  (big_sum Poisson.space_dim (fun k =>
     nth (i * Poisson.space_dim + k) (phi_u_x q) 0
     * nth (j * Poisson.space_dim + k) (phi_u_x q) 0)).
(** The values of the solution at the nodes of the element. *)
Abbreviation u j :=
  (sol_Sol (Poisson.solIndex_u solname_u GetIndex)
     (Poisson.GetSolutionDof msh j iel solFEType_u)).
Abbreviation sol_u := (map (fun j => u j) (seq 0 n)).

(** The gradient of the solution at the quadrature point. *)
Lemma nth_sol_u_x_gss q m k :
  (k < Poisson.space_dim)%nat ->
  nth k (for_loop m (fun i g =>
           vec_update_loop 0 Poisson.space_dim (fun d x =>
             x + nth i sol_u 0 * nth (i * Poisson.space_dim + d) (phi_u_x q) 0) g)
           (repeat 0 Poisson.space_dim)) 0
  = big_sum m (fun j => nth j sol_u 0 * nth (j * Poisson.space_dim + k) (phi_u_x q) 0).
Proof.
  intros Hk. induction m as [|m IH].
  - rewrite for_loop_0. cbn [big_sum]. apply nth_repeat.
  - rewrite for_loop_S, nth_vec_update_loop.
    rewrite (length_for_loop_writes _ m)
      by (intros i v; apply length_vec_update_loop).
    rewrite repeat_length.
    destruct (decide _) as [_ | Hn]; [|exfalso; apply Hn; now split].
    rewrite IH. reflexivity.
Qed.

(** The loop of a quadrature point on [Res] alone. *)
Abbreviation res_step q :=
  (fun Rs : list R =>
     for_loop n (fun i Rs =>
       <[i := nth i Rs 0
              + jacXweight q
                * (nth i (phi_u q) 0 * 100
                   - big_sum n (fun j => nth j sol_u 0 * laplace q i j))]> Rs) Rs).

Lemma laplace_res q i :
  for_loop Poisson.space_dim (fun kdim acc =>
    acc + nth (i * Poisson.space_dim + kdim) (phi_u_x q) 0
          * nth kdim (for_loop n (fun i g =>
              vec_update_loop 0 Poisson.space_dim (fun d x =>
                x + nth i sol_u 0 * nth (i * Poisson.space_dim + d) (phi_u_x q) 0) g)
              (repeat 0 Poisson.space_dim)) 0) 0
  = big_sum n (fun j => nth j sol_u 0 * laplace q i j).
Proof.
  rewrite (for_loop_sum_R Poisson.space_dim).
  rewrite (big_sum_ext Poisson.space_dim _
             (fun k => big_sum n (fun j =>
                nth j sol_u 0
                * (nth (i * Poisson.space_dim + k) (phi_u_x q) 0
                   * nth (j * Poisson.space_dim + k) (phi_u_x q) 0)))).
  2: { intros k Hk. rewrite nth_sol_u_x_gss by exact Hk.
       rewrite <- big_sum_scal. apply big_sum_ext. intros j _. lra. }
  rewrite big_sum_swap. apply big_sum_ext. intros j _.
  rewrite big_sum_scal. lra.
Qed.

Lemma volume_point_residual_step am q (Rs J : list R) :
  fst (Poisson.volume_point msh geom_element fe solFEType_u am iel sol_u q (Rs, J))
  = res_step q Rs.
Proof.
  unfold Poisson.volume_point.
  apply (for_loop_rel (fun (x : list R * list R) (y : list R) => fst x = y)); [reflexivity|].
  intros i [r1 j1] y Hi E. cbn [fst] in E. subst y. cbn [fst].
  assert (Ei : (i <? n)%nat = true) by now apply Nat.ltb_lt.
  rewrite Ei. unfold_ops. unfold dflt, Dflt_D, s0. cbn [sZ sadd smul ssub Scalar_R].
  now rewrite laplace_res.
Qed.

Lemma nth_res_step q (Rs : list R) i :
  (i < n)%nat -> (i < length Rs)%nat ->
  nth i (res_step q Rs) 0
  = nth i Rs 0
    + jacXweight q
      * (nth i (phi_u q) 0 * 100 - big_sum n (fun j => nth j sol_u 0 * laplace q i j)).
Proof.
  intros Hi Hl.
  etransitivity;
    [exact (nth_add_loop n (fun i => i)
              (fun i => jacXweight q
                        * (nth i (phi_u q) 0 * 100
                           - big_sum n (fun j => nth j sol_u 0 * laplace q i j))) i Rs Hl)|].
  f_equal.
  exact (big_sum_single n i
           (fun i => jacXweight q
                     * (nth i (phi_u q) 0 * 100
                        - big_sum n (fun j => nth j sol_u 0 * laplace q i j))) Hi).
Qed.

Lemma nth_volume_loop_residual am nq (Rs J : list R) i :
  (i < n)%nat -> (i < length Rs)%nat ->
  nth i (fst (for_loop nq
                (Poisson.volume_point msh geom_element fe solFEType_u am iel sol_u) (Rs, J)))
      0
  = nth i Rs 0
    + big_sum nq (fun q =>
        jacXweight q
        * (nth i (phi_u q) 0 * 100 - big_sum n (fun j => nth j sol_u 0 * laplace q i j))).
Proof.
  intros Hi Hl.
  assert (E : fst (for_loop nq
                     (Poisson.volume_point msh geom_element fe solFEType_u am iel sol_u)
                     (Rs, J))
              = for_loop nq (fun q => res_step q) Rs).
  { apply (for_loop_rel (fun (x : list R * list R) (y : list R) => fst x = y));
      [reflexivity|].
    intros q [r1 j1] y _ Ey. cbn [fst] in Ey. subst y. apply volume_point_residual_step. }
  rewrite E. clear E. induction nq as [|nq IH].
  - rewrite for_loop_0. simpl. lra.
  - rewrite for_loop_S, nth_res_step; [rewrite IH; simpl; lra | exact Hi |].
    rewrite (length_for_loop_writes (fun q => res_step q) nq Rs); [exact Hl|].
    intros q v. apply length_add_loop.
Qed.

(** The boundary loops add nothing where the data are 0. *)
Lemma neumann_loops_homogeneous (Rs : list R) :
  (if (Poisson.dim msh =? 2) || (Poisson.dim msh =? 3)
   then Poisson.neumann_loop_2d3d msh geom_element fe bdc solname_u solFEType_u iel
          Poisson.xType
          (if Poisson.dim msh =? 1
           then Poisson.neumann_loop_1d msh geom_element bdc solname_u solFEType_u iel
                  Poisson.xType Rs
           else Rs)
   else (if Poisson.dim msh =? 1
         then Poisson.neumann_loop_1d msh geom_element bdc solname_u solFEType_u iel
                Poisson.xType Rs
         else Rs))
  = Rs.
Proof.
  assert (E1 : Poisson.neumann_loop_1d msh geom_element bdc solname_u solFEType_u iel
                 Poisson.xType Rs = Rs).
  { apply neumann_loop_1d_homogeneous. intros jface _ _ _. apply Hbdc. }
  rewrite E1. destruct (Poisson.dim msh =? 1); destruct (_ || _); try reflexivity;
    now apply neumann_loop_2d3d_homogeneous.
Qed.

Lemma Res_element_entry am b (RES : NumericVector R) (JAC : SparseMatrix R) i :
  (i < n)%nat ->
  nth i (Poisson.Res (fst (Poisson.assemble_element msh geom_element fe bdc solname_u
                             solFEType_u sol_Sol GetIndex GetSolPdeIndex GetSystemDof am
                             iel (b, (RES, JAC))))) 0
  = big_sum (Poisson.GetGaussPointsNumber fe geom) (fun q =>
      jacXweight q
      * (nth i (phi_u q) 0 * 100 - big_sum n (fun j => nth j sol_u 0 * laplace q i j))).
Proof.
  intros Hi. unfold Poisson.assemble_element. cbn [fst snd Poisson.Res].
  rewrite sol_u_loaded, !vfill_resize.
  rewrite neumann_loops_homogeneous.
  rewrite nth_volume_loop_residual by (try assumption; now rewrite repeat_length).
  rewrite nth_repeat. unfold s0. cbn [sZ Scalar_R]. lra.
Qed.
End PoissonResidual.

(** X18: with the boundary function of the Poisson application and the matrix
    enabled, the local residual that an element leaves in [Res] is the load
    minus the local Jacobian applied to the values of the solution at the
    nodes of the element: entry [i] is the sum over the quadrature points of
    weight * phi_i * 100, minus the sum over [j] of [Jac[i * nDof_u + j]]
    times the solution at node [j]. *)
Theorem poisson_local_residual_is_load_minus_jacobian_times_solution
    (mesh_dim : nat) (msh : Poisson.Mesh) (geom_element : Poisson.CurrentElem R)
    (fe : Poisson.FiniteElements R) (solname_u : string)
    (solFEType_u : nat) (sol_Sol : nat -> nat -> R) (GetIndex GetSolPdeIndex : string -> nat)
    (GetSystemDof : nat -> nat -> nat -> nat -> nat) (iel : nat)
    (st : Poisson.ElemBuffers R * (NumericVector R * SparseMatrix R)) (i : nat) :
  i < Poisson.nDof_u msh solFEType_u iel ->
  let n := Poisson.nDof_u msh solFEType_u iel in
  let geom := Poisson.ielGeom geom_element iel in
  let JJ := fun q => Poisson.JacJacInv fe geom Poisson.xType
                       (Poisson.coords_at_dofs_3d geom_element iel Poisson.xType) q in
  let phi_u := fun q =>
    fst (Poisson.shape_funcs_current_elem fe geom solFEType_u q (snd (fst (JJ q)))) in
  let u := fun j => sol_Sol (Poisson.solIndex_u solname_u GetIndex)
                      (Poisson.GetSolutionDof msh j iel solFEType_u) in
  let out := fst (Poisson.assemble_element msh geom_element fe
                    (Poisson.SetBoundaryCondition mesh_dim) solname_u solFEType_u sol_Sol
                    GetIndex GetSolPdeIndex GetSystemDof true iel st) in
  nth i (Poisson.Res out) 0%R
  = (big_sum (Poisson.GetGaussPointsNumber fe geom) (fun q =>
       snd (JJ q) * Poisson.GetGaussWeights fe geom q * (nth i (phi_u q) 0 * 100))
     - big_sum n (fun j => nth (i * n + j) (Poisson.Jac out) 0 * u j))%R.
Proof.
  intros Hi. cbv zeta. destruct st as [b [RES JAC]].
  rewrite Res_element_entry;
    [|intros x name face time; exact (SetBoundaryCondition_value (D := R) mesh_dim x name face time)
     |exact Hi].
  rewrite (big_sum_ext (Poisson.nDof_u msh solFEType_u iel) _ _
             (fun j Hj => f_equal (fun x => (x * _)%R)
                            (Jac_element_entry msh geom_element fe _ solname_u solFEType_u
                               sol_Sol GetIndex GetSolPdeIndex GetSystemDof iel b RES JAC
                               i j Hi Hj))).
  rewrite (big_sum_ext _ _ (fun q =>
             (snd (Poisson.JacJacInv fe (Poisson.ielGeom geom_element iel) Poisson.xType
                     (Poisson.coords_at_dofs_3d geom_element iel Poisson.xType) q)
              * Poisson.GetGaussWeights fe (Poisson.ielGeom geom_element iel) q
              * (nth i (fst (Poisson.shape_funcs_current_elem fe
                               (Poisson.ielGeom geom_element iel) solFEType_u q
                               (snd (fst (Poisson.JacJacInv fe
                                            (Poisson.ielGeom geom_element iel) Poisson.xType
                                            (Poisson.coords_at_dofs_3d geom_element iel
                                               Poisson.xType) q))))) 0 * 100)
              - big_sum (Poisson.nDof_u msh solFEType_u iel) (fun j =>
                  sol_Sol (Poisson.solIndex_u solname_u GetIndex)
                    (Poisson.GetSolutionDof msh j iel solFEType_u)
                  * (snd (Poisson.JacJacInv fe (Poisson.ielGeom geom_element iel)
                            Poisson.xType
                            (Poisson.coords_at_dofs_3d geom_element iel Poisson.xType) q)
                     * Poisson.GetGaussWeights fe (Poisson.ielGeom geom_element iel) q
                     * big_sum Poisson.space_dim (fun k =>
                         nth (i * Poisson.space_dim + k)
                           (snd (Poisson.shape_funcs_current_elem fe
                                   (Poisson.ielGeom geom_element iel) solFEType_u q
                                   (snd (fst (Poisson.JacJacInv fe
                                                (Poisson.ielGeom geom_element iel)
                                                Poisson.xType
                                                (Poisson.coords_at_dofs_3d geom_element iel
                                                   Poisson.xType) q))))) 0
                         * nth (j * Poisson.space_dim + k)
                             (snd (Poisson.shape_funcs_current_elem fe
                                     (Poisson.ielGeom geom_element iel) solFEType_u q
                                     (snd (fst (Poisson.JacJacInv fe
                                                  (Poisson.ielGeom geom_element iel)
                                                  Poisson.xType
                                                  (Poisson.coords_at_dofs_3d geom_element
                                                     iel Poisson.xType) q))))) 0))))%R)).
  2: { intros q _. rewrite Rmult_minus_distr_l. f_equal.
       rewrite <- big_sum_scal. apply big_sum_ext. intros j Hj.
       rewrite nth_map_seq by exact Hj. ring. }
  rewrite big_sum_minus, big_sum_swap. f_equal.
  apply big_sum_ext. intros j _. rewrite (Rmult_comm (big_sum _ _)), <- big_sum_scal.
  apply big_sum_ext. intros q _. ring.
Qed.

Lemma poisson_local_residual_is_load_minus_jacobian_times_solution_witness :
  let out := fst (Poisson.assemble_element (TinyPoisson.msh 2)
                    TinyPoisson.geom_element TinyPoisson.fe
                    (Poisson.SetBoundaryCondition 2) "d_s" 2 (fun _ _ => 1%R)
                    (fun _ => 0) (fun _ => 0) (fun _ _ i _ => i) true 0
                    (Poisson.initial_buffers, (vec_zero, mat_zero))) in
  nth 0 (Poisson.Res out) 0%R
  = (big_sum 1 (fun q => 1 * 1 * (1 * 100))
     - big_sum 2 (fun j => nth (0 * 2 + j) (Poisson.Jac out) 0 * 1))%R.
Proof.
  cbv zeta.
  apply (poisson_local_residual_is_load_minus_jacobian_times_solution 2 (TinyPoisson.msh 2)
           TinyPoisson.geom_element TinyPoisson.fe "d_s" 2
           (fun _ _ => 1%R) (fun _ => 0) (fun _ => 0) (fun _ _ i _ => i) 0
           (Poisson.initial_buffers, (vec_zero, mat_zero)) 0);
    vm_compute; lia.
Defined.
